(** * The CSS selector parser of [src/server/common/cssParser.ts]

    A shallow embedding of [parseCSS] and [serializeSelector].  The
    tokenizer ([./cssTokenizer]) is not among the source files: the
    parser is embedded over the token sequence it returns, and where a
    selector text is needed the tokenizer is a parameter. *)

From Stdlib Require Import String Ascii List Arith Lia Bool Floats.
Import ListNotations.
Local Open Scope string_scope.
Local Open Scope list_scope.

(** ** Tokens *)

(** Modelled from the spec: the token classes of [./cssTokenizer], whose
    declarations are missing.  A token has a kind and a source slice;
    the kinds are those that [parseCSS] tests with [instanceof], each with
    the [value] field when [parseCSS] reads it (a JavaScript number is a
    float).  [OpenParenToken] is tested nowhere in [parseCSS]; it is here
    for the nesting of parentheses.  [OtherToken] stands for every
    remaining class (dimension, match operators, ...). *)
Inductive TokenClass : Type :=
| IdentToken (value : string)
| FunctionToken (value : string)
| StringToken (value : string)
| NumberToken (value : float)
| DelimToken (value : string)
| HashToken
| WhitespaceToken
| ColonToken
| CommaToken
| OpenParenToken
| CloseParenToken
| OpenSquareToken
| CloseSquareToken
| EOFToken
| AtKeywordToken
| BadStringToken
| BadURLToken
| ColumnToken
| CDOToken
| CDCToken
| SemicolonToken
| OpenCurlyToken
| CloseCurlyToken
| URLToken
| PercentageToken
| OtherToken.

Record Token : Type := mkToken { class : TokenClass; toSource : string }.

(** Modelled from the spec: [new css.EOFToken()], which [parseCSS] pushes
    itself; the end of input has an empty source slice. *)
Definition newEOFToken : Token := mkToken EOFToken "".

(** ** The selector tree (lines 19-28) *)

Inductive CSSFunctionArgument : Type :=
| ArgSelector (c : CSSComplexSelector)
| ArgNumber (n : float)
| ArgString (s : string)
with CSSComplexSelector : Type :=
| mkComplex (simple : list (CSSSimpleSelector * string))
with CSSSimpleSelector : Type :=
| mkSimple (css : option string) (functions : list CSSFunction)
with CSSFunction : Type :=
| mkFunction (name : string) (args : list CSSFunctionArgument).

Definition simple (c : CSSComplexSelector) : list (CSSSimpleSelector * string) :=
  match c with mkComplex l => l end.
Definition css (s : CSSSimpleSelector) : option string :=
  match s with mkSimple c _ => c end.
Definition functions (s : CSSSimpleSelector) : list CSSFunction :=
  match s with mkSimple _ f => f end.
Definition name (f : CSSFunction) : string :=
  match f with mkFunction n _ => n end.
Definition args (f : CSSFunction) : list CSSFunctionArgument :=
  match f with mkFunction _ a => a end.

Definition CSSSelectorList : Type := list CSSComplexSelector.

(** ** The built-in name tables (lines 232-243) *)

Definition builtinCSSFilters : list string :=
  [ "active"; "any-link"; "checked"; "blank"; "default"; "defined";
    "disabled"; "empty"; "enabled"; "first"; "first-child"; "first-of-type";
    "fullscreen"; "focus"; "focus-visible"; "focus-within"; "hover";
    "indeterminate"; "in-range"; "invalid"; "last-child"; "last-of-type";
    "link"; "only-child"; "only-of-type"; "optional"; "out-of-range";
    "placeholder-shown"; "read-only"; "read-write"; "required"; "root";
    "target"; "valid"; "visited" ].

Definition builtinCSSFunctions : list string :=
  [ "dir"; "lang"; "nth-child"; "nth-last-child"; "nth-last-of-type";
    "nth-of-type" ].

(** [set.has(x)] *)
Definition has (set : list string) (x : string) : bool :=
  existsb (String.eqb x) set.

(** ** Exceptions and outcomes *)

(** What a call can throw.  Every [Error] of the source is told apart by
    its message only; [message] below gives it.  [TypeError] is what
    JavaScript raises for [tokens[pos].toSource()] when [pos] is past the
    end of the array. *)
Inductive Exception : Type :=
| LexicalError (msg : string)
| UnsupportedToken (t : Token)
| UnexpectedToken (t : Token)
| ParsingError
| TypeError.

(** The double-quote character, and a text between double quotes. *)
Definition dquote : string := String (ascii_of_nat 34) EmptyString.
Definition quoted (s : string) : string := dquote ++ s ++ dquote.

(** The messages of lines 37, 62, 67 and 210-212. *)
Definition message (selector : string) (e : Exception) : string :=
  match e with
  | LexicalError msg =>
      msg ++ " while parsing selector " ++ quoted selector
  | UnsupportedToken t =>
      "Unsupported token " ++ quoted (toSource t)
        ++ " while parsing selector " ++ quoted selector
  | UnexpectedToken t =>
      "Unexpected token " ++ quoted (toSource t)
        ++ " while parsing selector " ++ quoted selector
  | ParsingError => "Error while parsing selector " ++ quoted selector
  | TypeError => "Cannot read properties of undefined"
  end.

(** The result of a grammar rule run from a cursor: a value and the new
    cursor, an exception, or an exhausted recursion budget. *)
Inductive Outcome (A : Type) : Type :=
| Ok (a : A) (pos : nat)
| Throw (e : Exception)
| OutOfFuel.
Arguments Ok {A} a pos.
Arguments Throw {A} e.
Arguments OutOfFuel {A}.

Definition bind {A B : Type} (m : Outcome A) (k : A -> nat -> Outcome B) : Outcome B :=
  match m with
  | Ok a pos => k a pos
  | Throw e => Throw e
  | OutOfFuel => OutOfFuel
  end.

Notation "'let*' ( x , p ) := m 'in' k" :=
  (bind m (fun x p => k))
  (at level 10, x name, p name, m at level 100, k at level 200, only parsing).

(** ** Token tests *)

Definition isIdentToken (t : Token) : bool :=
  match class t with IdentToken _ => true | _ => false end.
Definition isStringToken (t : Token) : bool :=
  match class t with StringToken _ => true | _ => false end.
Definition isNumberToken (t : Token) : bool :=
  match class t with NumberToken _ => true | _ => false end.
Definition isCommaToken (t : Token) : bool :=
  match class t with CommaToken => true | _ => false end.
Definition isCloseParenToken (t : Token) : bool :=
  match class t with CloseParenToken => true | _ => false end.
Definition isEOFToken (t : Token) : bool :=
  match class t with EOFToken => true | _ => false end.
Definition isWhitespaceToken (t : Token) : bool :=
  match class t with WhitespaceToken => true | _ => false end.
Definition isHashToken (t : Token) : bool :=
  match class t with HashToken => true | _ => false end.
Definition isColonToken (t : Token) : bool :=
  match class t with ColonToken => true | _ => false end.
Definition isOpenSquareToken (t : Token) : bool :=
  match class t with OpenSquareToken => true | _ => false end.
Definition isCloseSquareToken (t : Token) : bool :=
  match class t with CloseSquareToken => true | _ => false end.

(** [(t instanceof css.DelimToken) && t.value === v] *)
Definition isDelimToken (v : string) (t : Token) : bool :=
  match class t with DelimToken value => String.eqb value v | _ => false end.

(** [(t instanceof css.DelimToken) && ['>', '+', '~'].includes(t.value)] *)
Definition isClauseCombinatorToken (t : Token) : bool :=
  match class t with DelimToken value => has [">"; "+"; "~"] value | _ => false end.

(** The test of [tokens.find] at lines 44-60. *)
Definition isUnsupportedToken (t : Token) : bool :=
  match class t with
  | AtKeywordToken | BadStringToken | BadURLToken | ColumnToken | CDOToken
  | CDCToken | SemicolonToken | OpenCurlyToken | CloseCurlyToken | URLToken
  | PercentageToken => true
  | _ => false
  end.

(** ** The parser: the closures of [parseCSS] over [tokens] (lines 64-206) *)

Section Parser.

Variable tokens : list Token.

(** [tokens[p]]: [None] is JavaScript's [undefined], which is an instance
    of no class. *)
Definition tokenAt (p : nat) : option Token := nth_error tokens p.

Definition testAt (test : Token -> bool) (p : nat) : bool :=
  match tokenAt p with Some t => test t | None => false end.

(** [unexpected()] at cursor [pos] (lines 66-68). *)
Definition unexpected (pos : nat) : Exception :=
  match tokenAt pos with Some t => UnexpectedToken t | None => TypeError end.

Definition isIdent (p : nat) : bool := testAt isIdentToken p.
Definition isString (p : nat) : bool := testAt isStringToken p.
Definition isNumber (p : nat) : bool := testAt isNumberToken p.
Definition isComma (p : nat) : bool := testAt isCommaToken p.
Definition isCloseParen (p : nat) : bool := testAt isCloseParenToken p.
Definition isStar (p : nat) : bool := testAt (isDelimToken "*") p.
Definition isEOF (p : nat) : bool := testAt isEOFToken p.
Definition isClauseCombinator (p : nat) : bool := testAt isClauseCombinatorToken p.

Definition isSelectorClauseEnd (p : nat) : bool :=
  isComma p || isCloseParen p || isEOF p || isClauseCombinator p
  || testAt isWhitespaceToken p.

(** [while (test(tokens[pos])) pos++], by recursion on the tokens from
    [pos] on. *)
Fixpoint advanceWhile (test : Token -> bool) (rest : list Token) (pos : nat) : nat :=
  match rest with
  | t :: rest' => if test t then advanceWhile test rest' (S pos) else pos
  | [] => pos
  end.

(** [skipWhitespace()] (lines 70-73), returning the new cursor. *)
Definition skipWhitespace (pos : nat) : nat :=
  advanceWhile isWhitespaceToken (skipn pos tokens) pos.

(** [while (!stop(tokens[pos])) s += tokens[pos++].toSource()], by
    recursion on the tokens from [pos] on; past the end of the array
    [tokens[pos]] is [undefined], no [stop] test holds and [toSource()]
    raises. *)
Fixpoint appendSourcesUntil (stop : Token -> bool) (rest : list Token)
    (s : string) (pos : nat) : Outcome string :=
  match rest with
  | t :: rest' =>
      if stop t then Ok s pos
      else appendSourcesUntil stop rest' (s ++ toSource t) (S pos)
  | [] => Throw TypeError
  end.

(** [consumeBuiltinFunctionArguments()] (lines 201-206). *)
Definition consumeBuiltinFunctionArguments (pos : nat) : Outcome string :=
  appendSourcesUntil (fun t => isCloseParenToken t || isEOFToken t)
    (skipn pos tokens) "" pos.

(** The loop of lines 186-187 on [rawCSSString]. *)
Definition consumeSquareBrackets (rawCSSString : string) (pos : nat) : Outcome string :=
  appendSourcesUntil (fun t => isCloseSquareToken t || isEOFToken t)
    (skipn pos tokens) rawCSSString pos.

(** [result.simple[result.simple.length - 1].combinator = c] (line 138). *)
Fixpoint setLastCombinator (l : list (CSSSimpleSelector * string)) (c : string)
  : list (CSSSimpleSelector * string) :=
  match l with
  | [] => []
  | [(s, _)] => [(s, c)]
  | x :: l' => x :: setLastCombinator l' c
  end.

(** The value of the combinator token at [pos], when there is one. *)
Definition clauseCombinatorAt (pos : nat) : option string :=
  match tokenAt pos with
  | Some t =>
      match class t with
      | DelimToken value => if has [">"; "+"; "~"] value then Some value else None
      | _ => None
      end
  | None => None
  end.

(** [{ css: rawCSSString || undefined, functions }] (line 198). *)
Definition simpleSelectorOf (rawCSSString : string) (functions : list CSSFunction)
  : CSSSimpleSelector :=
  mkSimple (if String.eqb rawCSSString "" then None else Some rawCSSString) functions.

(** The four mutually recursive grammar rules, with the loops of three of
    them as functions of their own.  [fuel] bounds the depth of calls; a
    loop iteration counts as a call. *)
Fixpoint consumeFunctionArguments (fuel : nat) (pos : nat)
  : Outcome (list CSSFunctionArgument) :=
  match fuel with
  | O => OutOfFuel
  | S fuel =>
      let* (arg, pos) := consumeArgument fuel pos in
      consumeFunctionArgumentsLoop fuel [arg] pos
  end

with consumeFunctionArgumentsLoop (fuel : nat) (result : list CSSFunctionArgument)
    (pos : nat) : Outcome (list CSSFunctionArgument) :=
  match fuel with
  | O => OutOfFuel
  | S fuel =>
      let pos := skipWhitespace pos in
      if negb (isComma pos) then Ok result pos
      else
        let pos := S pos in
        let* (arg, pos) := consumeArgument fuel pos in
        consumeFunctionArgumentsLoop fuel (result ++ [arg]) pos
  end

with consumeArgument (fuel : nat) (pos : nat) : Outcome CSSFunctionArgument :=
  match fuel with
  | O => OutOfFuel
  | S fuel =>
      let pos := skipWhitespace pos in
      match option_map class (tokenAt pos) with
      | Some (NumberToken value) => Ok (ArgNumber value) (S pos)
      | Some (StringToken value) => Ok (ArgString value) (S pos)
      | _ =>
          let* (c, pos) := consumeComplexSelector fuel pos in
          Ok (ArgSelector c) pos
      end
  end

with consumeComplexSelector (fuel : nat) (pos : nat) : Outcome CSSComplexSelector :=
  match fuel with
  | O => OutOfFuel
  | S fuel =>
      let pos := skipWhitespace pos in
      let* (selector, pos) := consumeSimpleSelector fuel pos in
      consumeComplexSelectorLoop fuel [(selector, "")] pos
  end

with consumeComplexSelectorLoop (fuel : nat)
    (result : list (CSSSimpleSelector * string)) (pos : nat)
  : Outcome CSSComplexSelector :=
  match fuel with
  | O => OutOfFuel
  | S fuel =>
      let pos := skipWhitespace pos in
      match clauseCombinatorAt pos with
      | Some value =>
          let result := setLastCombinator result value in
          let pos := skipWhitespace (S pos) in
          let* (selector, pos) := consumeSimpleSelector fuel pos in
          consumeComplexSelectorLoop fuel (result ++ [(selector, "")]) pos
      | None =>
          if isSelectorClauseEnd pos then Ok (mkComplex result) pos
          else
            let* (selector, pos) := consumeSimpleSelector fuel pos in
            consumeComplexSelectorLoop fuel (result ++ [(selector, "")]) pos
      end
  end

with consumeSimpleSelector (fuel : nat) (pos : nat) : Outcome CSSSimpleSelector :=
  match fuel with
  | O => OutOfFuel
  | S fuel => consumeSimpleSelectorLoop fuel "" [] pos
  end

with consumeSimpleSelectorLoop (fuel : nat) (rawCSSString : string)
    (functions : list CSSFunction) (pos : nat) : Outcome CSSSimpleSelector :=
  match fuel with
  | O => OutOfFuel
  | S fuel =>
      if isSelectorClauseEnd pos then
        if String.eqb rawCSSString "" && Nat.eqb (length functions) 0
        then Throw (unexpected pos)
        else Ok (simpleSelectorOf rawCSSString functions) pos
      else
        match tokenAt pos with
        | None => Throw (unexpected pos)
        | Some t =>
            if isIdentToken t || isDelimToken "*" t then
              consumeSimpleSelectorLoop fuel (rawCSSString ++ toSource t) functions (S pos)
            else if isHashToken t then
              consumeSimpleSelectorLoop fuel (rawCSSString ++ toSource t) functions (S pos)
            else if isDelimToken "." t then
              let pos := S pos in
              match tokenAt pos with
              | Some t' =>
                  if isIdentToken t' then
                    consumeSimpleSelectorLoop fuel
                      (rawCSSString ++ "." ++ toSource t') functions (S pos)
                  else Throw (unexpected pos)
              | None => Throw (unexpected pos)
              end
            else if isColonToken t then
              let pos := S pos in
              match tokenAt pos with
              | Some (mkToken (IdentToken value) source) =>
                  if has builtinCSSFilters value then
                    consumeSimpleSelectorLoop fuel
                      (rawCSSString ++ ":" ++ source) functions (S pos)
                  else
                    consumeSimpleSelectorLoop fuel rawCSSString
                      (functions ++ [mkFunction value []]) (S pos)
              | Some (mkToken (FunctionToken name) _) =>
                  let pos := S pos in
                  if has builtinCSSFunctions name then
                    let* (s, pos) := consumeBuiltinFunctionArguments pos in
                    let rawCSSString := (rawCSSString ++ ":" ++ name ++ "(" ++ s ++ ")")%string in
                    let pos := skipWhitespace pos in
                    if negb (isCloseParen pos) then Throw (unexpected pos)
                    else consumeSimpleSelectorLoop fuel rawCSSString functions (S pos)
                  else
                    let* (args, pos) := consumeFunctionArguments fuel pos in
                    let functions := (functions ++ [mkFunction name args])%list in
                    let pos := skipWhitespace pos in
                    if negb (isCloseParen pos) then Throw (unexpected pos)
                    else consumeSimpleSelectorLoop fuel rawCSSString functions (S pos)
              | _ => Throw (unexpected pos)
              end
            else if isOpenSquareToken t then
              let* (rawCSSString, pos) :=
                consumeSquareBrackets (rawCSSString ++ "[") (S pos) in
              if negb (testAt isCloseSquareToken pos) then Throw (unexpected pos)
              else consumeSimpleSelectorLoop fuel (rawCSSString ++ "]") functions (S pos)
            else Throw (unexpected pos)
        end
  end.

End Parser.

Arguments has : simpl never.
Arguments tokenAt : simpl never.
Arguments testAt : simpl never.
Arguments unexpected : simpl never.
Arguments skipWhitespace : simpl never.
Arguments isSelectorClauseEnd : simpl never.
Arguments clauseCombinatorAt : simpl never.
Arguments consumeBuiltinFunctionArguments : simpl never.
Arguments consumeSquareBrackets : simpl never.

(** ** [parseCSS] (lines 30-214) *)

(** What [parseCSS] does: return a selector list, throw, or (in this
    model) exhaust the recursion budget. *)
Inductive Result (A : Type) : Type :=
| Returned (a : A)
| Thrown (e : Exception)
| Unfinished.
Arguments Returned {A} a.
Arguments Thrown {A} e.
Arguments Unfinished {A}.

(** Lines 34-35: an end-of-input token is pushed unless the last token is
    one. *)
Definition withEOF (tokens : list Token) : list Token :=
  match last (map Some tokens) None with
  | Some t => if isEOFToken t then tokens else tokens ++ [newEOFToken]
  | None => tokens ++ [newEOFToken]
  end.

(** [typeof arg !== 'object' || !('simple' in arg)] *)
Definition notComplexSelector (arg : CSSFunctionArgument) : bool :=
  match arg with ArgSelector _ => false | _ => true end.

(** [result as CSSComplexSelector[]] *)
Definition asSelectorList (result : list CSSFunctionArgument) : CSSSelectorList :=
  flat_map (fun arg => match arg with ArgSelector c => [c] | _ => [] end) result.

(** A recursion budget that every token sequence stays within (see
    [consumeFunctionArguments_terminates]). *)
Definition fuelFor (tokens : list Token) : nat := 5 * length tokens + 5.

(** Lines 44-213 on the tokens that [css.tokenize(selector)] returned. *)
Definition parseCSSTokens (tokenized : list Token) : Result CSSSelectorList :=
  let tokens := withEOF tokenized in
  match find isUnsupportedToken tokens with
  | Some unsupportedToken => Thrown (UnsupportedToken unsupportedToken)
  | None =>
      match consumeFunctionArguments tokens (fuelFor tokens) 0 with
      | Ok result pos =>
          if negb (isEOF tokens pos) then Thrown ParsingError
          else if existsb notComplexSelector result then Thrown ParsingError
          else Returned (asSelectorList result)
      | Throw e => Thrown e
      | OutOfFuel => Unfinished
      end
  end.

(** ** Token sequences of the examples

    The tokens that the tokenizer returns for the selector texts quoted
    in the statements below are written with these constructors: each
    gives a token of one class with the source text it was read from. *)

Definition ident (s : string) : Token := mkToken (IdentToken s) s.
Definition func (s : string) : Token := mkToken (FunctionToken s) (s ++ "(").
Definition str (s : string) : Token := mkToken (StringToken s) (quoted s).
Definition num (v : float) (repr : string) : Token := mkToken (NumberToken v) repr.
Definition delim (c : string) : Token := mkToken (DelimToken c) c.
Definition dimension (repr : string) : Token := mkToken OtherToken repr.
Definition ws : Token := mkToken WhitespaceToken " ".
Definition colon : Token := mkToken ColonToken ":".
Definition comma : Token := mkToken CommaToken ",".
Definition closeParen : Token := mkToken CloseParenToken ")".
Definition openSquare : Token := mkToken OpenSquareToken "[".
Definition closeSquare : Token := mkToken CloseSquareToken "]".

(** ** [serializeSelector] (lines 216-230) *)

(** [String(arg)] of a number is JavaScript's own; it is a parameter
    here. *)
Fixpoint serializeArgument (numberToString : float -> string)
    (arg : CSSFunctionArgument) : string :=
  match arg with
  | ArgString s => quoted s
  | ArgNumber n => numberToString n
  | ArgSelector (mkComplex simple) =>
      String.concat " "
        (map (fun p : CSSSimpleSelector * string =>
                let '(selector, combinator) := p in
                match selector with
                | mkSimple css functions =>
                    let s := match css with Some c => c | None => "" end in
                    let s :=
                      (s ++ String.concat ""
                              (map (fun func =>
                                      match func with
                                      | mkFunction name args =>
                                          ":" ++ name ++ "("
                                            ++ String.concat ", "
                                                 (map (serializeArgument numberToString) args)
                                            ++ ")"
                                      end) functions))%string in
                    if String.eqb combinator "" then s else (s ++ " " ++ combinator)%string
                end) simple)
  end.

Definition serializeSelector (numberToString : float -> string)
    (args : list CSSFunctionArgument) : string :=
  String.concat ", " (map (serializeArgument numberToString) args).

(** ** [parseCSS] on a selector text (lines 30-43)

    [tokenize] is [css.tokenize]: it returns the tokens of a text or
    throws with a message. *)
Definition parseCSS (tokenize : string -> string + list Token) (selector : string)
  : Result CSSSelectorList :=
  match tokenize selector with
  | inl msg => Thrown (LexicalError msg)
  | inr tokenized => parseCSSTokens tokenized
  end.

(** ** The round trip of function arguments *)

(** The re-parse of a text as a function-argument list:
    [consumeFunctionArguments] run from the first token as [parseCSS] runs
    it, up to the end of input. *)
Definition parseArgumentTokens (tokenized : list Token)
  : Result (list CSSFunctionArgument) :=
  let tokens := withEOF tokenized in
  match find isUnsupportedToken tokens with
  | Some unsupportedToken => Thrown (UnsupportedToken unsupportedToken)
  | None =>
      match consumeFunctionArguments tokens (fuelFor tokens) 0 with
      | Ok result pos =>
          if negb (isEOF tokens pos) then Thrown ParsingError else Returned result
      | Throw e => Thrown e
      | OutOfFuel => Unfinished
      end
  end.

Definition parseArguments (tokenize : string -> string + list Token) (text : string)
  : Result (list CSSFunctionArgument) :=
  match tokenize text with
  | inl msg => Thrown (LexicalError msg)
  | inr tokenized => parseArgumentTokens tokenized
  end.

(** The functions of a tree, those inside arguments included. *)
Fixpoint functionsOfArgument (arg : CSSFunctionArgument) : list CSSFunction :=
  match arg with
  | ArgSelector (mkComplex simple) =>
      flat_map (fun p : CSSSimpleSelector * string =>
                  let '(selector, _) := p in
                  match selector with
                  | mkSimple _ functions =>
                      flat_map (fun func =>
                                  match func with
                                  | mkFunction name args =>
                                      func :: flat_map functionsOfArgument args
                                  end) functions
                  end) simple
  | _ => []
  end.

Definition functionsOfList (selectors : CSSSelectorList) : list CSSFunction :=
  flat_map (fun c => functionsOfArgument (ArgSelector c)) selectors.

(** The round trip as claimed: the arguments of every function of every
    parsed selector, when it has any, are what their serialized text
    parses to. *)
Definition RoundTrip (tokenize : string -> string + list Token)
    (numberToString : float -> string) : Prop :=
  forall selector selectors func,
    parseCSS tokenize selector = Returned selectors ->
    In func (functionsOfList selectors) ->
    args func <> [] ->
    parseArguments tokenize (serializeSelector numberToString (args func))
    = Returned (args func).

(** A string with a double quote, a comma and a space inside, as a
    single-quoted CSS string can hold, and the token classes of two
    selectors, end of input included: a function applied to that one
    string, and the same function applied to two strings. *)
Definition quoteInside : string := "a" ++ dquote ++ ", " ++ dquote ++ "b".

Definition classesQuoteInside : list TokenClass :=
  [ColonToken; FunctionToken "text"; StringToken quoteInside; CloseParenToken;
   EOFToken].

Definition classesTwoStrings : list TokenClass :=
  [ColonToken; FunctionToken "text"; StringToken "a"; CommaToken; WhitespaceToken;
   StringToken "b"; CloseParenToken; EOFToken].

(** The tokenizer reads some text as tokens of the given classes. *)
Definition lexes (tokenize : string -> string + list Token)
    (classes : list TokenClass) : Prop :=
  exists selector tokenized,
    tokenize selector = inr tokenized /\ map class (withEOF tokenized) = classes.

(** [div > span] *)
Definition tokensChild : list Token :=
  [ident "div"; ws; delim ">"; ws; ident "span"].

(** [:nth-child(2n+1)]: the tokenizer reads [2n] as a dimension and [+1]
    as a number. *)
Definition tokensNthChild : list Token :=
  [colon; func "nth-child"; dimension "2n"; num 1%float "+1"; closeParen].

(** [:has-text(...)] with the string foo between double quotes. *)
Definition tokensHasText : list Token :=
  [colon; func "has-text"; str "foo"; closeParen].

(** The unterminated [[attr], [:fn(] and [div >]. *)
Definition tokensOpenBracket : list Token := [openSquare; ident "attr"].
Definition tokensOpenFunction : list Token := [colon; func "fn"].
Definition tokensTrailingCombinator : list Token := [ident "div"; ws; delim ">"].

(** ** Properties of cursors and outcomes

    The definitions the statements below are written with. *)

(** The last token is an end-of-input token: what lines 34-35 establish. *)
Definition endsWithEOF (tokens : list Token) : Prop :=
  isEOF tokens (pred (length tokens)) = true.

(** The budget that is enough with [r] tokens left, for the rule of rank [k]. *)
Definition budget (r k : nat) : nat := 5 * r + k.
Arguments budget : simpl never.

(** What a rule started at [pos] with budget [fuel] may end in: a cursor
    further on and still inside the array, an exception that is not the
    [TypeError] of reading past the end, or an exhausted budget, which
    takes a budget below [need]. *)
Definition advances {A : Type} (tokens : list Token) (strict : bool) (need fuel pos : nat)
    (o : Outcome A) : Prop :=
  match o with
  | Ok _ pos' => (if strict then pos < pos' else pos <= pos') /\ pos' < length tokens
  | Throw e => e <> TypeError
  | OutOfFuel => fuel < need
  end.

Definition isEmptySimple (rawCSSString : string) (functions : list CSSFunction) : bool :=
  String.eqb rawCSSString "" && Nat.eqb (length functions) 0.

Definition rulesAdvance (tokens : list Token) (fuel : nat) : Prop :=
  (forall pos, pos < length tokens ->
     advances tokens true (budget (length tokens - pos) 5) fuel pos
       (consumeFunctionArguments tokens fuel pos)) /\
  (forall result pos, pos < length tokens ->
     advances tokens false (budget (length tokens - pos) 0) fuel pos
       (consumeFunctionArgumentsLoop tokens fuel result pos)) /\
  (forall pos, pos < length tokens ->
     advances tokens true (budget (length tokens - pos) 4) fuel pos
       (consumeArgument tokens fuel pos)) /\
  (forall pos, pos < length tokens ->
     advances tokens true (budget (length tokens - pos) 3) fuel pos
       (consumeComplexSelector tokens fuel pos)) /\
  (forall result pos, pos < length tokens ->
     advances tokens false (budget (length tokens - pos) 3) fuel pos
       (consumeComplexSelectorLoop tokens fuel result pos)) /\
  (forall pos, pos < length tokens ->
     advances tokens true (budget (length tokens - pos) 2) fuel pos
       (consumeSimpleSelector tokens fuel pos)) /\
  (forall rawCSSString functions pos, pos < length tokens ->
     advances tokens (isEmptySimple rawCSSString functions)
       (budget (length tokens - pos) 1) fuel pos
       (consumeSimpleSelectorLoop tokens fuel rawCSSString functions pos)).

(** The combinator slot of the last element of a simple-selector
    sequence; [None] for an empty sequence. *)
Fixpoint lastCombinator (l : list (CSSSimpleSelector * string)) : option string :=
  match l with
  | [] => None
  | [(_, c)] => Some c
  | _ :: l' => lastCombinator l'
  end.

(** The invariant of complex selectors, through the whole tree below an
    argument: each complex selector has a last element, whose combinator
    is the empty string. *)
Fixpoint wellFormedArgument (arg : CSSFunctionArgument) : bool :=
  match arg with
  | ArgSelector (mkComplex simple) =>
      match lastCombinator simple with
      | Some c => String.eqb c ""
      | None => false
      end
      && forallb (fun p : CSSSimpleSelector * string =>
                    let '(s, _) := p in
                    match s with
                    | mkSimple _ fns =>
                        forallb (fun f => match f with
                                          | mkFunction _ args =>
                                              forallb wellFormedArgument args
                                          end) fns
                    end) simple
  | _ => true
  end.

Definition wellFormedFunction (f : CSSFunction) : bool :=
  match f with mkFunction _ args => forallb wellFormedArgument args end.
Definition wellFormedSimple (s : CSSSimpleSelector) : bool :=
  match s with mkSimple _ fns => forallb wellFormedFunction fns end.
Definition wellFormedComplex (c : CSSComplexSelector) : bool :=
  wellFormedArgument (ArgSelector c).

(** What each rule keeps of it; the loops start from a [result] that has
    it. *)
Definition rulesWellFormed (tokens : list Token) (fuel : nat) : Prop :=
  (forall pos args pos',
     consumeFunctionArguments tokens fuel pos = Ok args pos' ->
     forallb wellFormedArgument args = true) /\
  (forall result pos args pos',
     forallb wellFormedArgument result = true ->
     consumeFunctionArgumentsLoop tokens fuel result pos = Ok args pos' ->
     forallb wellFormedArgument args = true) /\
  (forall pos arg pos',
     consumeArgument tokens fuel pos = Ok arg pos' ->
     wellFormedArgument arg = true) /\
  (forall pos c pos',
     consumeComplexSelector tokens fuel pos = Ok c pos' ->
     wellFormedComplex c = true) /\
  (forall result pos c pos',
     wellFormedComplex (mkComplex result) = true ->
     consumeComplexSelectorLoop tokens fuel result pos = Ok c pos' ->
     wellFormedComplex c = true) /\
  (forall pos s pos',
     consumeSimpleSelector tokens fuel pos = Ok s pos' ->
     wellFormedSimple s = true) /\
  (forall rawCSSString fns pos s pos',
     forallb wellFormedFunction fns = true ->
     consumeSimpleSelectorLoop tokens fuel rawCSSString fns pos = Ok s pos' ->
     wellFormedSimple s = true).

(** [:has(a > b, 2) c], a custom function with a nested complex selector. *)
Definition tokensNested : list Token :=
  [colon; func "has"; ident "a"; ws; delim ">"; ws; ident "b"; comma; ws;
   num 2%float "2"; closeParen; ws; ident "c"].

(** The eleven token classes of lines 45-59. *)
Definition unsupportedClasses : list TokenClass :=
  [AtKeywordToken; BadStringToken; BadURLToken; ColumnToken; CDOToken; CDCToken;
   SemicolonToken; OpenCurlyToken; CloseCurlyToken; URLToken; PercentageToken].

(** [:nth-child(2 of :not(a))], a built-in pseudo-function with a
    function inside its parentheses. *)
Definition tokensNestedBuiltin : list Token :=
  [colon; func "nth-child"; num 2%float "2"; ws; ident "of"; ws;
   colon; func "not"; ident "a"; closeParen; closeParen].

(** A token that opens a parenthesis: a function token or an open
    parenthesis. *)
Definition opensParenToken (t : Token) : bool :=
  match class t with FunctionToken _ | OpenParenToken => true | _ => false end.

(** After the words of the specification: the argument text up to, and
    not including, the close-parenthesis that matches the one opened by
    the function token; [depth] counts the parentheses opened since. *)
Fixpoint argumentsUpToMatchingParen (rest : list Token) (depth : nat)
    (s : string) (pos : nat) : option (string * nat) :=
  match rest with
  | [] => None
  | t :: rest' =>
      if isCloseParenToken t then
        match depth with
        | O => Some (s, pos)
        | S depth' =>
            argumentsUpToMatchingParen rest' depth' (s ++ toSource t) (S pos)
        end
      else if opensParenToken t then
        argumentsUpToMatchingParen rest' (S depth) (s ++ toSource t) (S pos)
      else argumentsUpToMatchingParen rest' depth (s ++ toSource t) (S pos)
  end.

(** The claim on the matching close-parenthesis, at a cursor just after a
    built-in function token: the loop of the code returns the text up to
    the matching close-parenthesis and stops there. *)
Definition copiesUpToMatchingParen (tokens : list Token) (pos : nat) : Prop :=
  exists s pos',
    argumentsUpToMatchingParen (skipn pos tokens) 0 "" pos = Some (s, pos') /\
    consumeBuiltinFunctionArguments tokens pos = Ok s pos'.

(** [:nth-child(a(b)], with a parenthesis left open. *)
Definition tokensUnbalancedBuiltin : list Token :=
  [colon; func "nth-child"; func "a"; ident "b"; closeParen].

(** ** Properties of every node of a tree

    [everyNode okComplex okSimple okFunction arg]: through the whole tree
    below [arg], every sequence of a complex selector passes [okComplex],
    every simple selector [okSimple] and every function [okFunction]. *)
Fixpoint everyNode (okComplex : list (CSSSimpleSelector * string) -> bool)
    (okSimple : CSSSimpleSelector -> bool) (okFunction : CSSFunction -> bool)
    (arg : CSSFunctionArgument) : bool :=
  match arg with
  | ArgSelector (mkComplex simple) =>
      okComplex simple
      && forallb (fun p : CSSSimpleSelector * string =>
                    let '(s, _) := p in
                    okSimple s
                    && match s with
                       | mkSimple _ fns =>
                           forallb (fun f =>
                                      okFunction f
                                      && match f with
                                         | mkFunction _ args =>
                                             forallb (everyNode okComplex okSimple
                                                        okFunction) args
                                         end) fns
                       end) simple
  | _ => true
  end.

Definition everyFunction (okComplex : list (CSSSimpleSelector * string) -> bool)
    (okSimple : CSSSimpleSelector -> bool) (okFunction : CSSFunction -> bool)
    (f : CSSFunction) : bool :=
  okFunction f
  && forallb (everyNode okComplex okSimple okFunction) (args f).

Definition everySimple (okComplex : list (CSSSimpleSelector * string) -> bool)
    (okSimple : CSSSimpleSelector -> bool) (okFunction : CSSFunction -> bool)
    (s : CSSSimpleSelector) : bool :=
  okSimple s
  && forallb (everyFunction okComplex okSimple okFunction) (functions s).

Definition everyComplex (okComplex : list (CSSSimpleSelector * string) -> bool)
    (okSimple : CSSSimpleSelector -> bool) (okFunction : CSSFunction -> bool)
    (c : CSSComplexSelector) : bool :=
  everyNode okComplex okSimple okFunction (ArgSelector c).

(** What each rule keeps of it; the loops start from what has it. *)
Definition rulesEvery (okComplex : list (CSSSimpleSelector * string) -> bool)
    (okSimple : CSSSimpleSelector -> bool) (okFunction : CSSFunction -> bool)
    (tokens : list Token) (fuel : nat) : Prop :=
  (forall pos args pos',
     consumeFunctionArguments tokens fuel pos = Ok args pos' ->
     forallb (everyNode okComplex okSimple okFunction) args = true) /\
  (forall result pos args pos',
     forallb (everyNode okComplex okSimple okFunction) result = true ->
     consumeFunctionArgumentsLoop tokens fuel result pos = Ok args pos' ->
     forallb (everyNode okComplex okSimple okFunction) args = true) /\
  (forall pos arg pos',
     consumeArgument tokens fuel pos = Ok arg pos' ->
     everyNode okComplex okSimple okFunction arg = true) /\
  (forall pos c pos',
     consumeComplexSelector tokens fuel pos = Ok c pos' ->
     everyComplex okComplex okSimple okFunction c = true) /\
  (forall result pos c pos',
     okComplex result = true ->
     forallb (fun p => everySimple okComplex okSimple okFunction (fst p)) result = true ->
     consumeComplexSelectorLoop tokens fuel result pos = Ok c pos' ->
     everyComplex okComplex okSimple okFunction c = true) /\
  (forall pos s pos',
     consumeSimpleSelector tokens fuel pos = Ok s pos' ->
     everySimple okComplex okSimple okFunction s = true) /\
  (forall rawCSSString fns pos s pos',
     forallb (everyFunction okComplex okSimple okFunction) fns = true ->
     consumeSimpleSelectorLoop tokens fuel rawCSSString fns pos = Ok s pos' ->
     everySimple okComplex okSimple okFunction s = true).

(** The values of the type [ClauseCombinator] (line 19). *)
Definition clauseCombinators : list string := [""; ">"; "+"; "~"].

(** Every combinator of a sequence is a [ClauseCombinator]. *)
Definition combinatorsTyped (l : list (CSSSimpleSelector * string)) : bool :=
  forallb (fun p => has clauseCombinators (snd p)) l.

(** A simple selector has a [css] that is not the empty string, and a
    [css] or a function. *)
Definition simpleNotEmpty (s : CSSSimpleSelector) : bool :=
  match s with
  | mkSimple None fns => negb (Nat.eqb (length fns) 0)
  | mkSimple (Some raw) _ => negb (String.eqb raw "")
  end.

(** A function without arguments has a name outside the pseudo-class
    table, one with arguments a name outside the pseudo-function table. *)
Definition functionNotBuiltin (f : CSSFunction) : bool :=
  match f with
  | mkFunction name [] => negb (has builtinCSSFilters name)
  | mkFunction name _ => negb (has builtinCSSFunctions name)
  end.

Definition anyComplex (l : list (CSSSimpleSelector * string)) : bool := true.
Definition anySimple (s : CSSSimpleSelector) : bool := true.
Definition anyFunction (f : CSSFunction) : bool := true.

(** [:hover(a > :dir, .b)]: the built-in names are custom here, [hover]
    with parentheses and [dir] without. *)
Definition tokensSwapped : list Token :=
  [colon; func "hover"; ident "a"; ws; delim ">"; ws; colon; ident "dir"; comma;
   ws; delim "."; ident "b"; closeParen].

(** What the grammar rules throw: the error of [unexpected()] at some
    cursor. *)
Definition thrownByUnexpected (tokens : list Token) (e : Exception) : Prop :=
  exists pos, e = unexpected tokens pos.

Definition throwsUnexpected {A : Type} (tokens : list Token) (o : Outcome A) : Prop :=
  forall e, o = Throw e -> thrownByUnexpected tokens e.

Definition rulesThrow (tokens : list Token) (fuel : nat) : Prop :=
  (forall pos, throwsUnexpected tokens (consumeFunctionArguments tokens fuel pos)) /\
  (forall result pos,
     throwsUnexpected tokens (consumeFunctionArgumentsLoop tokens fuel result pos)) /\
  (forall pos, throwsUnexpected tokens (consumeArgument tokens fuel pos)) /\
  (forall pos, throwsUnexpected tokens (consumeComplexSelector tokens fuel pos)) /\
  (forall result pos,
     throwsUnexpected tokens (consumeComplexSelectorLoop tokens fuel result pos)) /\
  (forall pos, throwsUnexpected tokens (consumeSimpleSelector tokens fuel pos)) /\
  (forall raw fns pos,
     throwsUnexpected tokens (consumeSimpleSelectorLoop tokens fuel raw fns pos)).

(** ** The constructs that [consumeSimpleSelector] copies into the raw
    text: an identifier, star or hash token; a dot and an identifier; a
    colon and an identifier; square brackets around tokens; a colon, a
    function token and tokens up to a close parenthesis. *)
Inductive Construct : Type :=
| Plain (t : Token)
| Class (dot identifier : Token)
| PseudoClass (c identifier : Token)
| Attribute (open : Token) (between : list Token) (close : Token)
| PseudoFunction (c f : Token) (between : list Token) (close : Token).

Definition constructTokens (u : Construct) : list Token :=
  match u with
  | Plain t => [t]
  | Class dot identifier => [dot; identifier]
  | PseudoClass c identifier => [c; identifier]
  | Attribute open between close => open :: between ++ [close]
  | PseudoFunction c f between close => c :: f :: between ++ [close]
  end.

(** [t.value] of an identifier or function token. *)
Definition nameOf (t : Token) : string :=
  match class t with
  | IdentToken value | FunctionToken value => value
  | _ => ""
  end.

(** The tokens are of the classes of the construct, an identifier after
    a colon is in the pseudo-class table, a function token in the
    pseudo-function table, and the tokens in between hold no closing token
    and no end of input. *)
Definition constructOk (u : Construct) : bool :=
  match u with
  | Plain t => isIdentToken t || isDelimToken "*" t || isHashToken t
  | Class dot identifier => isDelimToken "." dot && isIdentToken identifier
  | PseudoClass c identifier =>
      isColonToken c && isIdentToken identifier
      && has builtinCSSFilters (nameOf identifier)
  | Attribute open between close =>
      isOpenSquareToken open
      && forallb (fun t => negb (isCloseSquareToken t || isEOFToken t)) between
      && isCloseSquareToken close
  | PseudoFunction c f between close =>
      isColonToken c
      && match class f with FunctionToken _ => true | _ => false end
      && has builtinCSSFunctions (nameOf f)
      && forallb (fun t => negb (isCloseParenToken t || isEOFToken t)) between
      && isCloseParenToken close
  end.

(** What the construct adds to [rawCSSString]. *)
Definition constructText (u : Construct) : string :=
  match u with
  | Plain t => toSource t
  | Class _ identifier => "." ++ toSource identifier
  | PseudoClass _ identifier => ":" ++ toSource identifier
  | Attribute _ between _ => "[" ++ String.concat "" (map toSource between) ++ "]"
  | PseudoFunction _ f between _ =>
      ":" ++ nameOf f ++ "(" ++ String.concat "" (map toSource between) ++ ")"
  end.

(** [a.b#c[d=e]:hover:lang(en)] *)
Definition constructsCompound : list Construct :=
  [Plain (ident "a"); Class (delim ".") (ident "b");
   Plain (mkToken HashToken "#c");
   Attribute openSquare [ident "d"; delim "="; ident "e"] closeSquare;
   PseudoClass colon (ident "hover");
   PseudoFunction colon (func "lang") [ident "en"] closeParen].

(** ** Sources of selectors

    The selectors that the grammar rules accept, as token sequences with
    their structure.  A simple selector is a list of pieces: a copied
    construct, a custom pseudo-class, or a custom function call with its
    arguments, each of which is a number, a string or a complex selector
    of simple selectors of the same kind.  Whitespace or a combinator
    stands between the simple selectors of a complex selector, commas
    between arguments, and an argument stands between whitespace. *)

(** The test of [isSelectorClauseEnd] on a token. *)
Definition isSelectorClauseEndToken (t : Token) : bool :=
  isCommaToken t || isCloseParenToken t || isEOFToken t
  || isClauseCombinatorToken t || isWhitespaceToken t.

(** The tokens that end an argument. *)
Definition isTerminatorToken (t : Token) : bool :=
  isCommaToken t || isCloseParenToken t || isEOFToken t.

(** What stands between two simple selectors: whitespace, or a combinator
    with whitespace around. *)
Inductive Separator : Type :=
| Descendant (space : Token) (spaces : list Token)
| Combined (before : list Token) (combinator : Token) (after : list Token).

Definition separatorTokens (sep : Separator) : list Token :=
  match sep with
  | Descendant space spaces => space :: spaces
  | Combined before combinator after => before ++ combinator :: after
  end.

Definition separatorOk (sep : Separator) : bool :=
  match sep with
  | Descendant space spaces =>
      isWhitespaceToken space && forallb isWhitespaceToken spaces
  | Combined before combinator after =>
      forallb isWhitespaceToken before && isClauseCombinatorToken combinator
      && forallb isWhitespaceToken after
  end.

(** The combinator that the separator leaves on the selector before it. *)
Definition separatorValue (sep : Separator) : string :=
  match sep with
  | Descendant _ _ => ""
  | Combined _ combinator _ =>
      match class combinator with DelimToken value => value | _ => "" end
  end.

Inductive ArgumentSource (Simple : Type) : Type :=
| NumberSource (value : float) (source : string)
| StringSource (value : string) (source : string)
| SelectorSource (head : Simple) (tail : list (Separator * Simple)).

Arguments NumberSource {Simple} value source.
Arguments StringSource {Simple} value source.
Arguments SelectorSource {Simple} head tail.

Record Padded (A : Type) : Type := mkPadded {
  spaceBefore : list Token;
  content : A;
  spaceAfter : list Token
}.

Arguments mkPadded {A} spaceBefore content spaceAfter.
Arguments spaceBefore {A} p.
Arguments content {A} p.
Arguments spaceAfter {A} p.

#[warnings="-register-all"] Inductive Piece : Type :=
| Copied (u : Construct)
| Bare (c identifier : Token)
| Call (c f : Token) (argument : Padded (ArgumentSource (list Piece)))
    (others : list (Token * Padded (ArgumentSource (list Piece)))) (close : Token).

Section Arguments.

Context {Simple : Type}.
Variable tokensOf : Simple -> list Token.
Variable valueOf : Simple -> CSSSimpleSelector.
Variable okOf : Simple -> bool.

Definition tailTokens (tail : list (Separator * Simple)) : list Token :=
  flat_map (fun p => separatorTokens (fst p) ++ tokensOf (snd p)) tail.

Definition argumentTokens (a : ArgumentSource Simple) : list Token :=
  match a with
  | NumberSource value source => [mkToken (NumberToken value) source]
  | StringSource value source => [mkToken (StringToken value) source]
  | SelectorSource head tail => tokensOf head ++ tailTokens tail
  end.

Definition paddedTokens (a : Padded (ArgumentSource Simple)) : list Token :=
  spaceBefore a ++ argumentTokens (content a) ++ spaceAfter a.

Definition othersTokens (others : list (Token * Padded (ArgumentSource Simple)))
  : list Token :=
  flat_map (fun p => fst p :: paddedTokens (snd p)) others.

Definition argumentsTokens (argument : Padded (ArgumentSource Simple))
    (others : list (Token * Padded (ArgumentSource Simple))) : list Token :=
  paddedTokens argument ++ othersTokens others.

(** The simple selectors of a complex selector, each with the combinator
    that follows it. *)
Fixpoint simplesOf (current : CSSSimpleSelector) (tail : list (Separator * Simple))
  : list (CSSSimpleSelector * string) :=
  match tail with
  | [] => [(current, "")]
  | (sep, s) :: rest => (current, separatorValue sep) :: simplesOf (valueOf s) rest
  end.

Definition argumentValue (a : ArgumentSource Simple) : CSSFunctionArgument :=
  match a with
  | NumberSource value _ => ArgNumber value
  | StringSource value _ => ArgString value
  | SelectorSource head tail => ArgSelector (mkComplex (simplesOf (valueOf head) tail))
  end.

Definition othersValue (others : list (Token * Padded (ArgumentSource Simple)))
  : list CSSFunctionArgument :=
  map (fun p => argumentValue (content (snd p))) others.

Definition argumentsValue (argument : Padded (ArgumentSource Simple))
    (others : list (Token * Padded (ArgumentSource Simple)))
  : list CSSFunctionArgument :=
  argumentValue (content argument) :: othersValue others.

Definition tailOk (tail : list (Separator * Simple)) : bool :=
  forallb (fun p => separatorOk (fst p) && okOf (snd p)) tail.

Definition argumentOk (a : ArgumentSource Simple) : bool :=
  match a with
  | SelectorSource head tail => okOf head && tailOk tail
  | _ => true
  end.

Definition paddedOk (a : Padded (ArgumentSource Simple)) : bool :=
  forallb isWhitespaceToken (spaceBefore a) && argumentOk (content a)
  && forallb isWhitespaceToken (spaceAfter a).

Definition othersOk (others : list (Token * Padded (ArgumentSource Simple))) : bool :=
  forallb (fun p => isCommaToken (fst p) && paddedOk (snd p)) others.

Definition argumentsOk (argument : Padded (ArgumentSource Simple))
    (others : list (Token * Padded (ArgumentSource Simple))) : bool :=
  paddedOk argument && othersOk others.

End Arguments.

Fixpoint pieceTokens (p : Piece) : list Token :=
  match p with
  | Copied u => constructTokens u
  | Bare c identifier => [c; identifier]
  | Call c f argument others close =>
      c :: f :: argumentsTokens (flat_map pieceTokens) argument others ++ [close]
  end.

Definition simpleTokens (pieces : list Piece) : list Token :=
  flat_map pieceTokens pieces.

(** What a piece adds to [rawCSSString] and to [functions]. *)
Definition pieceText (p : Piece) : string :=
  match p with
  | Copied u => constructText u
  | _ => ""
  end.

Definition simpleText (pieces : list Piece) : string :=
  String.concat "" (map pieceText pieces).

Fixpoint pieceFunctions (p : Piece) : list CSSFunction :=
  match p with
  | Copied _ => []
  | Bare _ identifier => [mkFunction (nameOf identifier) []]
  | Call _ f argument others _ =>
      [mkFunction (nameOf f)
         (argumentsValue
            (fun pieces => simpleSelectorOf (simpleText pieces)
                             (flat_map pieceFunctions pieces))
            argument others)]
  end.

Definition simpleFunctions (pieces : list Piece) : list CSSFunction :=
  flat_map pieceFunctions pieces.

Definition simpleValue (pieces : list Piece) : CSSSimpleSelector :=
  simpleSelectorOf (simpleText pieces) (simpleFunctions pieces).

(** The text and the functions of a simple selector are not both empty
    (line 196). *)
Definition notEmpty (raw : string) (fns : list CSSFunction) : bool :=
  negb (String.eqb raw "" && Nat.eqb (length fns) 0).

Fixpoint pieceOk (p : Piece) : bool :=
  match p with
  | Copied u => constructOk u
  | Bare c identifier =>
      isColonToken c && isIdentToken identifier
      && negb (has builtinCSSFilters (nameOf identifier))
  | Call c f argument others close =>
      isColonToken c
      && match class f with FunctionToken _ => true | _ => false end
      && negb (has builtinCSSFunctions (nameOf f))
      && argumentsOk
           (fun pieces => forallb pieceOk pieces
                          && notEmpty (simpleText pieces) (simpleFunctions pieces))
           argument others
      && isCloseParenToken close
  end.

Definition simpleOk (pieces : list Piece) : bool :=
  forallb pieceOk pieces && notEmpty (simpleText pieces) (simpleFunctions pieces).

(** The token that ends an argument list: a closing parenthesis or the
    end of input. *)
Definition isCloserToken (t : Token) : bool :=
  isCloseParenToken t || isEOFToken t.

(** [div:has(span.x, 'text', 3) > :not(:visible) , a:hover] *)
Definition sourceHas : Piece :=
  Call colon (func "has")
    (mkPadded []
       (SelectorSource
          [Copied (Plain (ident "span")); Copied (Class (delim ".") (ident "x"))] [])
       [])
    [(comma, mkPadded [ws] (StringSource "text" "'text'") []);
     (comma, mkPadded [ws] (NumberSource 3 "3") [])]
    closeParen.

Definition sourceNot : Piece :=
  Call colon (func "not")
    (mkPadded [] (SelectorSource [Bare colon (ident "visible")] []) []) [] closeParen.

Definition sourceArgument : Padded (ArgumentSource (list Piece)) :=
  mkPadded []
    (SelectorSource [Copied (Plain (ident "div")); sourceHas]
       [(Combined [ws] (delim ">") [ws], [sourceNot])])
    [ws].

Definition sourceOthers : list (Token * Padded (ArgumentSource (list Piece))) :=
  [(comma,
    mkPadded [ws]
      (SelectorSource
         [Copied (Plain (ident "a")); Copied (PseudoClass colon (ident "hover"))] [])
      [])].

(** ** What the rules return on the sources

    One statement for each rule and each loop: on the tokens of a well
    formed source that a token of the right kind follows, and with fuel for
    five calls for each token, the rule returns the value of the source and
    leaves the cursor behind its tokens. *)

Definition simpleLoopParsed (fuel : nat) : Prop :=
  forall (T before : list Token) (pieces : list Piece) (t : Token)
         (rest : list Token) (raw : string) (fns : list CSSFunction),
    T = before ++ simpleTokens pieces ++ t :: rest ->
    forallb pieceOk pieces = true ->
    isSelectorClauseEndToken t = true ->
    notEmpty (raw ++ simpleText pieces) (fns ++ simpleFunctions pieces) = true ->
    5 * length (simpleTokens pieces) + 1 <= fuel ->
    consumeSimpleSelectorLoop T fuel raw fns (length before)
    = Ok (simpleSelectorOf (raw ++ simpleText pieces) (fns ++ simpleFunctions pieces))
        (length (before ++ simpleTokens pieces)).

Definition simpleParsed (fuel : nat) : Prop :=
  forall (T before : list Token) (pieces : list Piece) (t : Token)
         (rest : list Token),
    T = before ++ simpleTokens pieces ++ t :: rest ->
    simpleOk pieces = true ->
    isSelectorClauseEndToken t = true ->
    5 * length (simpleTokens pieces) + 2 <= fuel ->
    consumeSimpleSelector T fuel (length before)
    = Ok (simpleValue pieces) (length (before ++ simpleTokens pieces)).

Definition complexLoopParsed (fuel : nat) : Prop :=
  forall (T before : list Token) (tail : list (Separator * list Piece))
         (trailing : list Token) (term : Token) (rest : list Token)
         (done : list (CSSSimpleSelector * string)) (current : CSSSimpleSelector),
    T = before ++ tailTokens simpleTokens tail ++ trailing ++ term :: rest ->
    tailOk simpleOk tail = true ->
    forallb isWhitespaceToken trailing = true ->
    isTerminatorToken term = true ->
    5 * length (tailTokens simpleTokens tail) + 3 <= fuel ->
    consumeComplexSelectorLoop T fuel (done ++ [(current, "")]) (length before)
    = Ok (mkComplex (done ++ simplesOf simpleValue current tail))
        (length (before ++ tailTokens simpleTokens tail ++ trailing)).

Definition complexParsed (fuel : nat) : Prop :=
  forall (T before : list Token) (head : list Piece)
         (tail : list (Separator * list Piece)) (trailing : list Token)
         (term : Token) (rest : list Token),
    T = before ++ simpleTokens head ++ tailTokens simpleTokens tail ++ trailing
          ++ term :: rest ->
    simpleOk head = true ->
    tailOk simpleOk tail = true ->
    forallb isWhitespaceToken trailing = true ->
    isTerminatorToken term = true ->
    5 * length (simpleTokens head ++ tailTokens simpleTokens tail) + 4 <= fuel ->
    consumeComplexSelector T fuel (length before)
    = Ok (mkComplex (simplesOf simpleValue (simpleValue head) tail))
        (length (before ++ simpleTokens head ++ tailTokens simpleTokens tail
                   ++ trailing)).

(** [consumeArgument] leaves the cursor behind a number or a string; the
    whitespace after it is skipped by the caller. *)
Definition argumentParsed (fuel : nat) : Prop :=
  forall (T before : list Token) (a : Padded (ArgumentSource (list Piece)))
         (term : Token) (rest : list Token),
    T = before ++ paddedTokens simpleTokens a ++ term :: rest ->
    paddedOk simpleOk a = true ->
    isTerminatorToken term = true ->
    5 * length (paddedTokens simpleTokens a) + 5 <= fuel ->
    exists pos,
      consumeArgument T fuel (length before)
      = Ok (argumentValue simpleValue (content a)) pos /\
      skipWhitespace T pos = length (before ++ paddedTokens simpleTokens a).

Definition argumentsLoopParsed (fuel : nat) : Prop :=
  forall (T before : list Token)
         (others : list (Token * Padded (ArgumentSource (list Piece))))
         (closer : Token) (rest : list Token) (result : list CSSFunctionArgument)
         (pos : nat),
    T = before ++ othersTokens simpleTokens others ++ closer :: rest ->
    othersOk simpleOk others = true ->
    isCloserToken closer = true ->
    skipWhitespace T pos = length before ->
    5 * length (othersTokens simpleTokens others) + 6 <= fuel ->
    consumeFunctionArgumentsLoop T fuel result pos
    = Ok (result ++ othersValue simpleValue others)
        (length (before ++ othersTokens simpleTokens others)).

Definition argumentsParsed (fuel : nat) : Prop :=
  forall (T before : list Token) (argument : Padded (ArgumentSource (list Piece)))
         (others : list (Token * Padded (ArgumentSource (list Piece))))
         (closer : Token) (rest : list Token),
    T = before ++ argumentsTokens simpleTokens argument others ++ closer :: rest ->
    argumentsOk simpleOk argument others = true ->
    isCloserToken closer = true ->
    5 * length (argumentsTokens simpleTokens argument others) + 7 <= fuel ->
    consumeFunctionArguments T fuel (length before)
    = Ok (argumentsValue simpleValue argument others)
        (length (before ++ argumentsTokens simpleTokens argument others)).

Definition rulesParse (fuel : nat) : Prop :=
  simpleLoopParsed fuel /\ simpleParsed fuel /\ complexLoopParsed fuel /\
  complexParsed fuel /\ argumentParsed fuel /\ argumentsLoopParsed fuel /\
  argumentsParsed fuel.

(** ** The serialized text of arguments as tokens

    [serializeSelector] writes an argument list as text, and the
    tokenizer, which is not under src/, reads a text as tokens.  The
    definitions below name the parts of the serialized text and give the
    tokens it is made of: the source slices of these tokens, one after the
    other, are the text. *)

(** The text of one function and of one simple selector with its
    combinator (lines 221-226). *)
Definition serializeFunction (numberToString : float -> string) (func : CSSFunction)
  : string :=
  match func with
  | mkFunction name args =>
      ":" ++ name ++ "(" ++ serializeSelector numberToString args ++ ")"
  end.

Definition serializeSimple (numberToString : float -> string)
    (selector : CSSSimpleSelector) : string :=
  match selector with
  | mkSimple css functions =>
      match css with Some c => c | None => "" end
      ++ String.concat "" (map (serializeFunction numberToString) functions)
  end.

Definition serializeClause (numberToString : float -> string)
    (p : CSSSimpleSelector * string) : string :=
  if String.eqb (snd p) "" then serializeSimple numberToString (fst p)
  else serializeSimple numberToString (fst p) ++ " " ++ snd p.

(** The source slices of tokens, one after the other. *)
Definition sourceText (tokens : list Token) : string :=
  String.concat "" (map toSource tokens).

(** Modelled from the spec: how the tokenizer, which is not under src/,
    reads a string between double quotes.  The value of a string token is
    the tokenizer's unescaped string content (4.2), and the serializer is
    said to escape neither a double quote nor a backslash (4.3, 9): the
    content ends at the next double quote, and a backslash starts an
    escape, which is read by rules that the spec leaves to the tokenizer,
    so that no value is given here for a content with a backslash.
    [scanString] reads behind the opening quote; it gives the content and
    the text behind the closing quote. *)
Fixpoint scanString (text : string) : option (string * string) :=
  match text with
  | EmptyString => None
  | String c rest =>
      if Ascii.eqb c (ascii_of_nat 34) then Some ("", rest)
      else if Ascii.eqb c (ascii_of_nat 92) then None
      else match scanString rest with
           | Some (value, behind) => Some (String c value, behind)
           | None => None
           end
  end.

(** Modelled from the spec: the string token that a text starts with, an
    opening double quote first. *)
Definition readString (text : string) : option (string * string) :=
  match text with
  | EmptyString => None
  | String c rest => if Ascii.eqb c (ascii_of_nat 34) then scanString rest else None
  end.

(** The value of the string token that a text starts with, and whether the
    whole text is that one string token with the value [value]. *)
Definition readValue (text : string) : string :=
  match readString text with Some (value, _) => value | None => "" end.

Definition readsAs (text value : string) : Prop :=
  readString text = Some (value, "").

(** A string without a double quote and without a backslash. *)
Fixpoint plainString (s : string) : bool :=
  match s with
  | EmptyString => true
  | String c rest =>
      negb (Ascii.eqb c (ascii_of_nat 34)) && negb (Ascii.eqb c (ascii_of_nat 92))
      && plainString rest
  end.

(** The constructs, separators and arguments as the serialized text has
    them: the punctuation as the serializer writes it, a space or a
    combinator between two spaces between simple selectors, no whitespace
    around an argument but one space behind a comma. *)
Definition canonConstruct (u : Construct) : Construct :=
  match u with
  | Plain t => Plain t
  | Class _ identifier => Class (delim ".") identifier
  | PseudoClass _ identifier => PseudoClass colon identifier
  | Attribute _ between _ => Attribute openSquare between closeSquare
  | PseudoFunction _ f between _ =>
      PseudoFunction colon (func (nameOf f)) between closeParen
  end.

Definition canonSeparator (sep : Separator) : Separator :=
  match sep with
  | Descendant _ _ => Descendant ws []
  | Combined _ _ _ => Combined [ws] (delim (separatorValue sep)) [ws]
  end.

Definition isCopied (p : Piece) : bool :=
  match p with Copied _ => true | _ => false end.

(** The serializer writes the raw text of a simple selector before its
    functions. *)
Definition reorder (pieces : list Piece) : list Piece :=
  filter isCopied pieces ++ filter (fun p => negb (isCopied p)) pieces.

Definition allOf {A : Type} (P : A -> Prop) (l : list A) : Prop :=
  fold_right (fun x rest => P x /\ rest) True l.

Section Canonical.

(** [String(arg)] of a number, and the value that the tokenizer gives to
    the number token with a given source slice: both are outside src/. *)
Variable numberToString : float -> string.
Variable readNumber : string -> float.

Section Arguments.

Context {Simple : Type}.
Variable canonOf : Simple -> Simple.
Variable readableOf : Simple -> Prop.

(** A string token and a number token get the value that is read from the
    text that the serializer writes for the argument. *)
Definition canonArgument (a : ArgumentSource Simple) : ArgumentSource Simple :=
  match a with
  | NumberSource value _ =>
      NumberSource (readNumber (numberToString value)) (numberToString value)
  | StringSource value _ => StringSource (readValue (quoted value)) (quoted value)
  | SelectorSource head tail =>
      SelectorSource (canonOf head)
        (map (fun p => (canonSeparator (fst p), canonOf (snd p))) tail)
  end.

Definition canonPadded (a : Padded (ArgumentSource Simple))
  : Padded (ArgumentSource Simple) :=
  mkPadded [] (canonArgument (content a)) [].

Definition canonOthers (others : list (Token * Padded (ArgumentSource Simple)))
  : list (Token * Padded (ArgumentSource Simple)) :=
  map (fun p => (comma, mkPadded [ws] (canonArgument (content (snd p))) [])) others.

(** The arguments that are read back from their serialized text: a number
    whose decimal text is read as the number, a string whose text between
    double quotes is read as the string, a selector of simple selectors
    that are read back. *)
Definition argumentReadable (a : ArgumentSource Simple) : Prop :=
  match a with
  | NumberSource value _ => readNumber (numberToString value) = value
  | StringSource value _ => plainString value = true
  | SelectorSource head tail =>
      readableOf head /\ allOf (fun p => readableOf (snd p)) tail
  end.

Definition argumentsReadable (argument : Padded (ArgumentSource Simple))
    (others : list (Token * Padded (ArgumentSource Simple))) : Prop :=
  argumentReadable (content argument)
  /\ allOf (fun p => argumentReadable (content (snd p))) others.

End Arguments.

Fixpoint canonPiece (p : Piece) : Piece :=
  match p with
  | Copied u => Copied (canonConstruct u)
  | Bare _ identifier => Bare colon identifier
  | Call _ f argument others _ =>
      Call colon (func (nameOf f))
        (canonPadded (fun pieces => reorder (map canonPiece pieces)) argument)
        (canonOthers (fun pieces => reorder (map canonPiece pieces)) others)
        closeParen
  end.

Definition canonSimple (pieces : list Piece) : list Piece :=
  reorder (map canonPiece pieces).

(** A custom pseudo-class without arguments is serialized with empty
    parentheses, which are not read back. *)
Fixpoint pieceReadable (p : Piece) : Prop :=
  match p with
  | Copied _ => True
  | Bare _ _ => False
  | Call _ _ argument others _ =>
      argumentsReadable (allOf pieceReadable) argument others
  end.

Definition simpleReadable (pieces : list Piece) : Prop := allOf pieceReadable pieces.

(** The tokens of the serialized text of an argument list. *)
Definition canonicalTokens (argument : Padded (ArgumentSource (list Piece)))
    (others : list (Token * Padded (ArgumentSource (list Piece)))) : list Token :=
  argumentsTokens simpleTokens (canonPadded canonSimple argument)
    (canonOthers canonSimple others).

End Canonical.

(** [span:is( a> b,'c' ).x,'text',  3.0], the arguments of a call. *)
Definition sourceIs : Piece :=
  Call colon (func "is")
    (mkPadded [ws]
       (SelectorSource [Copied (Plain (ident "a"))]
          [(Combined [] (delim ">") [ws], [Copied (Plain (ident "b"))])])
       [])
    [(comma, mkPadded [] (StringSource "c" "'c'") [ws])]
    closeParen.

Definition sourceRead : Padded (ArgumentSource (list Piece)) :=
  mkPadded []
    (SelectorSource
       [Copied (Plain (ident "span")); sourceIs; Copied (Class (delim ".") (ident "x"))]
       [])
    [].

Definition sourceReadOthers : list (Token * Padded (ArgumentSource (list Piece))) :=
  [(comma, mkPadded [] (StringSource "text" "'text'") []);
   (comma, mkPadded [ws; ws] (NumberSource 3 "3.0") [])].

(** What holds of every piece inside an argument. *)
Definition argumentAll (P : Piece -> Prop) (a : ArgumentSource (list Piece)) : Prop :=
  match a with
  | SelectorSource head tail => allOf P head /\ allOf (fun st => allOf P (snd st)) tail
  | _ => True
  end.

(** What is given of a piece and what is shown of it as the serialized
    text has it: it is well formed, it has the text and the functions of
    the piece, and the source slices of its tokens are the text that the
    serializer writes for the piece. *)
Section ReadBack.

Variable numberToString : float -> string.
Variable readNumber : string -> float.

Definition pieceGiven (p : Piece) : Prop :=
  pieceOk p = true /\
  existsb isUnsupportedToken (pieceTokens p) = false /\
  pieceReadable numberToString readNumber p.

Definition pieceFaithful (p : Piece) : Prop :=
  pieceOk (canonPiece numberToString readNumber p) = true /\
  isCopied (canonPiece numberToString readNumber p) = isCopied p /\
  pieceText (canonPiece numberToString readNumber p) = pieceText p /\
  pieceFunctions (canonPiece numberToString readNumber p) = pieceFunctions p /\
  existsb isUnsupportedToken (pieceTokens (canonPiece numberToString readNumber p))
  = false /\
  sourceText (pieceTokens (canonPiece numberToString readNumber p))
  = (pieceText p
     ++ String.concat "" (map (serializeFunction numberToString) (pieceFunctions p)))%string.

Definition pieceReadBack (p : Piece) : Prop := pieceGiven p -> pieceFaithful p.

Definition simpleFaithful (pieces : list Piece) : Prop :=
  simpleOk (canonSimple numberToString readNumber pieces) = true /\
  simpleValue (canonSimple numberToString readNumber pieces) = simpleValue pieces /\
  existsb isUnsupportedToken
    (simpleTokens (canonSimple numberToString readNumber pieces)) = false /\
  sourceText (simpleTokens (canonSimple numberToString readNumber pieces))
  = serializeSimple numberToString (simpleValue pieces).

End ReadBack.

(** ** The sources of what the rules return

    The other direction, one statement for each rule and each loop again:
    whatever the rule returns, with whatever fuel, is the value of a well
    formed source, whose tokens are the tokens that the rule went over.
    A simple selector ends on a token that ends a clause, which is where
    the loop of [consumeComplexSelector] starts; the loop of
    [consumeFunctionArguments] first skips the whitespace behind the last
    argument, and it ends behind whitespace. *)

(** The tokens from cursor [pos] up to cursor [pos']. *)
Definition tokensBetween (T : list Token) (pos pos' : nat) (ts : list Token) : Prop :=
  skipn pos T = ts ++ skipn pos' T /\ pos' = pos + length ts.

Definition simpleLoopSound (T : list Token) (fuel : nat) : Prop :=
  forall raw fns pos selector pos',
    consumeSimpleSelectorLoop T fuel raw fns pos = Ok selector pos' ->
    exists pieces,
      tokensBetween T pos pos' (simpleTokens pieces) /\
      forallb pieceOk pieces = true /\
      notEmpty (raw ++ simpleText pieces) (fns ++ simpleFunctions pieces) = true /\
      selector = simpleSelectorOf (raw ++ simpleText pieces)
                   (fns ++ simpleFunctions pieces) /\
      isSelectorClauseEnd T pos' = true.

Definition simpleSound (T : list Token) (fuel : nat) : Prop :=
  forall pos selector pos',
    consumeSimpleSelector T fuel pos = Ok selector pos' ->
    exists pieces,
      tokensBetween T pos pos' (simpleTokens pieces) /\
      simpleOk pieces = true /\
      selector = simpleValue pieces /\
      isSelectorClauseEnd T pos' = true.

Definition complexLoopSound (T : list Token) (fuel : nat) : Prop :=
  forall done current pos c pos',
    isSelectorClauseEnd T pos = true ->
    consumeComplexSelectorLoop T fuel (done ++ [(current, "")]) pos = Ok c pos' ->
    exists tail trailing,
      tokensBetween T pos pos' (tailTokens simpleTokens tail ++ trailing) /\
      tailOk simpleOk tail = true /\
      forallb isWhitespaceToken trailing = true /\
      c = mkComplex (done ++ simplesOf simpleValue current tail).

Definition complexSound (T : list Token) (fuel : nat) : Prop :=
  forall pos c pos',
    consumeComplexSelector T fuel pos = Ok c pos' ->
    exists leading head tail trailing,
      tokensBetween T pos pos'
        (leading ++ simpleTokens head ++ tailTokens simpleTokens tail ++ trailing) /\
      forallb isWhitespaceToken leading = true /\
      simpleOk head = true /\
      tailOk simpleOk tail = true /\
      forallb isWhitespaceToken trailing = true /\
      c = mkComplex (simplesOf simpleValue (simpleValue head) tail).

Definition argumentSound (T : list Token) (fuel : nat) : Prop :=
  forall pos arg pos',
    consumeArgument T fuel pos = Ok arg pos' ->
    exists a,
      tokensBetween T pos pos' (paddedTokens simpleTokens a) /\
      paddedOk simpleOk a = true /\
      arg = argumentValue simpleValue (content a).

Definition argumentsLoopSound (T : list Token) (fuel : nat) : Prop :=
  forall result pos args pos',
    consumeFunctionArgumentsLoop T fuel result pos = Ok args pos' ->
    exists spaces others,
      tokensBetween T pos pos' (spaces ++ othersTokens simpleTokens others) /\
      forallb isWhitespaceToken spaces = true /\
      othersOk simpleOk others = true /\
      args = result ++ othersValue simpleValue others /\
      skipWhitespace T pos' = pos'.

Definition argumentsSound (T : list Token) (fuel : nat) : Prop :=
  forall pos args pos',
    consumeFunctionArguments T fuel pos = Ok args pos' ->
    exists argument others,
      tokensBetween T pos pos' (argumentsTokens simpleTokens argument others) /\
      argumentsOk simpleOk argument others = true /\
      args = argumentsValue simpleValue argument others /\
      skipWhitespace T pos' = pos'.

Definition rulesSound (T : list Token) (fuel : nat) : Prop :=
  simpleLoopSound T fuel /\ simpleSound T fuel /\ complexLoopSound T fuel /\
  complexSound T fuel /\ argumentSound T fuel /\ argumentsLoopSound T fuel /\
  argumentsSound T fuel.

(** The whitespace behind an argument, up to the comma or to the end of
    the list, is part of the argument. *)
Definition withSpaceAfter (a : Padded (ArgumentSource (list Piece)))
    (spaces : list Token) : Padded (ArgumentSource (list Piece)) :=
  mkPadded (spaceBefore a) (content a) (spaceAfter a ++ spaces).

(** A function and the functions inside its arguments. *)
Definition functionsWithin (func : CSSFunction) : list CSSFunction :=
  func :: flat_map functionsOfArgument (args func).

(** The argument list is the value of the well formed source [argument],
    [others], no token of which is rejected at lines 44-60. *)
Definition parsedFrom (arguments : list CSSFunctionArgument)
    (argument : Padded (ArgumentSource (list Piece)))
    (others : list (Token * Padded (ArgumentSource (list Piece)))) : Prop :=
  argumentsValue simpleValue argument others = arguments /\
  argumentsOk simpleOk argument others = true /\
  existsb isUnsupportedToken (argumentsTokens simpleTokens argument others) = false.

Section Readable.

Variable numberToString : float -> string.
Variable readNumber : string -> float.

(** The arguments that are read back from their serialized text, told on
    the tree: a number whose decimal text is read as the number, a string
    without a double quote and without a backslash, a selector in which
    every function has arguments, which are of that kind in turn. *)
Fixpoint readableArgument (arg : CSSFunctionArgument) : Prop :=
  match arg with
  | ArgNumber n => readNumber (numberToString n) = n
  | ArgString s => plainString s = true
  | ArgSelector (mkComplex simple) =>
      allOf (fun p : CSSSimpleSelector * string =>
               let '(selector, _) := p in
               match selector with
               | mkSimple _ functions =>
                   allOf (fun func =>
                            match func with
                            | mkFunction _ args =>
                                args <> [] /\ allOf readableArgument args
                            end) functions
               end) simple
  end.

Definition readableFunction (func : CSSFunction) : Prop :=
  args func <> [] /\ allOf readableArgument (args func).

(** What is told on the tree holds of the source: a piece whose functions
    are read back is read back. *)
Definition pieceFromTree (p : Piece) : Prop :=
  allOf readableFunction (pieceFunctions p) -> pieceReadable numberToString readNumber p.

End Readable.

(** The arguments of a function inside a piece, when it has any, are the
    value of a source. *)
Definition pieceLocated (p : Piece) : Prop :=
  pieceOk p = true ->
  existsb isUnsupportedToken (pieceTokens p) = false ->
  forall func,
    In func (flat_map functionsWithin (pieceFunctions p)) ->
    args func <> [] ->
    exists argument others, parsedFrom (args func) argument others.

(** [div:has(span:is( a> b,'c' ).x,'text',  3.0)] with the function [has]
    of its tree, the text that [serializeSelector] gives for the arguments
    of [has], the tokens of both texts, and a tokenizer of these two
    texts. *)
Definition tokensRoundTrip : list Token :=
  [ident "div"; colon; func "has"; ident "span"; colon; func "is"; ws; ident "a";
   delim ">"; ws; ident "b"; comma; mkToken (StringToken "c") "'c'"; ws; closeParen;
   delim "."; ident "x"; comma; mkToken (StringToken "text") "'text'"; comma; ws; ws;
   num 3%float "3.0"; closeParen].

Definition functionRoundTrip : CSSFunction :=
  mkFunction "has"
    [ArgSelector
       (mkComplex
          [(mkSimple (Some "span.x")
              [mkFunction "is"
                 [ArgSelector
                    (mkComplex [(mkSimple (Some "a") [], ">");
                                (mkSimple (Some "b") [], "")]);
                  ArgString "c"]], "")]);
     ArgString "text"; ArgNumber 3].

Definition textSerialized : string :=
  "span.x:is(a > b, " ++ quoted "c" ++ "), " ++ quoted "text" ++ ", 3".

Definition tokensSerialized : list Token :=
  [ident "span"; delim "."; ident "x"; colon; func "is"; ident "a"; ws; delim ">"; ws;
   ident "b"; comma; ws; str "c"; closeParen; comma; ws; str "text"; comma; ws;
   num 3%float "3"].

Definition tokenizeRoundTrip (text : string) : string + list Token :=
  if String.eqb text "div:has(span:is( a> b,'c' ).x,'text',  3.0)"
  then inr tokensRoundTrip
  else if String.eqb text textSerialized then inr tokensSerialized
  else inl "Unexpected text".

(** * Facts *)

(** ** Strings and lists *)

Lemma append_assoc (a b c : string) : ((a ++ b) ++ c = a ++ (b ++ c))%string.
Proof. induction a as [|ch a IH]; simpl; [reflexivity | now rewrite IH]. Qed.

Lemma append_empty_r (a : string) : (a ++ "" = a)%string.
Proof. induction a as [|ch a IH]; simpl; [reflexivity | now rewrite IH]. Qed.

Lemma skipn_cons_nth_error {A : Type} (l : list A) (n : nat) :
  skipn n l = match nth_error l n with
              | Some x => x :: skipn (S n) l
              | None => []
              end.
Proof.
  revert n; induction l as [|x l IH]; intros [|n]; simpl; try reflexivity.
  rewrite IH. destruct (nth_error l n); reflexivity.
Qed.

(** ** Cursor facts *)


Lemma nth_error_snoc {A : Type} (l : list A) (x : A) :
  nth_error (l ++ [x]) (pred (length (l ++ [x]))) = Some x.
Proof.
  rewrite length_app. simpl. rewrite Nat.add_1_r. simpl.
  rewrite nth_error_app2 by lia. now rewrite Nat.sub_diag.
Qed.

Lemma withEOF_endsWithEOF (tokenized : list Token) : endsWithEOF (withEOF tokenized).
Proof.
  unfold endsWithEOF, withEOF, isEOF, testAt, tokenAt.
  destruct tokenized as [|x l _] using rev_ind; [reflexivity|].
  rewrite map_app. simpl map. rewrite last_last.
  destruct (isEOFToken x) eqn:E; rewrite nth_error_snoc; [exact E | reflexivity].
Qed.

Section CursorFacts.

Variable tokens : list Token.

Lemma tokenAt_in_range (pos : nat) (t : Token) :
  tokenAt tokens pos = Some t -> pos < length tokens.
Proof. unfold tokenAt. intros H. apply nth_error_Some. congruence. Qed.

Lemma testAt_in_range (test : Token -> bool) (pos : nat) :
  testAt tokens test pos = true -> pos < length tokens.
Proof.
  unfold testAt. destruct (tokenAt tokens pos) eqn:E; [|discriminate].
  intros _. eapply tokenAt_in_range; eauto.
Qed.

Lemma in_range_tokenAt (pos : nat) :
  pos < length tokens -> exists t, tokenAt tokens pos = Some t.
Proof.
  unfold tokenAt. intros H. destruct (nth_error tokens pos) eqn:E; eauto.
  apply nth_error_None in E. lia.
Qed.

(** [skipWhitespace] as the loop reads: one test, one step. *)
Lemma skipWhitespace_unfold (pos : nat) :
  skipWhitespace tokens pos =
  if testAt tokens isWhitespaceToken pos then skipWhitespace tokens (S pos) else pos.
Proof.
  unfold skipWhitespace at 1, testAt, tokenAt.
  rewrite skipn_cons_nth_error. destruct (nth_error tokens pos); reflexivity.
Qed.

(** Induction along the iterations of [skipWhitespace]. *)
Lemma skipWhitespace_ind (P : nat -> nat -> Prop) :
  (forall pos, testAt tokens isWhitespaceToken pos = false -> P pos pos) ->
  (forall pos r, testAt tokens isWhitespaceToken pos = true -> P (S pos) r -> P pos r) ->
  forall pos, P pos (skipWhitespace tokens pos).
Proof.
  intros Hstop Hstep pos.
  remember (length tokens - pos) as n eqn:Hn.
  revert pos Hn. induction n as [|n IH]; intros pos Hn;
    rewrite skipWhitespace_unfold;
    destruct (testAt tokens isWhitespaceToken pos) eqn:E; auto.
  - apply testAt_in_range in E. lia.
  - apply Hstep; [exact E|]. apply IH. apply testAt_in_range in E. lia.
Qed.

Lemma skipWhitespace_ge (pos : nat) : pos <= skipWhitespace tokens pos.
Proof. apply skipWhitespace_ind; intros; lia. Qed.

Lemma skipWhitespace_stops (pos : nat) :
  testAt tokens isWhitespaceToken (skipWhitespace tokens pos) = false.
Proof. apply (skipWhitespace_ind (fun _ r => testAt tokens isWhitespaceToken r = false)); auto. Qed.

Lemma skipWhitespace_skips (pos i : nat) :
  pos <= i < skipWhitespace tokens pos -> testAt tokens isWhitespaceToken i = true.
Proof.
  revert i.
  apply (skipWhitespace_ind (fun p r => forall i, p <= i < r ->
           testAt tokens isWhitespaceToken i = true)).
  - intros; lia.
  - intros p r Hp IH i Hi. destruct (Nat.eq_dec i p) as [->|]; [exact Hp|].
    apply IH; lia.
Qed.

Lemma skipWhitespace_id (pos : nat) :
  testAt tokens isWhitespaceToken pos = false -> skipWhitespace tokens pos = pos.
Proof. intros H. rewrite skipWhitespace_unfold, H. reflexivity. Qed.

Lemma skipWhitespace_idem (pos : nat) :
  skipWhitespace tokens (skipWhitespace tokens pos) = skipWhitespace tokens pos.
Proof. apply skipWhitespace_id, skipWhitespace_stops. Qed.

Hypothesis tokens_end : endsWithEOF tokens.

(** A cursor on a token that is not the end of input can step. *)
Lemma step_in_range (test : Token -> bool) (pos : nat) :
  (forall t, test t = true -> isEOFToken t = false) ->
  testAt tokens test pos = true -> S pos < length tokens.
Proof.
  intros Htest H. pose proof (testAt_in_range _ _ H) as Hlt.
  destruct (Nat.eq_dec (S pos) (length tokens)) as [E|]; [|lia].
  exfalso. red in tokens_end. rewrite <- E in tokens_end. simpl in tokens_end.
  unfold isEOF, testAt in *. destruct (tokenAt tokens pos) as [t|]; [|discriminate].
  apply Htest in H. congruence.
Qed.

Lemma not_EOF_step (pos : nat) :
  pos < length tokens -> isEOF tokens pos = false -> S pos < length tokens.
Proof.
  intros Hlt H. destruct (in_range_tokenAt pos Hlt) as [t Ht].
  apply (step_in_range (fun t => negb (isEOFToken t))).
  - intros t0. now destruct (isEOFToken t0).
  - unfold isEOF, testAt in *. rewrite Ht in *. now rewrite H.
Qed.

Lemma skipWhitespace_in_range (pos : nat) :
  pos < length tokens -> skipWhitespace tokens pos < length tokens.
Proof.
  apply (skipWhitespace_ind (fun p r => p < length tokens -> r < length tokens)); auto.
  intros p r Hp IH _. apply IH. apply (step_in_range isWhitespaceToken); auto.
  intros t. unfold isWhitespaceToken, isEOFToken. now destruct (class t).
Qed.

End CursorFacts.

(** ** The loops that copy source text *)

Lemma appendSourcesUntil_app (stop : Token -> bool) (between : list Token)
    (t : Token) (rest : list Token) (s : string) (pos : nat) :
  forallb (fun x => negb (stop x)) between = true ->
  stop t = true ->
  appendSourcesUntil stop (between ++ t :: rest) s pos =
  Ok (s ++ String.concat "" (map toSource between))%string (pos + length between).
Proof.
  revert s pos. induction between as [|x between IH]; intros s pos Hb Ht; simpl.
  - now rewrite Ht, append_empty_r, Nat.add_0_r.
  - simpl in Hb. apply andb_true_iff in Hb as [Hx Hb].
    destruct (stop x); [discriminate|].
    rewrite IH by assumption. f_equal; [|lia].
    rewrite append_assoc. f_equal.
    destruct between; simpl; [now rewrite append_empty_r | reflexivity].
Qed.

Section Progress.

Variable tokens : list Token.
Hypothesis tokens_end : endsWithEOF tokens.

Lemma appendSourcesUntil_unfold (stop : Token -> bool) (s : string) (pos : nat) :
  appendSourcesUntil stop (skipn pos tokens) s pos =
  match tokenAt tokens pos with
  | Some t =>
      if stop t then Ok s pos
      else appendSourcesUntil stop (skipn (S pos) tokens) (s ++ toSource t) (S pos)
  | None => Throw TypeError
  end.
Proof.
  unfold tokenAt. rewrite skipn_cons_nth_error.
  destruct (nth_error tokens pos); reflexivity.
Qed.

(** A copying loop that stops at the end of input stops inside the
    array, on a token of its stop test. *)
Lemma appendSourcesUntil_stops (stop : Token -> bool) (s : string) (pos : nat) :
  (forall t, isEOFToken t = true -> stop t = true) ->
  pos < length tokens ->
  exists s' pos',
    appendSourcesUntil stop (skipn pos tokens) s pos = Ok s' pos' /\
    pos <= pos' < length tokens /\ testAt tokens stop pos' = true.
Proof.
  intros Hstop.
  remember (length tokens - pos) as n eqn:Hn.
  revert s pos Hn. induction n as [|n IH]; intros s pos Hn Hlt; [lia|].
  rewrite appendSourcesUntil_unfold.
  destruct (in_range_tokenAt tokens pos Hlt) as [t Ht]. rewrite Ht.
  destruct (stop t) eqn:E.
  - exists s, pos. unfold testAt. rewrite Ht. auto with arith.
  - assert (S pos < length tokens).
    { apply not_EOF_step; auto. unfold isEOF, testAt. rewrite Ht.
      destruct (isEOFToken t) eqn:E'; [|reflexivity].
      apply Hstop in E'. congruence. }
    destruct (IH (s ++ toSource t)%string (S pos)) as (s' & pos' & H1 & H2 & H3);
      [lia | assumption |].
    exists s', pos'. repeat split; auto; lia.
Qed.







Lemma unexpected_in_range (pos : nat) :
  pos < length tokens -> unexpected tokens pos <> TypeError.
Proof.
  intros Hlt. unfold unexpected.
  destruct (in_range_tokenAt tokens pos Hlt) as [t ->]. discriminate.
Qed.

Lemma tokenAt_step (pos : nat) (t : Token) :
  tokenAt tokens pos = Some t -> isEOFToken t = false -> S pos < length tokens.
Proof.
  intros Ht He. apply (not_EOF_step tokens tokens_end).
  - eapply tokenAt_in_range; eauto.
  - unfold isEOF, testAt. now rewrite Ht.
Qed.

Ltac use_call H :=
  let Hc := fresh "Hc" in
  pose proof H as Hc;
  lazymatch type of Hc with
  | ?P -> _ =>
      let Hp := fresh in
      assert (Hp : P) by (try assumption; lia); specialize (Hc Hp); clear Hp
  end.

Ltac finish :=
  simpl; unfold advances, budget in *;
  try assumption; try (apply unexpected_in_range; lia);
  repeat match goal with
         | |- context [if ?b then _ else _] => destruct b
         | H : context [if ?b then _ else _] |- _ => destruct b
         end;
  try lia; try (intuition lia).

Lemma rules_advance : forall fuel, rulesAdvance tokens fuel.
Proof.
  induction fuel as [|fuel IH].
  - unfold rulesAdvance, budget; repeat split; intros; simpl; lia.
  - destruct IH as (IHfa & IHfal & IHarg & IHcs & IHcsl & IHss & IHssl).
    unfold rulesAdvance; repeat split.
    + (* consumeFunctionArguments *)
      intros pos Hlt. simpl.
      use_call (IHarg pos).
      destruct (consumeArgument tokens fuel pos) as [arg p1|e|]; [|finish..].
      simpl. destruct Hc as [Hp1 Hp1'].
      use_call (IHfal [arg] p1).
      destruct (consumeFunctionArgumentsLoop tokens fuel [arg] p1); finish.
    + (* consumeFunctionArgumentsLoop *)
      intros result pos Hlt. simpl.
      pose proof (skipWhitespace_ge tokens pos) as Hge.
      pose proof (skipWhitespace_in_range tokens tokens_end pos Hlt) as Hin.
      destruct (isComma tokens (skipWhitespace tokens pos)) eqn:Ecomma; simpl; [|finish].
      assert (S (skipWhitespace tokens pos) < length tokens) as Hs.
      { apply (step_in_range tokens tokens_end isCommaToken); auto.
        intros t. unfold isCommaToken, isEOFToken. now destruct (class t). }
      use_call (IHarg (S (skipWhitespace tokens pos))).
      destruct (consumeArgument tokens fuel (S (skipWhitespace tokens pos)))
        as [arg p1|e|]; [|finish..].
      simpl. destruct Hc as [Hp1 Hp1'].
      use_call (IHfal (result ++ [arg]) p1).
      destruct (consumeFunctionArgumentsLoop tokens fuel (result ++ [arg]) p1); finish.
    + (* consumeArgument *)
      intros pos Hlt. simpl.
      pose proof (skipWhitespace_ge tokens pos) as Hge.
      pose proof (skipWhitespace_in_range tokens tokens_end pos Hlt) as Hin.
      set (p := skipWhitespace tokens pos) in *.
      assert (Hcs : advances tokens true (budget (length tokens - pos) 4) (S fuel) pos
                (bind (consumeComplexSelector tokens fuel p)
                   (fun c pos0 => Ok (ArgSelector c) pos0))).
      { use_call (IHcs p). destruct (consumeComplexSelector tokens fuel p); finish. }
      destruct (tokenAt tokens p) as [t|] eqn:Et; simpl; [|exact Hcs].
      destruct (class t) eqn:Ec; try exact Hcs;
        (assert (S p < length tokens)
           by (apply (tokenAt_step p t Et); unfold isEOFToken; now rewrite Ec));
        finish.
    + (* consumeComplexSelector *)
      intros pos Hlt. simpl.
      pose proof (skipWhitespace_ge tokens pos) as Hge.
      pose proof (skipWhitespace_in_range tokens tokens_end pos Hlt) as Hin.
      set (p := skipWhitespace tokens pos) in *.
      use_call (IHss p).
      destruct (consumeSimpleSelector tokens fuel p) as [sel p1|e|]; [|finish..].
      simpl. destruct Hc as [Hp1 Hp1'].
      use_call (IHcsl [(sel, "")] p1).
      destruct (consumeComplexSelectorLoop tokens fuel [(sel, "")] p1); finish.
    + (* consumeComplexSelectorLoop *)
      intros result pos Hlt. simpl.
      pose proof (skipWhitespace_ge tokens pos) as Hge.
      pose proof (skipWhitespace_in_range tokens tokens_end pos Hlt) as Hin.
      set (p := skipWhitespace tokens pos) in *.
      destruct (clauseCombinatorAt tokens p) as [value|] eqn:Ecomb.
      * assert (S p < length tokens) as Hs.
        { unfold clauseCombinatorAt in Ecomb.
          destruct (tokenAt tokens p) as [t|] eqn:Et; [|discriminate].
          apply (tokenAt_step p t Et). unfold isEOFToken.
          destruct (class t); congruence. }
        pose proof (skipWhitespace_ge tokens (S p)) as Hge2.
        pose proof (skipWhitespace_in_range tokens tokens_end (S p) Hs) as Hin2.
        set (p2 := skipWhitespace tokens (S p)) in *.
        use_call (IHss p2).
        destruct (consumeSimpleSelector tokens fuel p2) as [sel p1|e|]; [|finish..].
        simpl. destruct Hc as [Hp1 Hp1'].
        use_call (IHcsl (setLastCombinator result value ++ [(sel, "")]) p1).
        destruct (consumeComplexSelectorLoop tokens fuel
                    (setLastCombinator result value ++ [(sel, "")]) p1); finish.
      * destruct (isSelectorClauseEnd tokens p); [finish|].
        use_call (IHss p).
        destruct (consumeSimpleSelector tokens fuel p) as [sel p1|e|]; [|finish..].
        simpl. destruct Hc as [Hp1 Hp1'].
        use_call (IHcsl (result ++ [(sel, "")]) p1).
        destruct (consumeComplexSelectorLoop tokens fuel (result ++ [(sel, "")]) p1);
          finish.
    + (* consumeSimpleSelector *)
      intros pos Hlt. simpl.
      use_call (IHssl "" (@nil CSSFunction) pos).
      destruct (consumeSimpleSelectorLoop tokens fuel "" [] pos); finish.
    + (* consumeSimpleSelectorLoop *)
      intros raw fns pos Hlt. simpl.
      destruct (isSelectorClauseEnd tokens pos) eqn:Eend.
      { unfold isEmptySimple.
        destruct (String.eqb raw "" && Nat.eqb (length fns) 0); finish. }
      destruct (tokenAt tokens pos) as [t|] eqn:Et; [|finish].
      assert (S pos < length tokens) as Hs.
      { apply (tokenAt_step pos t Et).
        unfold isSelectorClauseEnd, isEOF, testAt in Eend. rewrite Et in Eend.
        destruct (isEOFToken t); [|reflexivity].
        rewrite !orb_true_r in Eend. discriminate. }
      assert (Hloop : forall r f q, S pos <= q -> q < length tokens ->
                advances tokens (isEmptySimple raw fns) (budget (length tokens - pos) 1)
                  (S fuel) pos (consumeSimpleSelectorLoop tokens fuel r f q)).
      { intros r f q Hq Hq'. use_call (IHssl r f q).
        destruct (consumeSimpleSelectorLoop tokens fuel r f q); finish. }
      assert (Hclose : forall r f q, S pos <= q -> q < length tokens ->
                advances tokens (isEmptySimple raw fns) (budget (length tokens - pos) 1)
                  (S fuel) pos
                  (let q' := skipWhitespace tokens q in
                   if negb (isCloseParen tokens q') then Throw (unexpected tokens q')
                   else consumeSimpleSelectorLoop tokens fuel r f (S q'))).
      { intros r f q Hq Hq'.
        pose proof (skipWhitespace_ge tokens q).
        pose proof (skipWhitespace_in_range tokens tokens_end q Hq').
        cbv zeta. destruct (isCloseParen tokens (skipWhitespace tokens q)) eqn:Ecl;
          simpl; [|finish].
        apply Hloop; [lia|].
        apply (step_in_range tokens tokens_end isCloseParenToken); auto.
        intros t0. unfold isCloseParenToken, isEOFToken. now destruct (class t0). }
      destruct (isIdentToken t || isDelimToken "*" t); [apply Hloop; lia|].
      destruct (isHashToken t); [apply Hloop; lia|].
      destruct (isDelimToken "." t).
      { destruct (tokenAt tokens (S pos)) as [t'|] eqn:Et'; [|finish].
        destruct (isIdentToken t') eqn:Ei; [|finish].
        apply Hloop; [lia|]. apply (tokenAt_step (S pos) t' Et').
        unfold isIdentToken, isEOFToken in *. now destruct (class t'). }
      destruct (isColonToken t).
      { destruct (tokenAt tokens (S pos)) as [[c src]|] eqn:Et'; [|finish].
        destruct c; try solve [finish].
        - assert (S (S pos) < length tokens)
            by (apply (tokenAt_step (S pos) _ Et'); reflexivity).
          destruct (has builtinCSSFilters value); apply Hloop; lia.
        - assert (S (S pos) < length tokens) as Hss
            by (apply (tokenAt_step (S pos) _ Et'); reflexivity).
          destruct (has builtinCSSFunctions value).
          + unfold consumeBuiltinFunctionArguments.
            destruct (appendSourcesUntil_stops
                        (fun t => isCloseParenToken t || isEOFToken t) "" (S (S pos)))
              as (s' & p' & -> & Hp' & _); [|exact Hss|].
            { intros t0 ->. apply orb_true_r. }
            simpl bind. apply Hclose; lia.
          + use_call (IHfa (S (S pos))).
            destruct (consumeFunctionArguments tokens fuel (S (S pos)))
              as [args p1|e|]; [|finish..].
            simpl bind. destruct Hc as [Hp1 Hp1']. apply Hclose; lia. }
      destruct (isOpenSquareToken t); [|finish].
      unfold consumeSquareBrackets.
      destruct (appendSourcesUntil_stops
                  (fun t => isCloseSquareToken t || isEOFToken t)
                  (raw ++ "[")%string (S pos))
        as (s' & p' & -> & Hp' & _); [|exact Hs|].
      { intros t0 ->. apply orb_true_r. }
      simpl bind.
      destruct (testAt tokens isCloseSquareToken p') eqn:Ecl; simpl; [|finish].
      apply Hloop; [lia|].
      apply (step_in_range tokens tokens_end isCloseSquareToken); auto.
      intros t0. unfold isCloseSquareToken, isEOFToken. now destruct (class t0).
Qed.

(** Every rule ends with its cursor strictly further on, inside the
    array. *)
Lemma consumeFunctionArguments_forward (fuel pos : nat) a pos' :
  pos < length tokens ->
  consumeFunctionArguments tokens fuel pos = Ok a pos' ->
  pos < pos' < length tokens.
Proof.
  intros Hlt H. destruct (rules_advance fuel) as (Hr & _).
  specialize (Hr pos Hlt). rewrite H in Hr. exact Hr.
Qed.

Lemma consumeArgument_forward (fuel pos : nat) a pos' :
  pos < length tokens ->
  consumeArgument tokens fuel pos = Ok a pos' ->
  pos < pos' < length tokens.
Proof.
  intros Hlt H. destruct (rules_advance fuel) as (_ & _ & Hr & _).
  specialize (Hr pos Hlt). rewrite H in Hr. exact Hr.
Qed.

Lemma consumeComplexSelector_forward (fuel pos : nat) c pos' :
  pos < length tokens ->
  consumeComplexSelector tokens fuel pos = Ok c pos' ->
  pos < pos' < length tokens.
Proof.
  intros Hlt H. destruct (rules_advance fuel) as (_ & _ & _ & Hr & _).
  specialize (Hr pos Hlt). rewrite H in Hr. exact Hr.
Qed.

Lemma consumeSimpleSelector_forward (fuel pos : nat) s pos' :
  pos < length tokens ->
  consumeSimpleSelector tokens fuel pos = Ok s pos' ->
  pos < pos' < length tokens.
Proof.
  intros Hlt H. destruct (rules_advance fuel) as (_ & _ & _ & _ & _ & Hr & _).
  specialize (Hr pos Hlt). rewrite H in Hr. exact Hr.
Qed.

Lemma endsWithEOF_nonempty : 0 < length tokens.
Proof.
  red in tokens_end. apply testAt_in_range in tokens_end. lia.
Qed.

(** The budget of [parseCSS] is never exhausted, and the cursor never
    leaves the array. *)
Lemma consumeFunctionArguments_terminates :
  consumeFunctionArguments tokens (fuelFor tokens) 0 <> OutOfFuel /\
  consumeFunctionArguments tokens (fuelFor tokens) 0 <> Throw TypeError.
Proof.
  destruct (rules_advance (fuelFor tokens)) as (Hr & _).
  specialize (Hr 0 endsWithEOF_nonempty).
  destruct (consumeFunctionArguments tokens (fuelFor tokens) 0); simpl in Hr.
  - split; discriminate.
  - split; congruence.
  - unfold fuelFor, budget in Hr. lia.
Qed.

End Progress.

(** ** [parseCSS] as a whole *)

Lemma withEOF_cases (tokenized : list Token) :
  withEOF tokenized = tokenized \/ withEOF tokenized = tokenized ++ [newEOFToken].
Proof.
  unfold withEOF. destruct (last (map Some tokenized) None) as [t|]; auto.
  destruct (isEOFToken t); auto.
Qed.

Lemma find_first {A : Type} (f : A -> bool) (l : list A) :
  existsb f l = true ->
  exists before x after,
    l = before ++ x :: after /\
    forallb (fun y => negb (f y)) before = true /\ f x = true.
Proof.
  induction l as [|a l IH]; simpl; [discriminate|].
  destruct (f a) eqn:E; simpl.
  - intros _. exists [], a, l. auto.
  - intros H. destruct (IH H) as (before & x & after & -> & Hb & Hx).
    exists (a :: before), x, after. simpl. rewrite E. auto.
Qed.

Lemma find_app_first {A : Type} (f : A -> bool) (before : list A) (x : A)
    (after : list A) :
  forallb (fun y => negb (f y)) before = true -> f x = true ->
  find f (before ++ x :: after) = Some x.
Proof.
  induction before as [|a before IH]; simpl; intros Hb Hx.
  - now rewrite Hx.
  - apply andb_true_iff in Hb as [Ha Hb]. destruct (f a); [discriminate|]. auto.
Qed.

(** [parseCSS] on a selector text is [parseCSSTokens] on the tokens the
    tokenizer returns for it: what is stated below of token sequences
    holds of every selector text that is read as such a sequence. *)
Lemma parseCSS_tokens (tokenize : string -> string + list Token)
    (selector : string) (tokenized : list Token) :
  tokenize selector = inr tokenized ->
  parseCSS tokenize selector = parseCSSTokens tokenized.
Proof. intros H. unfold parseCSS. now rewrite H. Qed.

(** C8: [parseCSS] terminates on every token sequence and never reads
    past the end of the array: the recursion budget of the model is never
    exhausted and no [TypeError] arises; every grammar rule that returns
    has moved the cursor strictly forward, to a position inside the
    array; the unterminated [[attr], [:fn(] and [div >] are rejected with
    the unexpected-token error at the end-of-input token. *)
Theorem parseCSS_terminates :
  (forall tokenized,
     parseCSSTokens tokenized <> Unfinished /\
     parseCSSTokens tokenized <> Thrown TypeError) /\
  (forall tokenized fuel pos,
     pos < length (withEOF tokenized) ->
     (forall a pos', consumeFunctionArguments (withEOF tokenized) fuel pos = Ok a pos' ->
                     pos < pos' < length (withEOF tokenized)) /\
     (forall a pos', consumeArgument (withEOF tokenized) fuel pos = Ok a pos' ->
                     pos < pos' < length (withEOF tokenized)) /\
     (forall c pos', consumeComplexSelector (withEOF tokenized) fuel pos = Ok c pos' ->
                     pos < pos' < length (withEOF tokenized)) /\
     (forall s pos', consumeSimpleSelector (withEOF tokenized) fuel pos = Ok s pos' ->
                     pos < pos' < length (withEOF tokenized))) /\
  parseCSSTokens tokensOpenBracket = Thrown (UnexpectedToken newEOFToken) /\
  parseCSSTokens tokensOpenFunction = Thrown (UnexpectedToken newEOFToken) /\
  parseCSSTokens tokensTrailingCombinator = Thrown (UnexpectedToken newEOFToken).
Proof.
  split; [|split; [|repeat split; reflexivity]].
  - intros tokenized. unfold parseCSSTokens.
    destruct (find isUnsupportedToken (withEOF tokenized)); [split; discriminate|].
    destruct (consumeFunctionArguments_terminates (withEOF tokenized)
                (withEOF_endsWithEOF tokenized)) as [H1 H2].
    destruct (consumeFunctionArguments (withEOF tokenized)
                (fuelFor (withEOF tokenized)) 0) as [result pos|e|].
    + destruct (negb (isEOF (withEOF tokenized) pos)); [split; discriminate|].
      destruct (existsb notComplexSelector result); split; discriminate.
    + split; congruence.
    + congruence.
  - intros tokenized fuel pos Hlt.
    pose proof (withEOF_endsWithEOF tokenized) as He.
    split; [|split; [|split]]; intros a pos' H.
    all: first [ apply (consumeFunctionArguments_forward _ He fuel pos a pos' Hlt H)
               | apply (consumeArgument_forward _ He fuel pos a pos' Hlt H)
               | apply (consumeComplexSelector_forward _ He fuel pos a pos' Hlt H)
               | apply (consumeSimpleSelector_forward _ He fuel pos a pos' Hlt H) ].
Qed.

Example parseCSS_terminates_witness :
  0 < length (withEOF tokensChild) /\
  forall c pos', consumeComplexSelector (withEOF tokensChild) 20 0 = Ok c pos' ->
                 0 < pos' < length (withEOF tokensChild).
Proof.
  split; [simpl; lia|].
  apply (proj1 (proj2 parseCSS_terminates) tokensChild 20 0). simpl; lia.
Defined.

(** What a returned selector list comes from. *)
Lemma parseCSSTokens_returned (tokenized : list Token) (selectors : CSSSelectorList) :
  parseCSSTokens tokenized = Returned selectors ->
  exists pos,
    consumeFunctionArguments (withEOF tokenized) (fuelFor (withEOF tokenized)) 0
      = Ok (map ArgSelector selectors) pos /\
    isEOF (withEOF tokenized) pos = true.
Proof.
  unfold parseCSSTokens.
  destruct (find isUnsupportedToken (withEOF tokenized)); [discriminate|].
  destruct (consumeFunctionArguments (withEOF tokenized)
              (fuelFor (withEOF tokenized)) 0) as [result pos|e|]; try discriminate.
  destruct (isEOF (withEOF tokenized) pos) eqn:Eeof; simpl; [|discriminate].
  destruct (existsb notComplexSelector result) eqn:Ex; [discriminate|].
  intros [= <-]. exists pos. split; [|exact Eeof]. f_equal.
  clear -Ex. induction result as [|arg result IH]; [reflexivity|].
  simpl in Ex. apply orb_false_iff in Ex as [Ha Hr].
  destruct arg; try discriminate. simpl. now rewrite <- IH.
Qed.

(** C2: [parseCSS] returns only when the outermost argument list was
    consumed up to the end-of-input token and every argument is a complex
    selector; when the list was consumed but the cursor is not on the
    end-of-input token, or some argument is a number or a string, it
    throws the error whose message is the fixed text followed by the
    whole selector between double quotes. *)
Theorem parseCSS_top_level_condition :
  (forall tokenized selectors,
     parseCSSTokens tokenized = Returned selectors ->
     exists pos,
       consumeFunctionArguments (withEOF tokenized) (fuelFor (withEOF tokenized)) 0
         = Ok (map ArgSelector selectors) pos /\
       isEOF (withEOF tokenized) pos = true) /\
  (forall selector tokenized result pos,
     find isUnsupportedToken (withEOF tokenized) = None ->
     consumeFunctionArguments (withEOF tokenized) (fuelFor (withEOF tokenized)) 0
       = Ok result pos ->
     isEOF (withEOF tokenized) pos = false \/ existsb notComplexSelector result = true ->
     parseCSSTokens tokenized = Thrown ParsingError /\
     message selector ParsingError
       = ("Error while parsing selector " ++ dquote ++ selector ++ dquote)%string) /\
  parseCSSTokens [str "foo"] = Thrown ParsingError /\
  parseCSSTokens [num 2%float "2"] = Thrown ParsingError /\
  parseCSSTokens [ident "a"; closeParen] = Thrown ParsingError.
Proof.
  split; [|split; [|repeat split; reflexivity]].
  - exact parseCSSTokens_returned.
  - intros selector tokenized result pos Hfind Hargs Hbad. split; [|reflexivity].
    unfold parseCSSTokens. rewrite Hfind, Hargs.
    destruct Hbad as [-> | ->]; [reflexivity|].
    now destruct (negb (isEOF (withEOF tokenized) pos)).
Qed.

Example parseCSS_top_level_condition_witness :
  parseCSSTokens [str "foo"] = Thrown ParsingError /\
  message "sel" ParsingError
    = ("Error while parsing selector " ++ dquote ++ "sel" ++ dquote)%string.
Proof.
  apply (proj1 (proj2 parseCSS_top_level_condition) "sel" [str "foo"]
           [ArgString "foo"] 1).
  - reflexivity.
  - reflexivity.
  - right. reflexivity.
Defined.

(** C5: a token sequence with a token of a rejected class makes
    [parseCSS] throw the unsupported-token error of the first such token,
    whatever comes after it: the token classes rejected are the eleven
    listed, and the message holds the source text of that token and the
    selector, each between double quotes. *)
Theorem parseCSS_unsupported_token :
  (forall t, isUnsupportedToken t = true <-> In (class t) unsupportedClasses) /\
  (forall selector tokenized,
     existsb isUnsupportedToken tokenized = true ->
     exists before t after,
       tokenized = before ++ t :: after /\
       forallb (fun x => negb (isUnsupportedToken x)) before = true /\
       isUnsupportedToken t = true /\
       parseCSSTokens tokenized = Thrown (UnsupportedToken t) /\
       message selector (UnsupportedToken t)
         = ("Unsupported token " ++ dquote ++ toSource t ++ dquote
              ++ " while parsing selector " ++ dquote ++ selector ++ dquote)%string).
Proof.
  split.
  - intros [c src]. unfold isUnsupportedToken, unsupportedClasses; simpl.
    split.
    + destruct c; try discriminate; intros _; tauto.
    + intros H. repeat (destruct H as [<- | H]; [reflexivity|]). destruct H.
  - intros selector tokenized Hex.
    destruct (find_first _ _ Hex) as (before & t & after & -> & Hb & Ht).
    exists before, t, after. repeat split; auto.
    + unfold parseCSSTokens.
      assert (find isUnsupportedToken (withEOF (before ++ t :: after)) = Some t) as ->;
        [|reflexivity].
      destruct (withEOF_cases (before ++ t :: after)) as [-> | ->].
      * now apply find_app_first.
      * rewrite <- app_assoc. simpl. now apply find_app_first.
    + simpl. unfold quoted. now rewrite !append_assoc.
Qed.

Example parseCSS_unsupported_token_witness :
  exists before t after,
    [ident "a"; mkToken SemicolonToken ";"; ident "b"] = before ++ t :: after /\
    forallb (fun x => negb (isUnsupportedToken x)) before = true /\
    isUnsupportedToken t = true /\
    parseCSSTokens [ident "a"; mkToken SemicolonToken ";"; ident "b"]
      = Thrown (UnsupportedToken t) /\
    message "a;b" (UnsupportedToken t)
      = ("Unsupported token " ++ dquote ++ toSource t ++ dquote
           ++ " while parsing selector " ++ dquote ++ "a;b" ++ dquote)%string.
Proof.
  apply (proj2 parseCSS_unsupported_token "a;b"). reflexivity.
Defined.

(** C4: [consumeArgument] skips whitespace and looks at the token it
    stops on: a number token is consumed as a numeric argument, a string
    token as a string argument, and anything else is handed to
    [consumeComplexSelector]; a string or a number it returns is the value
    of that one token, and a selector it returns did not start on a number
    or string token; so the string between the parentheses of
    [:has-text(...)] is a string argument, not a complex selector. *)
Theorem consumeArgument_disambiguation :
  (forall tokens fuel pos,
     let p := skipWhitespace tokens pos in
     testAt tokens isWhitespaceToken p = false /\
     (forall i, pos <= i < p -> testAt tokens isWhitespaceToken i = true) /\
     consumeArgument tokens (S fuel) pos =
       match tokenAt tokens p with
       | Some (mkToken (NumberToken value) _) => Ok (ArgNumber value) (S p)
       | Some (mkToken (StringToken value) _) => Ok (ArgString value) (S p)
       | _ =>
           let* (c, pos') := consumeComplexSelector tokens fuel p in
           Ok (ArgSelector c) pos'
       end) /\
  (forall tokens fuel pos arg pos',
     consumeArgument tokens fuel pos = Ok arg pos' ->
     match arg with
     | ArgNumber value =>
         option_map class (tokenAt tokens (skipWhitespace tokens pos))
         = Some (NumberToken value) /\ pos' = S (skipWhitespace tokens pos)
     | ArgString value =>
         option_map class (tokenAt tokens (skipWhitespace tokens pos))
         = Some (StringToken value) /\ pos' = S (skipWhitespace tokens pos)
     | ArgSelector _ =>
         isNumber tokens (skipWhitespace tokens pos) = false /\
         isString tokens (skipWhitespace tokens pos) = false
     end) /\
  parseCSSTokens tokensHasText =
    Returned [mkComplex [(mkSimple None [mkFunction "has-text" [ArgString "foo"]], "")]].
Proof.
  split; [|split; [|reflexivity]].
  - intros tokens fuel pos p. split; [apply skipWhitespace_stops|].
    split; [apply skipWhitespace_skips|].
    simpl. fold p. destruct (tokenAt tokens p) as [[c src]|]; [|reflexivity].
    destruct c; reflexivity.
  - intros tokens [|fuel] pos arg pos'; [discriminate|]. simpl.
    unfold isNumber, isString, testAt.
    set (p := skipWhitespace tokens pos).
    destruct (tokenAt tokens p) as [[c src]|]; simpl.
    + destruct c;
        try (destruct (consumeComplexSelector tokens fuel p); simpl;
             try discriminate; intros [= <- _]; split; reflexivity).
      all: intros [= <- <-]; split; reflexivity.
    + destruct (consumeComplexSelector tokens fuel p); simpl; try discriminate.
      intros [= <- _]. split; reflexivity.
Qed.

Example consumeArgument_disambiguation_witness :
  consumeArgument (withEOF tokensHasText) 10 2 = Ok (ArgString "foo") 3 /\
  option_map class (tokenAt (withEOF tokensHasText) 2) = Some (StringToken "foo").
Proof.
  split; [reflexivity|].
  apply (proj1 (proj2 consumeArgument_disambiguation)
           (withEOF tokensHasText) 10 2 (ArgString "foo") 3 eq_refl).
Defined.

(** ** Whitespace-only input and empty simple selectors *)

Lemma advanceWhile_app (test : Token -> bool) (l : list Token) (t : Token)
    (rest : list Token) (pos : nat) :
  forallb test l = true -> test t = false ->
  advanceWhile test (l ++ t :: rest) pos = pos + length l.
Proof.
  revert pos. induction l as [|x l IH]; intros pos Hl Ht; simpl.
  - rewrite Ht. lia.
  - simpl in Hl. apply andb_true_iff in Hl as [-> Hl]. rewrite IH by assumption. lia.
Qed.

Lemma isEOFToken_class (t : Token) : isEOFToken t = true -> class t = EOFToken.
Proof. unfold isEOFToken. destruct (class t); congruence. Qed.

(** A simple selector cannot start on a clause end. *)
Lemma consumeSimpleSelector_at_clause_end (tokens : list Token) (fuel pos : nat) :
  isSelectorClauseEnd tokens pos = true ->
  consumeSimpleSelector tokens (S (S fuel)) pos = Throw (unexpected tokens pos).
Proof. intros H. simpl. now rewrite H. Qed.

(** An argument list cannot start on a clause end: after the whitespace
    there has to be a number, a string or a simple selector. *)
Lemma consumeFunctionArguments_at_clause_end (tokens : list Token) (fuel pos : nat) :
  isSelectorClauseEnd tokens (skipWhitespace tokens pos) = true ->
  consumeFunctionArguments tokens (5 + fuel) pos
  = Throw (unexpected tokens (skipWhitespace tokens pos)).
Proof.
  intros Hend. set (q := skipWhitespace tokens pos) in *.
  change (5 + fuel) with (S (S (S (S (S fuel))))).
  cbn [consumeFunctionArguments]. cbn [consumeArgument]. fold q.
  assert (Hcs : consumeComplexSelector tokens (S (S (S fuel))) q
                = Throw (unexpected tokens q)).
  { cbn [consumeComplexSelector]. unfold q at 1. rewrite skipWhitespace_idem. fold q.
    now rewrite consumeSimpleSelector_at_clause_end. }
  rewrite Hcs.
  unfold isSelectorClauseEnd, isComma, isCloseParen, isEOF, isClauseCombinator,
    testAt in Hend.
  destruct (tokenAt tokens q) as [[c src]|]; [|reflexivity].
  destruct c; try reflexivity; discriminate.
Qed.

(** On whitespace up to the end of input, the outermost rule fails on
    the end-of-input token. *)
Lemma consumeFunctionArguments_whitespace (spaces : list Token) (eof : Token)
    (fuel : nat) :
  forallb isWhitespaceToken spaces = true -> isEOFToken eof = true ->
  consumeFunctionArguments (spaces ++ [eof]) (5 + fuel) 0 = Throw (UnexpectedToken eof).
Proof.
  intros Hs He. set (tokens := spaces ++ [eof]).
  assert (Hskip : skipWhitespace tokens 0 = length spaces).
  { unfold skipWhitespace, tokens. simpl skipn.
    rewrite advanceWhile_app; auto.
    unfold isWhitespaceToken. now rewrite (isEOFToken_class _ He). }
  assert (Hat : tokenAt tokens (length spaces) = Some eof).
  { unfold tokenAt, tokens. rewrite nth_error_app2 by lia.
    now rewrite Nat.sub_diag. }
  rewrite consumeFunctionArguments_at_clause_end; rewrite Hskip.
  - unfold unexpected. now rewrite Hat.
  - unfold isSelectorClauseEnd, isEOF, testAt. rewrite Hat, He.
    now rewrite !orb_true_r.
Qed.

Lemma withEOF_whitespace (spaces : list Token) :
  forallb isWhitespaceToken spaces = true ->
  withEOF spaces = spaces ++ [newEOFToken].
Proof.
  intros Hs. unfold withEOF.
  destruct spaces as [|x l _] using rev_ind; [reflexivity|].
  rewrite map_app. simpl map. rewrite last_last.
  rewrite forallb_app in Hs. apply andb_true_iff in Hs as [_ Hx]. simpl in Hx.
  unfold isWhitespaceToken, isEOFToken in *. destruct (class x); try discriminate.
  reflexivity.
Qed.

Lemma withEOF_terminated (l : list Token) (eof : Token) :
  isEOFToken eof = true -> withEOF (l ++ [eof]) = l ++ [eof].
Proof.
  intros He. unfold withEOF. rewrite map_app. simpl map. rewrite last_last.
  now rewrite He.
Qed.

Lemma find_unsupported_whitespace (spaces : list Token) (eof : Token) :
  forallb isWhitespaceToken spaces = true -> isEOFToken eof = true ->
  find isUnsupportedToken (spaces ++ [eof]) = None.
Proof.
  intros Hs He. induction spaces as [|x l IH]; simpl.
  - unfold isUnsupportedToken. now rewrite (isEOFToken_class _ He).
  - simpl in Hs. apply andb_true_iff in Hs as [Hx Hl]. rewrite IH by assumption.
    unfold isWhitespaceToken, isUnsupportedToken in *.
    destruct (class x); try discriminate; reflexivity.
Qed.

Lemma parseCSSTokens_whitespace (spaces : list Token) (eof : Token) :
  forallb isWhitespaceToken spaces = true -> isEOFToken eof = true ->
  withEOF (spaces ++ [eof]) = spaces ++ [eof] /\
  parseCSSTokens (spaces ++ [eof]) = Thrown (UnexpectedToken eof).
Proof.
  intros Hs He. pose proof (withEOF_terminated spaces eof He) as Hw.
  split; [exact Hw|].
  unfold parseCSSTokens. rewrite Hw, find_unsupported_whitespace by assumption.
  change (fuelFor (spaces ++ [eof])) with (5 * length (spaces ++ [eof]) + 5).
  rewrite Nat.add_comm.
  now rewrite consumeFunctionArguments_whitespace.
Qed.

(** What the loop of [consumeSimpleSelector] returns is never empty. *)
Lemma consumeSimpleSelectorLoop_not_empty (tokens : list Token) (fuel : nat) :
  forall rawCSSString fns pos s pos',
    consumeSimpleSelectorLoop tokens fuel rawCSSString fns pos = Ok s pos' ->
    (exists raw, css s = Some raw /\ raw <> "") \/ functions s <> [].
Proof.
  induction fuel as [|fuel IH]; intros raw fns pos s pos'; [discriminate|].
  simpl.
  destruct (isSelectorClauseEnd tokens pos).
  { destruct (String.eqb raw "") eqn:Eraw; simpl.
    - destruct fns as [|f fns]; simpl; [discriminate|].
      intros [= <- _]. right. discriminate.
    - intros [= <- _]. left. exists raw. unfold simpleSelectorOf. rewrite Eraw.
      split; [reflexivity|]. now apply String.eqb_neq. }
  destruct (tokenAt tokens pos) as [t|]; [|discriminate].
  destruct (isIdentToken t || isDelimToken "*" t); [apply IH|].
  destruct (isHashToken t); [apply IH|].
  destruct (isDelimToken "." t).
  { destruct (tokenAt tokens (S pos)) as [t'|]; [|discriminate].
    destruct (isIdentToken t'); [apply IH | discriminate]. }
  destruct (isColonToken t).
  { destruct (tokenAt tokens (S pos)) as [[c src]|]; [|discriminate].
    destruct c; try discriminate.
    - destruct (has builtinCSSFilters value); apply IH.
    - destruct (has builtinCSSFunctions value).
      + destruct (consumeBuiltinFunctionArguments tokens (S (S pos)));
          simpl; try discriminate.
        destruct (negb (isCloseParen tokens (skipWhitespace tokens pos0)));
          [discriminate | apply IH].
      + destruct (consumeFunctionArguments tokens fuel (S (S pos)));
          simpl; try discriminate.
        destruct (negb (isCloseParen tokens (skipWhitespace tokens pos0)));
          [discriminate | apply IH]. }
  destruct (isOpenSquareToken t); [|discriminate].
  destruct (consumeSquareBrackets tokens (raw ++ "[") (S pos)); simpl; try discriminate.
  destruct (negb (testAt tokens isCloseSquareToken pos0)); [discriminate | apply IH].
Qed.

(** C6: an input of whitespace tokens only, the empty input among them,
    makes [parseCSS] throw the unexpected-token error at the end-of-input
    token, whether the tokenizer ended the sequence with that token or
    [parseCSS] pushed it; and a simple selector that [consumeSimpleSelector]
    returns has a non-empty raw text or at least one function. *)
Theorem parseCSS_empty_selector :
  (forall spaces,
     forallb isWhitespaceToken spaces = true ->
     parseCSSTokens spaces = Thrown (UnexpectedToken newEOFToken)) /\
  (forall spaces eof,
     forallb isWhitespaceToken spaces = true -> isEOFToken eof = true ->
     parseCSSTokens (spaces ++ [eof]) = Thrown (UnexpectedToken eof)) /\
  parseCSSTokens [] = Thrown (UnexpectedToken newEOFToken) /\
  (forall tokens fuel pos s pos',
     consumeSimpleSelector tokens fuel pos = Ok s pos' ->
     (exists raw, css s = Some raw /\ raw <> "") \/ functions s <> []) /\
  (forall tokens fuel pos,
     isSelectorClauseEnd tokens pos = true ->
     consumeSimpleSelectorLoop tokens (S fuel) "" [] pos = Throw (unexpected tokens pos)).
Proof.
  split; [|split; [|split; [reflexivity|split]]].
  - intros spaces Hs.
    destruct (parseCSSTokens_whitespace spaces newEOFToken Hs eq_refl) as [Hw Hp].
    unfold parseCSSTokens in *. rewrite Hw in Hp.
    now rewrite (withEOF_whitespace spaces Hs).
  - intros spaces eof Hs He. now apply parseCSSTokens_whitespace.
  - intros tokens [|fuel] pos s pos'; [discriminate|]. simpl.
    apply consumeSimpleSelectorLoop_not_empty.
  - intros tokens fuel pos H. simpl. now rewrite H.
Qed.

Example parseCSS_empty_selector_witness :
  parseCSSTokens [ws; ws; ws] = Thrown (UnexpectedToken newEOFToken).
Proof. apply (proj1 parseCSS_empty_selector). reflexivity. Defined.

(** ** The shape of complex selectors *)

Lemma wellFormedComplex_unfold (l : list (CSSSimpleSelector * string)) :
  wellFormedComplex (mkComplex l) =
  match lastCombinator l with
  | Some c => String.eqb c ""
  | None => false
  end && forallb (fun p => wellFormedSimple (fst p)) l.
Proof.
  unfold wellFormedComplex. simpl. f_equal.
  induction l as [|[s c] l IH]; simpl; [reflexivity|]. now rewrite IH.
Qed.

Lemma lastCombinator_snoc (l : list (CSSSimpleSelector * string))
    (s : CSSSimpleSelector) (c : string) :
  lastCombinator (l ++ [(s, c)]) = Some c.
Proof.
  induction l as [|[s0 c0] l IH]; [reflexivity|].
  simpl app. simpl. rewrite IH. now destruct (l ++ [(s, c)]) eqn:E.
Qed.

Lemma setLastCombinator_snoc (l : list (CSSSimpleSelector * string))
    (s : CSSSimpleSelector) (c value : string) :
  setLastCombinator (l ++ [(s, c)]) value = l ++ [(s, value)].
Proof.
  induction l as [|[s0 c0] l IH]; [reflexivity|].
  simpl app. simpl. rewrite IH.
  destruct (l ++ [(s, c)]) eqn:E; [|reflexivity].
  now destruct l.
Qed.

Lemma setLastCombinator_cons (a x : CSSSimpleSelector * string)
    (l : list (CSSSimpleSelector * string)) (value : string) :
  setLastCombinator (a :: x :: l) value = a :: setLastCombinator (x :: l) value.
Proof. destruct a. reflexivity. Qed.

Lemma setLastCombinator_simple (P : CSSSimpleSelector -> bool)
    (l : list (CSSSimpleSelector * string)) (value : string) :
  forallb (fun p => P (fst p)) (setLastCombinator l value)
  = forallb (fun p => P (fst p)) l.
Proof.
  induction l as [|[s0 c0] l IH]; [reflexivity|].
  destruct l as [|x l]; [reflexivity|].
  rewrite setLastCombinator_cons. cbn [forallb]. rewrite IH. reflexivity.
Qed.

Lemma wellFormedComplex_push (result : list (CSSSimpleSelector * string))
    (s : CSSSimpleSelector) :
  forallb (fun p => wellFormedSimple (fst p)) result = true ->
  wellFormedSimple s = true ->
  wellFormedComplex (mkComplex (result ++ [(s, "")])) = true.
Proof.
  intros Hr Hs. rewrite wellFormedComplex_unfold, lastCombinator_snoc.
  rewrite forallb_app, Hr. simpl. now rewrite Hs.
Qed.

Lemma wellFormedComplex_simples (result : list (CSSSimpleSelector * string)) :
  wellFormedComplex (mkComplex result) = true ->
  forallb (fun p => wellFormedSimple (fst p)) result = true.
Proof.
  rewrite wellFormedComplex_unfold. intros H. now apply andb_true_iff in H.
Qed.

Lemma rules_wellFormed (tokens : list Token) : forall fuel, rulesWellFormed tokens fuel.
Proof.
  induction fuel as [|fuel IH].
  - unfold rulesWellFormed; repeat split; intros; discriminate.
  - destruct IH as (IHfa & IHfal & IHarg & IHcs & IHcsl & IHss & IHssl).
    unfold rulesWellFormed; repeat split.
    + intros pos args pos'. simpl.
      destruct (consumeArgument tokens fuel pos) as [arg p1|e|] eqn:Ea;
        simpl; try discriminate.
      apply IHfal. simpl. now rewrite (IHarg _ _ _ Ea).
    + intros result pos args pos' Hres. simpl.
      destruct (negb (isComma tokens (skipWhitespace tokens pos))).
      { now intros [= <- _]. }
      destruct (consumeArgument tokens fuel (S (skipWhitespace tokens pos)))
        as [arg p1|e|] eqn:Ea; simpl; try discriminate.
      apply IHfal. rewrite forallb_app, Hres. simpl. now rewrite (IHarg _ _ _ Ea).
    + intros pos arg pos'. simpl.
      assert (Hcs : bind (consumeComplexSelector tokens fuel (skipWhitespace tokens pos))
                      (fun c p => Ok (ArgSelector c) p) = Ok arg pos' ->
                    wellFormedArgument arg = true).
      { destruct (consumeComplexSelector tokens fuel (skipWhitespace tokens pos))
          as [c p1|e|] eqn:Ec; simpl; try discriminate.
        intros [= <- _]. exact (IHcs _ _ _ Ec). }
      destruct (tokenAt tokens (skipWhitespace tokens pos)) as [[c src]|];
        [|exact Hcs].
      destruct c; try exact Hcs; now intros [= <- _].
    + intros pos c pos'. simpl.
      destruct (consumeSimpleSelector tokens fuel (skipWhitespace tokens pos))
        as [sel p1|e|] eqn:Es; simpl; try discriminate.
      apply IHcsl. apply (wellFormedComplex_push []); [reflexivity|].
      exact (IHss _ _ _ Es).
    + intros result pos c pos' Hres. simpl.
      pose proof (wellFormedComplex_simples _ Hres) as Hsimples.
      destruct (clauseCombinatorAt tokens (skipWhitespace tokens pos)) as [value|].
      * destruct (consumeSimpleSelector tokens fuel
                    (skipWhitespace tokens (S (skipWhitespace tokens pos))))
          as [sel p1|e|] eqn:Es; simpl; try discriminate.
        apply IHcsl. apply wellFormedComplex_push; [|exact (IHss _ _ _ Es)].
        now rewrite setLastCombinator_simple.
      * destruct (isSelectorClauseEnd tokens (skipWhitespace tokens pos)).
        { now intros [= <- _]. }
        destruct (consumeSimpleSelector tokens fuel (skipWhitespace tokens pos))
          as [sel p1|e|] eqn:Es; simpl; try discriminate.
        apply IHcsl. apply wellFormedComplex_push; [assumption|].
        exact (IHss _ _ _ Es).
    + intros pos s pos'. simpl. now apply IHssl.
    + intros raw fns pos s pos' Hfns. simpl.
      destruct (isSelectorClauseEnd tokens pos).
      { destruct (String.eqb raw "" && Nat.eqb (length fns) 0); [discriminate|].
        now intros [= <- _]. }
      destruct (tokenAt tokens pos) as [t|]; [|discriminate].
      destruct (isIdentToken t || isDelimToken "*" t); [now apply IHssl|].
      destruct (isHashToken t); [now apply IHssl|].
      destruct (isDelimToken "." t).
      { destruct (tokenAt tokens (S pos)) as [t'|]; [|discriminate].
        destruct (isIdentToken t'); [now apply IHssl | discriminate]. }
      destruct (isColonToken t).
      { destruct (tokenAt tokens (S pos)) as [[c src]|]; [|discriminate].
        destruct c; try discriminate.
        - destruct (has builtinCSSFilters value); apply IHssl; auto.
          rewrite forallb_app, Hfns. reflexivity.
        - destruct (has builtinCSSFunctions value).
          + destruct (consumeBuiltinFunctionArguments tokens (S (S pos)));
              simpl; try discriminate.
            destruct (negb (isCloseParen tokens (skipWhitespace tokens pos0)));
              [discriminate | now apply IHssl].
          + destruct (consumeFunctionArguments tokens fuel (S (S pos)))
              as [args p1|e|] eqn:Ea; simpl; try discriminate.
            destruct (negb (isCloseParen tokens (skipWhitespace tokens p1)));
              [discriminate|].
            apply IHssl. rewrite forallb_app, Hfns. simpl.
            now rewrite (IHfa _ _ _ Ea). }
      destruct (isOpenSquareToken t); [|discriminate].
      destruct (consumeSquareBrackets tokens (raw ++ "[") (S pos));
        simpl; try discriminate.
      destruct (negb (testAt tokens isCloseSquareToken pos0));
        [discriminate | now apply IHssl].
Qed.

Lemma forallb_map_ArgSelector (selectors : CSSSelectorList) :
  forallb wellFormedArgument (map ArgSelector selectors)
  = forallb wellFormedComplex selectors.
Proof.
  induction selectors as [|c l IH]; [reflexivity|].
  simpl map. cbn [forallb]. now rewrite IH.
Qed.

(** C7: every complex selector of a selector list that [parseCSS]
    returns, those nested in the arguments of functions included, has a
    non-empty sequence of simple selectors whose last element has the
    empty string as its combinator. *)
Theorem parseCSS_wellFormed (tokenized : list Token) (selectors : CSSSelectorList) :
  parseCSSTokens tokenized = Returned selectors ->
  forallb wellFormedComplex selectors = true /\
  forall c, In c selectors ->
            simple c <> [] /\ lastCombinator (simple c) = Some "".
Proof.
  intros H. destruct (parseCSSTokens_returned _ _ H) as (pos & Hargs & _).
  destruct (rules_wellFormed (withEOF tokenized) (fuelFor (withEOF tokenized)))
    as (Hfa & _).
  apply Hfa in Hargs. rewrite forallb_map_ArgSelector in Hargs.
  split; [exact Hargs|].
  intros c Hc. rewrite forallb_forall in Hargs. specialize (Hargs c Hc).
  destruct c as [l]. change (wellFormedComplex (mkComplex l) = true) in Hargs.
  rewrite wellFormedComplex_unfold in Hargs. simpl.
  destruct (lastCombinator l) as [comb|] eqn:E; [|discriminate].
  apply andb_true_iff in Hargs as [Hcomb _]. apply String.eqb_eq in Hcomb.
  subst comb. split; [|reflexivity]. now destruct l.
Qed.

Example parseCSS_wellFormed_witness :
  exists selectors,
    parseCSSTokens tokensNested = Returned selectors /\
    forallb wellFormedComplex selectors = true.
Proof.
  eexists. split; [reflexivity|].
  apply (parseCSS_wellFormed tokensNested). reflexivity.
Defined.

(** ** Combinators *)

Lemma has_In (set : list string) (x : string) : has set x = true <-> In x set.
Proof.
  unfold has. rewrite existsb_exists. split.
  - intros (y & Hy & E). apply String.eqb_eq in E. now subst.
  - intros H. exists x. split; [exact H | apply String.eqb_refl].
Qed.

Lemma clauseCombinatorAt_Some (tokens : list Token) (pos : nat) (value : string) :
  clauseCombinatorAt tokens pos = Some value <->
  exists src, tokenAt tokens pos = Some (mkToken (DelimToken value) src) /\
              In value [">"; "+"; "~"].
Proof.
  unfold clauseCombinatorAt. split.
  - destruct (tokenAt tokens pos) as [[c src]|]; [|discriminate]. simpl.
    destruct c; try discriminate.
    destruct (has [">"; "+"; "~"] value0) eqn:E; [|discriminate].
    intros [= ->]. exists src. split; [reflexivity | exact (proj1 (has_In _ _) E)].
  - intros (src & -> & Hin). simpl. now rewrite (proj2 (has_In _ _) Hin).
Qed.

(** C9: when the loop of [consumeComplexSelector] finds, after
    whitespace, a delimiter token whose value is one of the three
    combinators, that value becomes the combinator of the simple selector
    before it, whitespace is skipped and a further simple selector is
    parsed and pushed with an empty combinator; a clause end in its place
    is an unexpected token.  The tokens of [div > span] give one complex
    selector of two simple selectors. *)
Theorem combinator_attached_to_preceding :
  (forall tokens pos value,
     clauseCombinatorAt tokens pos = Some value <->
     exists src, tokenAt tokens pos = Some (mkToken (DelimToken value) src) /\
                 In value [">"; "+"; "~"]) /\
  (forall tokens fuel result selector c pos value,
     clauseCombinatorAt tokens (skipWhitespace tokens pos) = Some value ->
     consumeComplexSelectorLoop tokens (S fuel) (result ++ [(selector, c)]) pos =
       let* (next, pos') :=
         consumeSimpleSelector tokens fuel
           (skipWhitespace tokens (S (skipWhitespace tokens pos))) in
       consumeComplexSelectorLoop tokens fuel
         ((result ++ [(selector, value)]) ++ [(next, "")]) pos') /\
  (forall tokens fuel result pos value,
     clauseCombinatorAt tokens (skipWhitespace tokens pos) = Some value ->
     isSelectorClauseEnd tokens
       (skipWhitespace tokens (S (skipWhitespace tokens pos))) = true ->
     consumeComplexSelectorLoop tokens (S (S (S fuel))) result pos =
       Throw (unexpected tokens
                (skipWhitespace tokens (S (skipWhitespace tokens pos))))) /\
  parseCSSTokens tokensChild =
    Returned [mkComplex [(mkSimple (Some "div") [], ">");
                         (mkSimple (Some "span") [], "")]].
Proof.
  split; [exact clauseCombinatorAt_Some|].
  split; [|split; [|reflexivity]].
  - intros tokens fuel result selector c pos value H.
    cbn [consumeComplexSelectorLoop]. rewrite H.
    now rewrite setLastCombinator_snoc.
  - intros tokens fuel result pos value H Hend.
    cbn [consumeComplexSelectorLoop]. rewrite H.
    rewrite consumeSimpleSelector_at_clause_end by exact Hend. reflexivity.
Qed.

Example combinator_attached_to_preceding_witness :
  consumeComplexSelectorLoop (withEOF tokensTrailingCombinator) 3 [] 1
  = Throw (UnexpectedToken newEOFToken).
Proof.
  apply (proj1 (proj2 (proj2 combinator_attached_to_preceding))
           (withEOF tokensTrailingCombinator) 0 [] 1 ">"); reflexivity.
Defined.

(** ** Custom pseudo-classes and functions *)

Lemma consumeFunctionArgumentsLoop_grows (tokens : list Token) (fuel : nat) :
  forall result pos args pos',
    consumeFunctionArgumentsLoop tokens fuel result pos = Ok args pos' ->
    length result <= length args.
Proof.
  induction fuel as [|fuel IH]; intros result pos args pos'; [discriminate|].
  simpl. destruct (negb (isComma tokens (skipWhitespace tokens pos))).
  - intros [= <- _]. lia.
  - destruct (consumeArgument tokens fuel (S (skipWhitespace tokens pos)));
      simpl; try discriminate.
    intros H. apply IH in H. rewrite length_app in H. lia.
Qed.

Lemma colon_not_clause_end (tokens : list Token) (pos : nat) (t : Token) :
  tokenAt tokens pos = Some t -> class t = ColonToken ->
  isSelectorClauseEnd tokens pos = false.
Proof.
  intros Ht Hc.
  unfold isSelectorClauseEnd, isComma, isCloseParen, isEOF, isClauseCombinator, testAt.
  rewrite Ht.
  unfold isCommaToken, isCloseParenToken, isEOFToken, isClauseCombinatorToken,
    isWhitespaceToken.
  now rewrite Hc.
Qed.

(** The branch of [consumeSimpleSelector] for a colon. *)
Lemma consumeSimpleSelectorLoop_colon (tokens : list Token) (fuel : nat)
    (raw : string) (fns : list CSSFunction) (pos : nat) (t : Token) :
  tokenAt tokens pos = Some t -> class t = ColonToken ->
  consumeSimpleSelectorLoop tokens (S fuel) raw fns pos =
  match tokenAt tokens (S pos) with
  | Some (mkToken (IdentToken value) source) =>
      if has builtinCSSFilters value then
        consumeSimpleSelectorLoop tokens fuel (raw ++ ":" ++ source) fns (S (S pos))
      else
        consumeSimpleSelectorLoop tokens fuel raw (fns ++ [mkFunction value []])
          (S (S pos))
  | Some (mkToken (FunctionToken name) _) =>
      if has builtinCSSFunctions name then
        let* (s, pos') := consumeBuiltinFunctionArguments tokens (S (S pos)) in
        if negb (isCloseParen tokens (skipWhitespace tokens pos'))
        then Throw (unexpected tokens (skipWhitespace tokens pos'))
        else consumeSimpleSelectorLoop tokens fuel
               (raw ++ ":" ++ name ++ "(" ++ s ++ ")") fns
               (S (skipWhitespace tokens pos'))
      else
        let* (args, pos') := consumeFunctionArguments tokens fuel (S (S pos)) in
        if negb (isCloseParen tokens (skipWhitespace tokens pos'))
        then Throw (unexpected tokens (skipWhitespace tokens pos'))
        else consumeSimpleSelectorLoop tokens fuel raw
               (fns ++ [mkFunction name args]) (S (skipWhitespace tokens pos'))
  | _ => Throw (unexpected tokens (S pos))
  end.
Proof.
  intros Ht Hc. cbn [consumeSimpleSelectorLoop].
  rewrite (colon_not_clause_end tokens pos t Ht Hc), Ht.
  unfold isIdentToken, isDelimToken, isHashToken, isColonToken. rewrite Hc.
  reflexivity.
Qed.

Lemma consumeSimpleSelectorLoop_custom_ident (tokens : list Token) (fuel : nat)
    (raw : string) (fns : list CSSFunction) (pos : nat) (t : Token)
    (name source : string) :
  tokenAt tokens pos = Some t -> class t = ColonToken ->
  tokenAt tokens (S pos) = Some (mkToken (IdentToken name) source) ->
  has builtinCSSFilters name = false ->
  consumeSimpleSelectorLoop tokens (S fuel) raw fns pos =
  consumeSimpleSelectorLoop tokens fuel raw (fns ++ [mkFunction name []]) (S (S pos)).
Proof.
  intros Ht Hc Hnext Hname.
  rewrite (consumeSimpleSelectorLoop_colon tokens fuel raw fns pos t Ht Hc).
  now rewrite Hnext, Hname.
Qed.

Lemma consumeSimpleSelectorLoop_empty_parens (tokens : list Token) (fuel : nat)
    (raw : string) (fns : list CSSFunction) (pos : nat) (t : Token)
    (name source : string) :
  tokenAt tokens pos = Some t -> class t = ColonToken ->
  tokenAt tokens (S pos) = Some (mkToken (FunctionToken name) source) ->
  has builtinCSSFunctions name = false ->
  isCloseParen tokens (skipWhitespace tokens (S (S pos))) = true ->
  consumeSimpleSelectorLoop tokens (6 + fuel) raw fns pos =
  Throw (unexpected tokens (skipWhitespace tokens (S (S pos)))).
Proof.
  intros Ht Hc Hnext Hname Hclose.
  change (6 + fuel) with (S (5 + fuel)).
  rewrite (consumeSimpleSelectorLoop_colon tokens _ raw fns pos t Ht Hc).
  rewrite Hnext, Hname.
  rewrite consumeFunctionArguments_at_clause_end; [reflexivity|].
  unfold isSelectorClauseEnd. rewrite Hclose. now rewrite orb_true_r.
Qed.

(** The outermost rule on a token that starts a simple selector: the
    calls down to the loop of [consumeSimpleSelector] and the loops that
    follow it. *)
Lemma consumeFunctionArguments_selector (tokens : list Token) (fuel pos : nat)
    (t : Token) :
  tokenAt tokens pos = Some t ->
  isWhitespaceToken t = false -> isNumberToken t = false -> isStringToken t = false ->
  consumeFunctionArguments tokens (4 + fuel) pos =
  let* (arg, pos1) :=
    (let* (c, pos2) :=
       (let* (selector, pos3) := consumeSimpleSelectorLoop tokens fuel "" [] pos in
        consumeComplexSelectorLoop tokens (S fuel) [(selector, "")] pos3) in
     Ok (ArgSelector c) pos2) in
  consumeFunctionArgumentsLoop tokens (3 + fuel) [arg] pos1.
Proof.
  intros Ht Hws Hnum Hstr.
  assert (Hskip : skipWhitespace tokens pos = pos)
    by (apply skipWhitespace_id; unfold testAt; now rewrite Ht).
  change (4 + fuel) with (S (S (S (S fuel)))). change (3 + fuel) with (S (S (S fuel))).
  cbn [consumeFunctionArguments]. cbn [consumeArgument]. rewrite Hskip, Ht.
  cbn [consumeComplexSelector]. rewrite Hskip. cbn [consumeSimpleSelector].
  unfold isNumberToken, isStringToken in *.
  destruct t as [c src]. simpl in *. destruct c; try discriminate; reflexivity.
Qed.

(** C10: for a name outside the built-in tables, a colon and the bare
    identifier record a function of that name with no argument, while a
    colon, the function token and a close parenthesis (after optional
    whitespace) are an unexpected-token error at that parenthesis: an
    argument list that [consumeFunctionArguments] returns is never empty,
    and it fails on a clause end where an argument should start. *)
Theorem custom_function_without_arguments :
  (forall tokens fuel raw fns pos t name source,
     tokenAt tokens pos = Some t -> class t = ColonToken ->
     tokenAt tokens (S pos) = Some (mkToken (IdentToken name) source) ->
     has builtinCSSFilters name = false ->
     consumeSimpleSelectorLoop tokens (S fuel) raw fns pos =
     consumeSimpleSelectorLoop tokens fuel raw (fns ++ [mkFunction name []])
       (S (S pos))) /\
  (forall tokens fuel raw fns pos t name source,
     tokenAt tokens pos = Some t -> class t = ColonToken ->
     tokenAt tokens (S pos) = Some (mkToken (FunctionToken name) source) ->
     has builtinCSSFunctions name = false ->
     isCloseParen tokens (skipWhitespace tokens (S (S pos))) = true ->
     consumeSimpleSelectorLoop tokens (6 + fuel) raw fns pos =
     Throw (unexpected tokens (skipWhitespace tokens (S (S pos))))) /\
  (forall tokens fuel pos args pos',
     consumeFunctionArguments tokens fuel pos = Ok args pos' -> args <> []) /\
  (forall name source,
     has builtinCSSFilters name = false ->
     parseCSSTokens [colon; mkToken (IdentToken name) source] =
     Returned [mkComplex [(mkSimple None [mkFunction name []], "")]]) /\
  (forall name source,
     has builtinCSSFunctions name = false ->
     parseCSSTokens [colon; mkToken (FunctionToken name) source; closeParen] =
     Thrown (UnexpectedToken closeParen)).
Proof.
  split; [|split; [|split; [|split]]].
  - exact consumeSimpleSelectorLoop_custom_ident.
  - exact consumeSimpleSelectorLoop_empty_parens.
  - intros tokens [|fuel] pos args pos'; [discriminate|]. simpl.
    destruct (consumeArgument tokens fuel pos); simpl; try discriminate.
    intros H. apply consumeFunctionArgumentsLoop_grows in H.
    destruct args; [simpl in H; lia | discriminate].
  - intros name source Hname.
    unfold parseCSSTokens.
    change (withEOF [colon; mkToken (IdentToken name) source])
      with [colon; mkToken (IdentToken name) source; newEOFToken].
    change (fuelFor [colon; mkToken (IdentToken name) source; newEOFToken])
      with (4 + 16).
    cbn [find isUnsupportedToken class colon newEOFToken].
    rewrite (consumeFunctionArguments_selector _ 16 0 colon) by reflexivity.
    rewrite (consumeSimpleSelectorLoop_custom_ident _ 15 "" [] 0 colon name source)
      by (reflexivity || exact Hname).
    reflexivity.
  - intros name source Hname.
    unfold parseCSSTokens.
    change (withEOF [colon; mkToken (FunctionToken name) source; closeParen])
      with [colon; mkToken (FunctionToken name) source; closeParen; newEOFToken].
    change (fuelFor [colon; mkToken (FunctionToken name) source; closeParen;
                     newEOFToken])
      with (4 + (6 + 15)).
    cbn [find isUnsupportedToken class colon closeParen newEOFToken].
    rewrite (consumeFunctionArguments_selector _ (6 + 15) 0 colon) by reflexivity.
    rewrite (consumeSimpleSelectorLoop_empty_parens _ 15 "" [] 0 colon name source)
      by (reflexivity || exact Hname).
    reflexivity.
Qed.

Example custom_function_without_arguments_witness :
  parseCSSTokens [colon; ident "custom"] =
    Returned [mkComplex [(mkSimple None [mkFunction "custom" []], "")]] /\
  parseCSSTokens [colon; func "custom"; closeParen] =
    Thrown (UnexpectedToken closeParen).
Proof.
  split.
  - apply (proj1 (proj2 (proj2 (proj2 custom_function_without_arguments)))
             "custom" "custom"). reflexivity.
  - apply (proj2 (proj2 (proj2 (proj2 custom_function_without_arguments)))
             "custom" "custom("). reflexivity.
Defined.

(** ** Built-in pseudo-functions *)

Lemma tokenAt_app (before : list Token) (t : Token) (rest : list Token) :
  tokenAt (before ++ t :: rest) (length before) = Some t.
Proof. unfold tokenAt. rewrite nth_error_app2 by lia. now rewrite Nat.sub_diag. Qed.

Lemma skipn_app_length (before rest : list Token) :
  skipn (length before) (before ++ rest) = rest.
Proof. induction before as [|x before IH]; [reflexivity | exact IH]. Qed.

(** On a text without parentheses inside, the first close-parenthesis is
    the matching one. *)
Lemma argumentsUpToMatchingParen_flat (between : list Token) (close : Token)
    (rest : list Token) (s : string) (pos : nat) :
  forallb (fun t => negb (isCloseParenToken t || opensParenToken t)) between = true ->
  isCloseParenToken close = true ->
  argumentsUpToMatchingParen (between ++ close :: rest) 0 s pos
  = Some ((s ++ String.concat "" (map toSource between))%string, pos + length between).
Proof.
  revert s pos. induction between as [|x between IH]; intros s pos Hb Hc; simpl.
  - now rewrite Hc, append_empty_r, Nat.add_0_r.
  - simpl in Hb. apply andb_true_iff in Hb as [Hx Hb].
    apply negb_true_iff, orb_false_iff in Hx as [-> ->].
    rewrite IH by assumption. f_equal. f_equal; [|lia].
    rewrite append_assoc. f_equal.
    destruct between; simpl; [now rewrite append_empty_r | reflexivity].
Qed.

(** The branch of [consumeSimpleSelector] for a built-in function. *)
Lemma consumeSimpleSelectorLoop_builtin (fuel : nat) (raw : string)
    (fns : list CSSFunction) (before : list Token) (c f : Token) (name : string)
    (between : list Token) (close : Token) (rest : list Token) :
  class c = ColonToken -> class f = FunctionToken name ->
  has builtinCSSFunctions name = true ->
  forallb (fun t => negb (isCloseParenToken t || isEOFToken t)) between = true ->
  isCloseParenToken close = true ->
  consumeSimpleSelectorLoop (before ++ c :: f :: between ++ close :: rest)
    (S fuel) raw fns (length before)
  = consumeSimpleSelectorLoop (before ++ c :: f :: between ++ close :: rest) fuel
      (raw ++ ":" ++ name ++ "(" ++ String.concat "" (map toSource between) ++ ")")
      fns (length before + 2 + length between + 1).
Proof.
  intros Hc Hf Hname Hbetween Hclose.
  set (tokens := before ++ c :: f :: between ++ close :: rest).
  set (pos := length before).
  assert (Hat : tokenAt tokens pos = Some c) by apply tokenAt_app.
  assert (Hat' : tokenAt tokens (S pos) = Some f).
  { unfold tokens, pos. change (before ++ c :: f :: between ++ close :: rest)
      with (before ++ [c] ++ f :: between ++ close :: rest).
    rewrite app_assoc. replace (S (length before)) with (length (before ++ [c]))
      by (rewrite length_app; simpl; lia).
    apply tokenAt_app. }
  assert (Hprefix : tokens = (before ++ [c; f]) ++ between ++ close :: rest).
  { unfold tokens. now rewrite <- app_assoc. }
  assert (Hlen : length (before ++ [c; f]) = S (S pos)).
  { rewrite length_app. simpl. unfold pos. lia. }
  assert (Hskip : skipn (S (S pos)) tokens = between ++ close :: rest).
  { rewrite Hprefix, <- Hlen. apply skipn_app_length. }
  assert (Hatc : tokenAt tokens (S (S pos) + length between) = Some close).
  { rewrite Hprefix, app_assoc.
    replace (S (S pos) + length between)
      with (length ((before ++ [c; f]) ++ between))
      by (rewrite length_app, Hlen; reflexivity).
    apply tokenAt_app. }
  rewrite (consumeSimpleSelectorLoop_colon tokens fuel raw fns pos c Hat Hc).
  rewrite Hat'. destruct f as [cf sf]. simpl in Hf. subst cf. rewrite Hname.
  unfold consumeBuiltinFunctionArguments. rewrite Hskip.
  rewrite appendSourcesUntil_app by (auto; now rewrite Hclose).
  cbn [bind].
  rewrite skipWhitespace_id.
  2:{ unfold testAt. rewrite Hatc. unfold isCloseParenToken, isWhitespaceToken in *.
      now destruct (class close). }
  unfold isCloseParen, testAt. rewrite Hatc, Hclose. cbn [negb].
  f_equal. unfold pos. lia.
Qed.

(** C3, as the code has it: after a colon, a function token whose name
    is in the built-in table makes [consumeSimpleSelector] copy the source
    text of the tokens up to the first close-parenthesis token, add
    [:name(] that text and [)] to the raw text, record no function and go
    on after that parenthesis.  The first close-parenthesis is the
    matching one when the text has no parenthesis inside.  The built-in
    names are the six listed, and the tokens of [:nth-child(2n+1)] give
    one simple selector with that raw text and no function. *)
Theorem builtin_function_copied_verbatim :
  (forall fuel raw fns before c f name between close rest,
     class c = ColonToken -> class f = FunctionToken name ->
     has builtinCSSFunctions name = true ->
     forallb (fun t => negb (isCloseParenToken t || isEOFToken t)) between = true ->
     isCloseParenToken close = true ->
     consumeSimpleSelectorLoop (before ++ c :: f :: between ++ close :: rest)
       (S fuel) raw fns (length before)
     = consumeSimpleSelectorLoop (before ++ c :: f :: between ++ close :: rest) fuel
         (raw ++ ":" ++ name ++ "(" ++ String.concat "" (map toSource between) ++ ")")
         fns (length before + 2 + length between + 1)) /\
  (forall between close rest pos,
     forallb (fun t => negb (isCloseParenToken t || opensParenToken t)) between = true ->
     isCloseParenToken close = true ->
     argumentsUpToMatchingParen (between ++ close :: rest) 0 "" pos
     = Some (String.concat "" (map toSource between), pos + length between)) /\
  (forall name,
     has builtinCSSFunctions name = true <->
     In name ["dir"; "lang"; "nth-child"; "nth-last-child"; "nth-last-of-type";
              "nth-of-type"]) /\
  parseCSSTokens tokensNthChild =
    Returned [mkComplex [(mkSimple (Some ":nth-child(2n+1)") [], "")]].
Proof.
  split; [|split; [|split; [|reflexivity]]].
  - intros. now apply consumeSimpleSelectorLoop_builtin.
  - intros between close rest pos Hb Hc.
    now rewrite argumentsUpToMatchingParen_flat.
  - intros name. apply has_In.
Qed.

Example builtin_function_copied_verbatim_witness :
  consumeSimpleSelectorLoop (withEOF tokensNthChild) 2 "" [] 0
  = Ok (mkSimple (Some ":nth-child(2n+1)") []) 5.
Proof.
  exact (eq_trans
           (proj1 builtin_function_copied_verbatim 1 "" [] [] colon
              (func "nth-child") "nth-child" [dimension "2n"; num 1%float "+1"]
              closeParen [newEOFToken] eq_refl eq_refl eq_refl eq_refl eq_refl)
           eq_refl).
Defined.

(** C3 as it is stated fails: on the tokens of [:nth-child(2 of :not(a))]
    the text up to the matching close-parenthesis, at index 10, ends with
    the parenthesis of [:not(a)]; the loop of the code stops at that
    parenthesis, at index 9, and the selector is rejected.  On the tokens
    of [:nth-child(a(b)] no close-parenthesis matches, and the selector is
    accepted with the text up to the first one. *)
Lemma builtin_function_stops_at_first_paren :
  ~ copiesUpToMatchingParen (withEOF tokensNestedBuiltin) 2 /\
  argumentsUpToMatchingParen (skipn 2 (withEOF tokensNestedBuiltin)) 0 "" 2
    = Some ("2 of :not(a)", 10) /\
  consumeBuiltinFunctionArguments (withEOF tokensNestedBuiltin) 2
    = Ok "2 of :not(a" 9 /\
  parseCSSTokens tokensNestedBuiltin = Thrown ParsingError /\
  argumentsUpToMatchingParen (skipn 2 (withEOF tokensUnbalancedBuiltin)) 0 "" 2
    = None /\
  parseCSSTokens tokensUnbalancedBuiltin
    = Returned [mkComplex [(mkSimple (Some ":nth-child(a(b)") [], "")]].
Proof.
  split; [|repeat split; reflexivity].
  intros (s & pos' & Hspec & Hcode).
  vm_compute in Hspec. vm_compute in Hcode. congruence.
Qed.

(** ** The round trip through [serializeSelector] *)

Lemma parseCSSTokens_quoteInside (tokenized : list Token) :
  map class (withEOF tokenized) = classesQuoteInside ->
  parseCSSTokens tokenized
  = Returned [mkComplex [(mkSimple None
                            [mkFunction "text" [ArgString quoteInside]], "")]].
Proof.
  unfold parseCSSTokens. intros H.
  destruct (withEOF tokenized)
    as [|[c1 s1] [|[c2 s2] [|[c3 s3] [|[c4 s4] [|[c5 s5] [|t6 l]]]]]];
    try discriminate.
  injection H as -> -> -> -> ->. reflexivity.
Qed.

Lemma parseCSSTokens_twoStrings (tokenized : list Token) :
  map class (withEOF tokenized) = classesTwoStrings ->
  parseCSSTokens tokenized
  = Returned [mkComplex [(mkSimple None
                            [mkFunction "text" [ArgString "a"; ArgString "b"]], "")]].
Proof.
  unfold parseCSSTokens. intros H.
  destruct (withEOF tokenized)
    as [|[c1 s1] [|[c2 s2] [|[c3 s3] [|[c4 s4] [|[c5 s5] [|[c6 s6] [|[c7 s7]
         [|[c8 s8] [|t9 l]]]]]]]]];
    try discriminate.
  injection H as -> -> -> -> -> -> -> ->. reflexivity.
Qed.


Lemma tokenAt_app_plus (before rest : list Token) (k : nat) :
  tokenAt (before ++ rest) (length before + k) = tokenAt rest k.
Proof.
  unfold tokenAt. rewrite nth_error_app2 by lia. f_equal. lia.
Qed.

Lemma consumeFunctionArgumentsLoop_unfold (tokens : list Token) (fuel : nat)
    (result : list CSSFunctionArgument) (pos : nat) :
  consumeFunctionArgumentsLoop tokens (S fuel) result pos =
  if negb (isComma tokens (skipWhitespace tokens pos))
  then Ok result (skipWhitespace tokens pos)
  else
    let* (arg, pos') := consumeArgument tokens fuel (S (skipWhitespace tokens pos)) in
    consumeFunctionArgumentsLoop tokens fuel (result ++ [arg]) pos'.
Proof. reflexivity. Qed.

Lemma concat_empty_cons (x : string) (l : list string) :
  String.concat "" (x :: l) = (x ++ String.concat "" l)%string.
Proof. destruct l; simpl; [now rewrite append_empty_r | reflexivity]. Qed.

(** The serialized text of a function without arguments is not parsed
    back either: it has empty parentheses. *)
Example serialized_bare_function_not_parsed :
  forall numberToString,
    serializeSelector numberToString
      [ArgSelector (mkComplex [(mkSimple None [mkFunction "custom" []], "")])]
    = ":custom()" /\
    parseArgumentTokens [colon; func "custom"; closeParen]
    = Thrown (UnexpectedToken closeParen).
Proof. intros numberToString. split; reflexivity. Qed.

(** * Further properties of the parser *)

(** ** Invariants of every node of the returned tree *)

Lemma everyComplex_unfold okComplex okSimple okFunction
    (l : list (CSSSimpleSelector * string)) :
  everyComplex okComplex okSimple okFunction (mkComplex l) =
  okComplex l
  && forallb (fun p => everySimple okComplex okSimple okFunction (fst p)) l.
Proof.
  unfold everyComplex. simpl. f_equal.
  induction l as [|[[c fns] comb] l IH]; [reflexivity|].
  cbn [forallb]. rewrite IH. f_equal.
  unfold everySimple. cbn [fst functions]. f_equal.
  clear. induction fns as [|[name args] fns IH]; [reflexivity|].
  cbn [forallb]. now rewrite IH.
Qed.

Lemma consumeFunctionArguments_not_empty (tokens : list Token) (fuel pos : nat)
    (args : list CSSFunctionArgument) (pos' : nat) :
  consumeFunctionArguments tokens fuel pos = Ok args pos' -> args <> [].
Proof.
  destruct fuel as [|fuel]; [discriminate|]. simpl.
  destruct (consumeArgument tokens fuel pos); simpl; try discriminate.
  intros H. apply consumeFunctionArgumentsLoop_grows in H.
  destruct args; [simpl in H; lia | discriminate].
Qed.

Section EveryNode.

Variable okComplex : list (CSSSimpleSelector * string) -> bool.
Variable okSimple : CSSSimpleSelector -> bool.
Variable okFunction : CSSFunction -> bool.

Hypothesis okSimple_returned : forall raw fns,
  isEmptySimple raw fns = false -> okSimple (simpleSelectorOf raw fns) = true.
Hypothesis okComplex_first : forall s, okComplex [(s, "")] = true.
Hypothesis okComplex_push : forall l s,
  okComplex l = true -> okComplex (l ++ [(s, "")]) = true.
Hypothesis okComplex_combinator : forall l value s,
  okComplex l = true -> has [">"; "+"; "~"] value = true ->
  okComplex (setLastCombinator l value ++ [(s, "")]) = true.
Hypothesis okFunction_bare : forall name,
  has builtinCSSFilters name = false -> okFunction (mkFunction name []) = true.
Hypothesis okFunction_call : forall name args,
  has builtinCSSFunctions name = false -> args <> [] ->
  okFunction (mkFunction name args) = true.

Lemma rules_every (tokens : list Token) :
  forall fuel, rulesEvery okComplex okSimple okFunction tokens fuel.
Proof.
  induction fuel as [|fuel IH].
  - unfold rulesEvery; repeat split; intros; discriminate.
  - destruct IH as (IHfa & IHfal & IHarg & IHcs & IHcsl & IHss & IHssl).
    unfold rulesEvery.
    split; [|split; [|split; [|split; [|split; [|split]]]]].
    + intros pos args pos'. simpl.
      destruct (consumeArgument tokens fuel pos) as [arg p1|e|] eqn:Ea;
        simpl; try discriminate.
      apply IHfal. cbn [forallb]. now rewrite (IHarg _ _ _ Ea).
    + intros result pos args pos' Hres. simpl.
      destruct (negb (isComma tokens (skipWhitespace tokens pos))).
      { now intros [= <- _]. }
      destruct (consumeArgument tokens fuel (S (skipWhitespace tokens pos)))
        as [arg p1|e|] eqn:Ea; simpl; try discriminate.
      apply IHfal. rewrite forallb_app, Hres. cbn [forallb].
      now rewrite (IHarg _ _ _ Ea).
    + intros pos arg pos'. simpl.
      assert (Hcs : bind (consumeComplexSelector tokens fuel (skipWhitespace tokens pos))
                      (fun c p => Ok (ArgSelector c) p) = Ok arg pos' ->
                    everyNode okComplex okSimple okFunction arg = true).
      { destruct (consumeComplexSelector tokens fuel (skipWhitespace tokens pos))
          as [c p1|e|] eqn:Ec; simpl; try discriminate.
        intros [= <- _]. exact (IHcs _ _ _ Ec). }
      destruct (tokenAt tokens (skipWhitespace tokens pos)) as [[c src]|];
        [|exact Hcs].
      destruct c; try exact Hcs; now intros [= <- _].
    + intros pos c pos'. simpl.
      destruct (consumeSimpleSelector tokens fuel (skipWhitespace tokens pos))
        as [sel p1|e|] eqn:Es; simpl; try discriminate.
      apply IHcsl; [apply okComplex_first|].
      cbn [forallb fst]. now rewrite (IHss _ _ _ Es).
    + intros result pos c pos' Hok Hres. simpl.
      destruct (clauseCombinatorAt tokens (skipWhitespace tokens pos))
        as [value|] eqn:Ecomb.
      * destruct (consumeSimpleSelector tokens fuel
                    (skipWhitespace tokens (S (skipWhitespace tokens pos))))
          as [sel p1|e|] eqn:Es; simpl; try discriminate.
        apply IHcsl.
        -- apply okComplex_combinator; [exact Hok|].
           apply clauseCombinatorAt_Some in Ecomb as (src & _ & Hin).
           now apply has_In.
        -- rewrite forallb_app, setLastCombinator_simple, Hres.
           cbn [forallb fst]. now rewrite (IHss _ _ _ Es).
      * destruct (isSelectorClauseEnd tokens (skipWhitespace tokens pos)).
        { intros [= <- _]. rewrite everyComplex_unfold. now rewrite Hok, Hres. }
        destruct (consumeSimpleSelector tokens fuel (skipWhitespace tokens pos))
          as [sel p1|e|] eqn:Es; simpl; try discriminate.
        apply IHcsl; [now apply okComplex_push|].
        rewrite forallb_app, Hres. cbn [forallb fst]. now rewrite (IHss _ _ _ Es).
    + intros pos s pos'. simpl. now apply IHssl.
    + intros raw fns pos s pos' Hfns. simpl.
      destruct (isSelectorClauseEnd tokens pos).
      { change (String.eqb raw "" && Nat.eqb (length fns) 0)
          with (isEmptySimple raw fns).
        destruct (isEmptySimple raw fns) eqn:Eempty; [discriminate|].
        intros [= <- _]. unfold everySimple.
        rewrite (okSimple_returned _ _ Eempty). exact Hfns. }
      destruct (tokenAt tokens pos) as [t|]; [|discriminate].
      destruct (isIdentToken t || isDelimToken "*" t); [now apply IHssl|].
      destruct (isHashToken t); [now apply IHssl|].
      destruct (isDelimToken "." t).
      { destruct (tokenAt tokens (S pos)) as [t'|]; [|discriminate].
        destruct (isIdentToken t'); [now apply IHssl | discriminate]. }
      destruct (isColonToken t).
      { destruct (tokenAt tokens (S pos)) as [[c src]|]; [|discriminate].
        destruct c; try discriminate.
        - destruct (has builtinCSSFilters value) eqn:Ename; apply IHssl; auto.
          rewrite forallb_app, Hfns. unfold everyFunction. cbn [forallb args].
          now rewrite (okFunction_bare _ Ename).
        - destruct (has builtinCSSFunctions value) eqn:Ename.
          + destruct (consumeBuiltinFunctionArguments tokens (S (S pos)));
              simpl; try discriminate.
            destruct (negb (isCloseParen tokens (skipWhitespace tokens pos0)));
              [discriminate | now apply IHssl].
          + destruct (consumeFunctionArguments tokens fuel (S (S pos)))
              as [fargs p1|e|] eqn:Ea; simpl; try discriminate.
            destruct (negb (isCloseParen tokens (skipWhitespace tokens p1)));
              [discriminate|].
            apply IHssl. rewrite forallb_app, Hfns. unfold everyFunction.
            cbn [forallb args].
            rewrite (okFunction_call _ _ Ename
                       (consumeFunctionArguments_not_empty _ _ _ _ _ Ea)).
            now rewrite (IHfa _ _ _ Ea). }
      destruct (isOpenSquareToken t); [|discriminate].
      destruct (consumeSquareBrackets tokens (raw ++ "[") (S pos));
        simpl; try discriminate.
      destruct (negb (testAt tokens isCloseSquareToken pos0));
        [discriminate | now apply IHssl].
Qed.

Lemma parseCSSTokens_every (tokenized : list Token) (selectors : CSSSelectorList) :
  parseCSSTokens tokenized = Returned selectors ->
  forallb (everyComplex okComplex okSimple okFunction) selectors = true.
Proof.
  intros H. destruct (parseCSSTokens_returned _ _ H) as (pos & Hargs & _).
  destruct (rules_every (withEOF tokenized) (fuelFor (withEOF tokenized)))
    as (Hfa & _).
  apply Hfa in Hargs. clear -Hargs.
  induction selectors as [|c l IH]; [reflexivity|].
  simpl map in Hargs. cbn [forallb] in *.
  apply andb_true_iff in Hargs as [Hc Hl]. unfold everyComplex at 1.
  now rewrite Hc, IH.
Qed.

End EveryNode.

Lemma combinatorsTyped_setLastCombinator (l : list (CSSSimpleSelector * string))
    (value : string) :
  combinatorsTyped l = true -> has clauseCombinators value = true ->
  combinatorsTyped (setLastCombinator l value) = true.
Proof.
  intros Hl Hv. induction l as [|[s0 c0] l IH]; [reflexivity|].
  destruct l as [|x l].
  - simpl. unfold combinatorsTyped. cbn [forallb snd]. now rewrite Hv.
  - rewrite setLastCombinator_cons. unfold combinatorsTyped in *.
    cbn [forallb] in *. apply andb_true_iff in Hl as [-> Hl]. now rewrite IH.
Qed.

(** X1: every combinator of every complex selector of a returned tree,
    nested ones included, is a value of the type [ClauseCombinator]: the
    empty string or one of the three delimiters. *)
Theorem parseCSS_combinators_typed (tokenized : list Token)
    (selectors : CSSSelectorList) :
  parseCSSTokens tokenized = Returned selectors ->
  forallb (everyComplex combinatorsTyped anySimple anyFunction) selectors = true /\
  forall c s combinator,
    In c selectors -> In (s, combinator) (simple c) ->
    In combinator [""; ">"; "+"; "~"].
Proof.
  intros H.
  assert (Hall : forallb (everyComplex combinatorsTyped anySimple anyFunction)
                   selectors = true).
  { apply (parseCSSTokens_every combinatorsTyped anySimple anyFunction)
      with (tokenized := tokenized); auto.
    - intros l s Hl. unfold combinatorsTyped in *. rewrite forallb_app, Hl.
      reflexivity.
    - intros l value s Hl Hv. unfold combinatorsTyped. rewrite forallb_app.
      fold (combinatorsTyped (setLastCombinator l value)).
      rewrite combinatorsTyped_setLastCombinator; auto.
      apply has_In. apply has_In in Hv. simpl in *. tauto. }
  split; [exact Hall|].
  intros c s combinator Hc Hs.
  rewrite forallb_forall in Hall. specialize (Hall c Hc).
  destruct c as [l]. rewrite everyComplex_unfold in Hall.
  apply andb_true_iff in Hall as [Hl _]. unfold combinatorsTyped in Hl.
  rewrite forallb_forall in Hl. specialize (Hl _ Hs).
  exact (proj1 (has_In _ _) Hl).
Qed.

Example parseCSS_combinators_typed_witness :
  exists selectors,
    parseCSSTokens tokensSwapped = Returned selectors /\
    forallb (everyComplex combinatorsTyped anySimple anyFunction) selectors = true.
Proof.
  eexists. split; [reflexivity|].
  apply (parseCSS_combinators_typed tokensSwapped). reflexivity.
Defined.

(** X2: every simple selector of a returned tree, nested ones included,
    has a [css] that is absent or a non-empty string, and has a [css] or
    at least one function. *)
Theorem parseCSS_simple_selectors_not_empty (tokenized : list Token)
    (selectors : CSSSelectorList) :
  parseCSSTokens tokenized = Returned selectors ->
  forallb (everyComplex anyComplex simpleNotEmpty anyFunction) selectors = true.
Proof.
  apply (parseCSSTokens_every anyComplex simpleNotEmpty anyFunction); auto.
  intros raw fns. unfold isEmptySimple, simpleSelectorOf, simpleNotEmpty.
  destruct (String.eqb raw "") eqn:Eraw; simpl; [now intros -> | now rewrite Eraw].
Qed.

Example parseCSS_simple_selectors_not_empty_witness :
  exists selectors,
    parseCSSTokens tokensSwapped = Returned selectors /\
    forallb (everyComplex anyComplex simpleNotEmpty anyFunction) selectors = true.
Proof.
  eexists. split; [reflexivity|].
  apply (parseCSS_simple_selectors_not_empty tokensSwapped). reflexivity.
Defined.

(** X3: in a returned tree, nested functions included, a function recorded
    without arguments has a name outside the pseudo-class table and a
    function recorded with arguments has a name outside the
    pseudo-function table: a built-in construct is never recorded as a
    function of its own kind. *)
Theorem parseCSS_functions_not_builtin (tokenized : list Token)
    (selectors : CSSSelectorList) :
  parseCSSTokens tokenized = Returned selectors ->
  forallb (everyComplex anyComplex anySimple functionNotBuiltin) selectors = true.
Proof.
  apply (parseCSSTokens_every anyComplex anySimple functionNotBuiltin); auto.
  - intros name Hname. simpl. now rewrite Hname.
  - intros name [|a args] Hname Hargs; [congruence|]. simpl. now rewrite Hname.
Qed.

Example parseCSS_functions_not_builtin_witness :
  exists selectors,
    parseCSSTokens tokensSwapped = Returned selectors /\
    forallb (everyComplex anyComplex anySimple functionNotBuiltin) selectors = true.
Proof.
  eexists. split; [reflexivity|].
  apply (parseCSS_functions_not_builtin tokensSwapped). reflexivity.
Defined.

(** ** What [parseCSS] throws *)

Lemma appendSourcesUntil_throw (stop : Token -> bool) (rest : list Token) :
  forall s pos e, appendSourcesUntil stop rest s pos = Throw e -> e = TypeError.
Proof.
  induction rest as [|t rest IH]; intros s pos e; simpl.
  - now intros [= <-].
  - destruct (stop t); [discriminate | apply IH].
Qed.

Lemma typeError_unexpected (tokens : list Token) :
  thrownByUnexpected tokens TypeError.
Proof.
  exists (length tokens). unfold unexpected, tokenAt.
  now rewrite (proj2 (nth_error_None tokens (length tokens)) (le_n _)).
Qed.

Lemma throwsUnexpected_bind {A B : Type} (tokens : list Token) (m : Outcome A)
    (k : A -> nat -> Outcome B) :
  throwsUnexpected tokens m ->
  (forall a pos, throwsUnexpected tokens (k a pos)) ->
  throwsUnexpected tokens (bind m k).
Proof.
  intros Hm Hk e. destruct m as [a pos|e'|]; simpl.
  - apply Hk.
  - intros [= <-]. now apply Hm.
  - discriminate.
Qed.

Lemma throwsUnexpected_throw {A : Type} (tokens : list Token) (pos : nat) :
  throwsUnexpected tokens (@Throw A (unexpected tokens pos)).
Proof. intros e [= <-]. now exists pos. Qed.

Lemma throwsUnexpected_ok {A : Type} (tokens : list Token) (a : A) (pos : nat) :
  throwsUnexpected tokens (Ok a pos).
Proof. intros e. discriminate. Qed.

Lemma throwsUnexpected_copy (tokens : list Token) (stop : Token -> bool)
    (s : string) (pos : nat) :
  throwsUnexpected tokens (appendSourcesUntil stop (skipn pos tokens) s pos).
Proof.
  intros e H. apply appendSourcesUntil_throw in H. subst.
  apply typeError_unexpected.
Qed.

Lemma rules_throw (tokens : list Token) : forall fuel, rulesThrow tokens fuel.
Proof.
  induction fuel as [|fuel IH].
  - unfold rulesThrow; repeat split; intros; intros e; discriminate.
  - destruct IH as (IHfa & IHfal & IHarg & IHcs & IHcsl & IHss & IHssl).
    unfold rulesThrow.
    split; [|split; [|split; [|split; [|split; [|split]]]]].
    + intros pos. simpl. apply throwsUnexpected_bind; auto.
    + intros result pos. simpl.
      destruct (negb (isComma tokens (skipWhitespace tokens pos)));
        [apply throwsUnexpected_ok|].
      apply throwsUnexpected_bind; auto.
    + intros pos. simpl.
      assert (Hcs : throwsUnexpected tokens
                (bind (consumeComplexSelector tokens fuel (skipWhitespace tokens pos))
                   (fun c p => Ok (ArgSelector c) p))).
      { apply throwsUnexpected_bind; auto. intros. apply throwsUnexpected_ok. }
      destruct (tokenAt tokens (skipWhitespace tokens pos)) as [[c src]|];
        [|exact Hcs].
      destruct c; try exact Hcs; apply throwsUnexpected_ok.
    + intros pos. simpl. apply throwsUnexpected_bind; auto.
    + intros result pos. simpl.
      destruct (clauseCombinatorAt tokens (skipWhitespace tokens pos)).
      * apply throwsUnexpected_bind; auto.
      * destruct (isSelectorClauseEnd tokens (skipWhitespace tokens pos));
          [apply throwsUnexpected_ok|].
        apply throwsUnexpected_bind; auto.
    + intros pos. simpl. apply IHssl.
    + intros raw fns pos. simpl.
      destruct (isSelectorClauseEnd tokens pos).
      { destruct (String.eqb raw "" && Nat.eqb (length fns) 0);
          [apply throwsUnexpected_throw | apply throwsUnexpected_ok]. }
      destruct (tokenAt tokens pos) as [t|]; [|apply throwsUnexpected_throw].
      destruct (isIdentToken t || isDelimToken "*" t); [apply IHssl|].
      destruct (isHashToken t); [apply IHssl|].
      destruct (isDelimToken "." t).
      { destruct (tokenAt tokens (S pos)) as [t'|]; [|apply throwsUnexpected_throw].
        destruct (isIdentToken t'); [apply IHssl | apply throwsUnexpected_throw]. }
      destruct (isColonToken t).
      { destruct (tokenAt tokens (S pos)) as [[c src]|];
          [|apply throwsUnexpected_throw].
        destruct c; try apply throwsUnexpected_throw.
        - destruct (has builtinCSSFilters value); apply IHssl.
        - destruct (has builtinCSSFunctions value);
            (apply throwsUnexpected_bind;
             [first [apply throwsUnexpected_copy | apply IHfa]|]);
            intros a p;
            (destruct (negb (isCloseParen tokens (skipWhitespace tokens p)));
             [apply throwsUnexpected_throw | apply IHssl]). }
      destruct (isOpenSquareToken t); [|apply throwsUnexpected_throw].
      apply throwsUnexpected_bind; [apply throwsUnexpected_copy|].
      intros a p. destruct (negb (testAt tokens isCloseSquareToken p));
        [apply throwsUnexpected_throw | apply IHssl].
Qed.

Lemma tokenAt_In (tokens : list Token) (pos : nat) (t : Token) :
  tokenAt tokens pos = Some t -> In t tokens.
Proof. apply nth_error_In. Qed.

(** The errors of [parseCSSTokens], by cases. *)
Lemma parseCSSTokens_thrown (tokenized : list Token) (e : Exception) :
  parseCSSTokens tokenized = Thrown e ->
  (exists t, e = UnsupportedToken t /\ In t tokenized /\ isUnsupportedToken t = true) \/
  (existsb isUnsupportedToken tokenized = false /\
   ((exists t, e = UnexpectedToken t /\ In t (withEOF tokenized)) \/
    e = ParsingError)).
Proof.
  unfold parseCSSTokens.
  destruct (find isUnsupportedToken (withEOF tokenized)) as [u|] eqn:Efind.
  - intros [= <-]. left. exists u. apply find_some in Efind as [Hin Hu].
    repeat split; auto.
    destruct (withEOF_cases tokenized) as [E | E]; rewrite E in Hin; auto.
    apply in_app_or in Hin as [Hin | [<- | []]]; [exact Hin | discriminate].
  - intros H. right. split.
    { destruct (existsb isUnsupportedToken tokenized) eqn:Eex; [|reflexivity].
      apply existsb_exists in Eex as (x & Hx & Hux).
      assert (In x (withEOF tokenized)) as Hin.
      { destruct (withEOF_cases tokenized) as [-> | ->]; auto.
        apply in_or_app. now left. }
      rewrite (find_none _ _ Efind x Hin) in Hux. discriminate. }
    destruct (consumeFunctionArguments_terminates (withEOF tokenized)
                (withEOF_endsWithEOF tokenized)) as [_ Hte].
    destruct (rules_throw (withEOF tokenized) (fuelFor (withEOF tokenized)))
      as (Hfa & _).
    specialize (Hfa 0).
    destruct (consumeFunctionArguments (withEOF tokenized)
                (fuelFor (withEOF tokenized)) 0) as [result pos|e'|].
    + destruct (negb (isEOF (withEOF tokenized) pos)); [injection H as <-; auto|].
      destruct (existsb notComplexSelector result); [injection H as <-; auto|].
      discriminate.
    + injection H as <-. left.
      destruct (Hfa e' eq_refl) as [pos Hpos]. unfold unexpected in Hpos.
      destruct (tokenAt (withEOF tokenized) pos) as [t|] eqn:Et; [|congruence].
      exists t. split; [exact Hpos | eapply tokenAt_In; eauto].
    + discriminate.
Qed.


(** X4: [parseCSS] throws one of three errors only: the unsupported-token
    error, for a token of the sequence of a rejected class; the
    unexpected-token error, for a token of the sequence (the end-of-input
    token included) when no token is of a rejected class; or the generic
    parsing error, again when no token is of a rejected class. *)
Theorem parseCSS_thrown_errors (tokenized : list Token) (e : Exception) :
  parseCSSTokens tokenized = Thrown e ->
  (exists t, e = UnsupportedToken t /\ In t tokenized /\ isUnsupportedToken t = true) \/
  (existsb isUnsupportedToken tokenized = false /\
   ((exists t, e = UnexpectedToken t /\ In t (withEOF tokenized)) \/
    e = ParsingError)).
Proof. apply parseCSSTokens_thrown. Qed.

Example parseCSS_thrown_errors_witness :
  existsb isUnsupportedToken tokensTrailingCombinator = false /\
  ((exists t, UnexpectedToken newEOFToken = UnexpectedToken t /\
              In t (withEOF tokensTrailingCombinator)) \/
   UnexpectedToken newEOFToken = ParsingError).
Proof.
  destruct (parseCSS_thrown_errors tokensTrailingCombinator
              (UnexpectedToken newEOFToken) eq_refl) as [(t & Ht & _) | H].
  - discriminate.
  - exact H.
Defined.

(** X5: every error that [parseCSS] throws on a selector text, the
    re-thrown error of the tokenizer included, has a message that ends with
    the words while parsing selector and the whole selector between double
    quotes. *)
Theorem parseCSS_message_names_selector
    (tokenize : string -> string + list Token) (selector : string) (e : Exception) :
  parseCSS tokenize selector = Thrown e ->
  exists text,
    message selector e
    = (text ++ " while parsing selector " ++ dquote ++ selector ++ dquote)%string.
Proof.
  unfold parseCSS. destruct (tokenize selector) as [msg|tokenized].
  - intros [= <-]. exists msg. reflexivity.
  - intros H. apply parseCSSTokens_thrown in H.
    destruct H as [(t & -> & _) | (_ & [(t & -> & _) | ->])].
    + exists ("Unsupported token " ++ quoted (toSource t))%string.
      simpl. unfold quoted. now rewrite !append_assoc.
    + exists ("Unexpected token " ++ quoted (toSource t))%string.
      simpl. unfold quoted. now rewrite !append_assoc.
    + exists "Error". reflexivity.
Qed.

Example parseCSS_message_names_selector_witness :
  exists text,
    message "div >" (UnexpectedToken newEOFToken)
    = (text ++ " while parsing selector " ++ dquote ++ "div >" ++ dquote)%string.
Proof.
  apply (parseCSS_message_names_selector
           (fun _ => inr tokensTrailingCombinator) "div >").
  reflexivity.
Defined.

(** ** Selectors of copied constructs only *)

Lemma not_clause_end (tokens : list Token) (pos : nat) (t : Token) :
  tokenAt tokens pos = Some t ->
  isCommaToken t = false -> isCloseParenToken t = false -> isEOFToken t = false ->
  isClauseCombinatorToken t = false -> isWhitespaceToken t = false ->
  isSelectorClauseEnd tokens pos = false.
Proof.
  intros Ht H1 H2 H3 H4 H5.
  unfold isSelectorClauseEnd, isComma, isCloseParen, isEOF, isClauseCombinator, testAt.
  now rewrite Ht, H1, H2, H3, H4, H5.
Qed.

Lemma consumeSimpleSelectorLoop_plain (tokens : list Token) (fuel : nat)
    (raw : string) (fns : list CSSFunction) (pos : nat) (t : Token) :
  tokenAt tokens pos = Some t ->
  isIdentToken t || isDelimToken "*" t || isHashToken t = true ->
  consumeSimpleSelectorLoop tokens (S fuel) raw fns pos
  = consumeSimpleSelectorLoop tokens fuel (raw ++ toSource t) fns (S pos).
Proof.
  intros Ht Hk. cbn [consumeSimpleSelectorLoop].
  rewrite (not_clause_end tokens pos t Ht), Ht.
  - destruct (isIdentToken t || isDelimToken "*" t); [reflexivity|].
    simpl in Hk. now rewrite Hk.
  - destruct t as [[] src]; try reflexivity; discriminate.
  - destruct t as [[] src]; try reflexivity; discriminate.
  - destruct t as [[] src]; try reflexivity; discriminate.
  - destruct t as [[] src]; try reflexivity; try discriminate.
    unfold isIdentToken, isDelimToken, isHashToken in Hk. simpl in Hk.
    rewrite !orb_false_r in Hk. apply String.eqb_eq in Hk. now subst.
  - destruct t as [[] src]; try reflexivity; discriminate.
Qed.

Lemma consumeSimpleSelectorLoop_class (tokens : list Token) (fuel : nat)
    (raw : string) (fns : list CSSFunction) (pos : nat) (dot identifier : Token) :
  tokenAt tokens pos = Some dot -> isDelimToken "." dot = true ->
  tokenAt tokens (S pos) = Some identifier -> isIdentToken identifier = true ->
  consumeSimpleSelectorLoop tokens (S fuel) raw fns pos
  = consumeSimpleSelectorLoop tokens fuel (raw ++ "." ++ toSource identifier) fns
      (S (S pos)).
Proof.
  intros Hd Hdot Hi Hident.
  assert (Hclass : class dot = DelimToken ".").
  { unfold isDelimToken in Hdot. destruct (class dot); try discriminate.
    apply String.eqb_eq in Hdot. now subst. }
  cbn [consumeSimpleSelectorLoop].
  rewrite (not_clause_end tokens pos dot Hd), Hd;
    try (unfold isCommaToken, isCloseParenToken, isEOFToken, isClauseCombinatorToken,
           isWhitespaceToken; rewrite Hclass; reflexivity).
  unfold isIdentToken at 1, isDelimToken, isHashToken. rewrite Hclass.
  cbn. now rewrite Hi, Hident.
Qed.

Lemma consumeSimpleSelectorLoop_attribute (fuel : nat) (raw : string)
    (fns : list CSSFunction) (before : list Token) (open : Token)
    (between : list Token) (close : Token) (rest : list Token) :
  isOpenSquareToken open = true ->
  forallb (fun t => negb (isCloseSquareToken t || isEOFToken t)) between = true ->
  isCloseSquareToken close = true ->
  consumeSimpleSelectorLoop (before ++ open :: between ++ close :: rest)
    (S fuel) raw fns (length before)
  = consumeSimpleSelectorLoop (before ++ open :: between ++ close :: rest) fuel
      (raw ++ "[" ++ String.concat "" (map toSource between) ++ "]") fns
      (length before + 1 + length between + 1).
Proof.
  intros Ho Hbetween Hclose.
  remember (before ++ open :: between ++ close :: rest) as tokens eqn:Htokens.
  set (pos := length before).
  assert (Hat : tokenAt tokens pos = Some open) by (subst tokens; apply tokenAt_app).
  assert (Hclass : class open = OpenSquareToken).
  { unfold isOpenSquareToken in Ho. now destruct (class open). }
  assert (Hprefix : tokens = (before ++ [open]) ++ between ++ close :: rest).
  { subst tokens. now rewrite <- app_assoc. }
  assert (Hlen : length (before ++ [open]) = S pos).
  { rewrite length_app. simpl. unfold pos. lia. }
  assert (Hskip : skipn (S pos) tokens = between ++ close :: rest).
  { rewrite Hprefix, <- Hlen. apply skipn_app_length. }
  assert (Hatc : tokenAt tokens (S pos + length between) = Some close).
  { rewrite Hprefix, app_assoc.
    replace (S pos + length between) with (length ((before ++ [open]) ++ between))
      by (rewrite length_app, Hlen; reflexivity).
    apply tokenAt_app. }
  cbn [consumeSimpleSelectorLoop].
  rewrite (not_clause_end tokens pos open Hat), Hat;
    try (unfold isCommaToken, isCloseParenToken, isEOFToken, isClauseCombinatorToken,
           isWhitespaceToken; rewrite Hclass; reflexivity).
  unfold isIdentToken, isDelimToken, isHashToken, isColonToken. rewrite Hclass, Ho.
  cbn [orb]. unfold consumeSquareBrackets. rewrite Hskip.
  rewrite appendSourcesUntil_app by (auto; now rewrite Hclose).
  cbn [bind]. unfold testAt. rewrite Hatc, Hclose. cbn [negb].
  rewrite !append_assoc. f_equal. unfold pos. lia.
Qed.

(** One construct, one iteration of the loop. *)
Lemma consumeSimpleSelectorLoop_construct (u : Construct) (fuel : nat)
    (raw : string) (fns : list CSSFunction) (before rest : list Token) :
  constructOk u = true ->
  consumeSimpleSelectorLoop (before ++ constructTokens u ++ rest) (S fuel) raw fns
    (length before)
  = consumeSimpleSelectorLoop (before ++ constructTokens u ++ rest) fuel
      (raw ++ constructText u) fns (length before + length (constructTokens u)).
Proof.
  destruct u as [t|dot identifier|c identifier|open between close|c f between close];
    cbn [constructOk constructTokens constructText]; intros Hok.
  - rewrite (consumeSimpleSelectorLoop_plain _ fuel raw fns (length before) t);
      [|apply tokenAt_app|exact Hok].
    f_equal. simpl. lia.
  - apply andb_true_iff in Hok as [Hdot Hident].
    rewrite (consumeSimpleSelectorLoop_class _ fuel raw fns (length before)
               dot identifier); auto.
    + f_equal. simpl. lia.
    + apply tokenAt_app.
    + rewrite <- Nat.add_1_r. now rewrite tokenAt_app_plus.
  - apply andb_true_iff in Hok as [Hok Hname].
    apply andb_true_iff in Hok as [Hc Hident].
    assert (Hcolon : class c = ColonToken)
      by (unfold isColonToken in Hc; now destruct (class c)).
    rewrite (consumeSimpleSelectorLoop_colon _ fuel raw fns (length before) c);
      [|apply tokenAt_app|exact Hcolon].
    rewrite <- Nat.add_1_r at 1. rewrite tokenAt_app_plus.
    cbn [tokenAt nth_error app]. unfold tokenAt. cbn [nth_error app].
    destruct identifier as [ci si]. unfold isIdentToken, nameOf in *. simpl in *.
    destruct ci; try discriminate. rewrite Hname. f_equal. lia.
  - apply andb_true_iff in Hok as [Hok Hclose].
    apply andb_true_iff in Hok as [Hopen Hbetween].
    cbn [app]. rewrite <- app_assoc. cbn [app].
    rewrite consumeSimpleSelectorLoop_attribute by assumption.
    f_equal. simpl. rewrite length_app. simpl. lia.
  - apply andb_true_iff in Hok as [Hok Hclose].
    apply andb_true_iff in Hok as [Hok Hbetween].
    apply andb_true_iff in Hok as [Hok Hname].
    apply andb_true_iff in Hok as [Hc Hf].
    assert (Hcolon : class c = ColonToken)
      by (unfold isColonToken in Hc; now destruct (class c)).
    assert (Hfn : class f = FunctionToken (nameOf f)).
    { unfold nameOf. destruct (class f); try discriminate. reflexivity. }
    cbn [app]. rewrite <- app_assoc. cbn [app].
    rewrite (consumeSimpleSelectorLoop_builtin fuel raw fns before c f (nameOf f))
      by assumption.
    f_equal. simpl. rewrite length_app. simpl. lia.
Qed.

(** A run of constructs, one iteration each. *)
Lemma consumeSimpleSelectorLoop_constructs (units : list Construct) :
  forallb constructOk units = true ->
  forall fuel raw fns before rest,
    consumeSimpleSelectorLoop (before ++ flat_map constructTokens units ++ rest)
      (length units + fuel) raw fns (length before)
    = consumeSimpleSelectorLoop (before ++ flat_map constructTokens units ++ rest)
        fuel (raw ++ String.concat "" (map constructText units)) fns
        (length before + length (flat_map constructTokens units)).
Proof.
  induction units as [|u units IH]; intros Hok fuel raw fns before rest.
  - simpl. now rewrite append_empty_r, Nat.add_0_r.
  - cbn [forallb] in Hok. apply andb_true_iff in Hok as [Hu Hunits].
    cbn [flat_map length Nat.add map]. rewrite concat_empty_cons.
    rewrite <- (app_assoc (constructTokens u)).
    rewrite (consumeSimpleSelectorLoop_construct u) by exact Hu.
    specialize (IH Hunits fuel (raw ++ constructText u)%string fns
                  (before ++ constructTokens u) rest).
    rewrite <- !app_assoc in IH. rewrite length_app in IH.
    rewrite IH. rewrite append_assoc, length_app. f_equal. lia.
Qed.

Lemma skipWhitespace_at_EOF (tokens : list Token) (pos : nat) :
  isEOF tokens pos = true -> skipWhitespace tokens pos = pos.
Proof.
  intros H. apply skipWhitespace_id. unfold isEOF, testAt in *.
  destruct (tokenAt tokens pos) as [t|]; [|reflexivity].
  unfold isWhitespaceToken. now rewrite (isEOFToken_class _ H).
Qed.

Lemma consumeComplexSelectorLoop_at_EOF (tokens : list Token) (fuel : nat)
    (result : list (CSSSimpleSelector * string)) (pos : nat) :
  isEOF tokens pos = true ->
  consumeComplexSelectorLoop tokens (S fuel) result pos = Ok (mkComplex result) pos.
Proof.
  intros H. cbn [consumeComplexSelectorLoop].
  rewrite (skipWhitespace_at_EOF _ _ H).
  unfold clauseCombinatorAt, isSelectorClauseEnd. rewrite H.
  unfold isEOF, testAt in H. destruct (tokenAt tokens pos) as [t|]; [|discriminate].
  rewrite (isEOFToken_class _ H). now rewrite !orb_true_r.
Qed.

Lemma consumeFunctionArgumentsLoop_at_EOF (tokens : list Token) (fuel : nat)
    (result : list CSSFunctionArgument) (pos : nat) :
  isEOF tokens pos = true ->
  consumeFunctionArgumentsLoop tokens (S fuel) result pos = Ok result pos.
Proof.
  intros H. rewrite consumeFunctionArgumentsLoop_unfold.
  rewrite (skipWhitespace_at_EOF _ _ H).
  unfold isEOF, isComma, testAt in *.
  destruct (tokenAt tokens pos) as [t|]; [|discriminate].
  unfold isCommaToken. now rewrite (isEOFToken_class _ H).
Qed.

Lemma construct_first_token (u : Construct) :
  constructOk u = true ->
  exists t rest, constructTokens u = t :: rest /\
    isWhitespaceToken t = false /\ isNumberToken t = false /\ isStringToken t = false.
Proof.
  destruct u as [t|dot identifier|c identifier|open between close|c f between close];
    cbn [constructOk constructTokens]; intros Hok;
    eexists; eexists; (split; [reflexivity|]).
  - destruct t as [[] src]; try discriminate; repeat split; reflexivity.
  - apply andb_true_iff in Hok as [Hok _].
    destruct dot as [[] src]; try discriminate; repeat split; reflexivity.
  - apply andb_true_iff in Hok as [Hok _]. apply andb_true_iff in Hok as [Hok _].
    destruct c as [[] src]; try discriminate; repeat split; reflexivity.
  - apply andb_true_iff in Hok as [Hok _]. apply andb_true_iff in Hok as [Hok _].
    destruct open as [[] src]; try discriminate; repeat split; reflexivity.
  - do 4 (apply andb_true_iff in Hok as [Hok _]).
    destruct c as [[] src]; try discriminate; repeat split; reflexivity.
Qed.

Lemma construct_last_token (u : Construct) :
  constructOk u = true ->
  exists l t, constructTokens u = l ++ [t] /\ isEOFToken t = false.
Proof.
  destruct u as [t|dot identifier|c identifier|open between close|c f between close];
    cbn [constructOk constructTokens]; intros Hok.
  - exists [], t. split; [reflexivity|].
    destruct t as [[] src]; try discriminate; reflexivity.
  - exists [dot], identifier. split; [reflexivity|].
    apply andb_true_iff in Hok as [_ Hok].
    destruct identifier as [[] src]; try discriminate; reflexivity.
  - exists [c], identifier. split; [reflexivity|].
    apply andb_true_iff in Hok as [Hok _]. apply andb_true_iff in Hok as [_ Hok].
    destruct identifier as [[] src]; try discriminate; reflexivity.
  - exists (open :: between), close. split; [reflexivity|].
    apply andb_true_iff in Hok as [_ Hok].
    destruct close as [[] src]; try discriminate; reflexivity.
  - exists (c :: f :: between), close. split; [reflexivity|].
    apply andb_true_iff in Hok as [_ Hok].
    destruct close as [[] src]; try discriminate; reflexivity.
Qed.

Lemma withEOF_snoc (l : list Token) (t : Token) :
  isEOFToken t = false -> withEOF (l ++ [t]) = (l ++ [t]) ++ [newEOFToken].
Proof.
  intros Ht. unfold withEOF. rewrite map_app. simpl map. rewrite last_last.
  now rewrite Ht.
Qed.

Lemma constructs_withEOF (units : list Construct) :
  units <> [] -> forallb constructOk units = true ->
  withEOF (flat_map constructTokens units)
  = flat_map constructTokens units ++ [newEOFToken].
Proof.
  intros Hne Hok. destruct units as [|u units _] using rev_ind; [congruence|].
  rewrite forallb_app in Hok. apply andb_true_iff in Hok as [_ Hu].
  cbn [forallb] in Hu. rewrite andb_true_r in Hu.
  destruct (construct_last_token u Hu) as (l & t & Hl & Ht).
  rewrite flat_map_app. cbn [flat_map]. rewrite app_nil_r, Hl, app_assoc.
  now apply withEOF_snoc.
Qed.

Lemma find_unsupported_none (l : list Token) :
  existsb isUnsupportedToken l = false ->
  find isUnsupportedToken (l ++ [newEOFToken]) = None.
Proof.
  induction l as [|x l IH]; [reflexivity|]. simpl.
  intros H. apply orb_false_iff in H as [-> H]. auto.
Qed.

Lemma length_constructs (units : list Construct) :
  length units <= length (flat_map constructTokens units).
Proof.
  induction units as [|u units IH]; [apply le_n|].
  cbn [flat_map length]. rewrite length_app.
  assert (1 <= length (constructTokens u)) by (destruct u; simpl; lia). lia.
Qed.

(** X6: a selector made only of constructs that [consumeSimpleSelector]
    copies (identifier, star, hash, class, built-in pseudo-class,
    square brackets, built-in pseudo-function) and of no token of a
    rejected class is returned as one complex selector of one simple
    selector, with no function, whose [css] is the texts of the constructs
    in order: the source text of the tokens, with the dot, colon, brackets
    and parentheses as written and the function name as the token value
    gives it; whatever stands inside brackets or parentheses is copied
    and not parsed. *)
Theorem parseCSS_copied_constructs (units : list Construct) :
  units <> [] ->
  forallb constructOk units = true ->
  existsb isUnsupportedToken (flat_map constructTokens units) = false ->
  String.concat "" (map constructText units) <> "" ->
  parseCSSTokens (flat_map constructTokens units)
  = Returned [mkComplex
                [(mkSimple (Some (String.concat "" (map constructText units))) [],
                  "")]].
Proof.
  intros Hne Hok Hunsupported Htext.
  set (text := String.concat "" (map constructText units)) in *.
  unfold parseCSSTokens.
  rewrite (constructs_withEOF units Hne Hok).
  rewrite (find_unsupported_none _ Hunsupported).
  set (body := flat_map constructTokens units).
  set (tokens := body ++ [newEOFToken]).
  assert (Hfirst : exists t, tokenAt tokens 0 = Some t /\
            isWhitespaceToken t = false /\ isNumberToken t = false /\
            isStringToken t = false).
  { destruct units as [|u units]; [congruence|].
    cbn [forallb] in Hok. apply andb_true_iff in Hok as [Hu _].
    destruct (construct_first_token u Hu) as (t & rest & Hu' & Ht).
    exists t. split; [|exact Ht].
    unfold tokens, body. cbn [flat_map]. now rewrite Hu'. }
  destruct Hfirst as (t & Ht & Hws & Hnum & Hstr).
  assert (Hfuel : exists fuel,
            fuelFor tokens = 4 + (length units + S fuel)).
  { unfold fuelFor, tokens. rewrite length_app. simpl length.
    pose proof (length_constructs units). fold body in H.
    exists (5 * (length body + 1) - length units). lia. }
  destruct Hfuel as (fuel & ->).
  rewrite (consumeFunctionArguments_selector tokens _ 0 t Ht Hws Hnum Hstr).
  pose proof (consumeSimpleSelectorLoop_constructs units Hok (S fuel) "" [] []
                [newEOFToken]) as Hloop.
  cbn [app length] in Hloop. fold body in Hloop. fold tokens in Hloop.
  fold text in Hloop. rewrite Hloop. clear Hloop.
  change ("" ++ text)%string with text. change (0 + length body) with (length body).
  assert (Heof : isEOF tokens (length body) = true).
  { unfold isEOF, testAt, tokens. now rewrite tokenAt_app. }
  assert (Hend : isSelectorClauseEnd tokens (length body) = true).
  { unfold isSelectorClauseEnd. rewrite Heof. now rewrite !orb_true_r. }
  cbn [consumeSimpleSelectorLoop]. rewrite Hend.
  apply String.eqb_neq in Htext. rewrite Htext. cbn [andb bind].
  rewrite consumeComplexSelectorLoop_at_EOF by exact Heof. cbn [bind].
  change (3 + (length units + S fuel)) with (S (2 + (length units + S fuel))).
  rewrite consumeFunctionArgumentsLoop_at_EOF by exact Heof.
  rewrite Heof. unfold simpleSelectorOf. rewrite Htext. reflexivity.
Qed.

Example parseCSS_copied_constructs_witness :
  parseCSSTokens (flat_map constructTokens constructsCompound)
  = Returned [mkComplex [(mkSimple (Some "a.b#c[d=e]:hover:lang(en)") [], "")]].
Proof.
  apply (parseCSS_copied_constructs constructsCompound);
    [discriminate | reflexivity | reflexivity | discriminate].
Defined.

(** ** Unterminated brackets and parentheses, the end of input *)

Lemma appendSourcesUntil_to_EOF (stop : Token -> bool) (between : list Token)
    (eof : Token) (rest : list Token) (s : string) (pos : nat) :
  forallb (fun x => negb (stop x)) between = true -> stop eof = true ->
  exists s', appendSourcesUntil stop (between ++ eof :: rest) s pos
             = Ok s' (pos + length between).
Proof.
  intros Hb He. rewrite appendSourcesUntil_app by assumption. eauto.
Qed.

(** X7: an open square bracket, or a colon and a built-in function token,
    followed by tokens that hold no closing token up to an end-of-input
    token, makes [consumeSimpleSelector] throw the unexpected-token error
    at that end-of-input token, at any depth of nesting and whatever was
    read before. *)
Theorem unterminated_construct_fails :
  (forall fuel raw fns before open between eof rest,
     isOpenSquareToken open = true ->
     forallb (fun t => negb (isCloseSquareToken t || isEOFToken t)) between = true ->
     isEOFToken eof = true ->
     consumeSimpleSelectorLoop (before ++ open :: between ++ eof :: rest)
       (S fuel) raw fns (length before)
     = Throw (UnexpectedToken eof)) /\
  (forall fuel raw fns before c f name between eof rest,
     class c = ColonToken -> class f = FunctionToken name ->
     has builtinCSSFunctions name = true ->
     forallb (fun t => negb (isCloseParenToken t || isEOFToken t)) between = true ->
     isEOFToken eof = true ->
     consumeSimpleSelectorLoop (before ++ c :: f :: between ++ eof :: rest)
       (S fuel) raw fns (length before)
     = Throw (UnexpectedToken eof)).
Proof.
  split.
  - intros fuel raw fns before open between eof rest Ho Hbetween Heof.
    remember (before ++ open :: between ++ eof :: rest) as tokens eqn:Htokens.
    set (pos := length before).
    assert (Hat : tokenAt tokens pos = Some open) by (subst tokens; apply tokenAt_app).
    assert (Hclass : class open = OpenSquareToken).
    { unfold isOpenSquareToken in Ho. now destruct (class open). }
    assert (Hprefix : tokens = (before ++ [open]) ++ between ++ eof :: rest).
    { subst tokens. now rewrite <- app_assoc. }
    assert (Hlen : length (before ++ [open]) = S pos).
    { rewrite length_app. simpl. unfold pos. lia. }
    assert (Hskip : skipn (S pos) tokens = between ++ eof :: rest).
    { rewrite Hprefix, <- Hlen. apply skipn_app_length. }
    assert (Hate : tokenAt tokens (S pos + length between) = Some eof).
    { rewrite Hprefix, app_assoc.
      replace (S pos + length between) with (length ((before ++ [open]) ++ between))
        by (rewrite length_app, Hlen; reflexivity).
      apply tokenAt_app. }
    cbn [consumeSimpleSelectorLoop].
    rewrite (not_clause_end tokens pos open Hat), Hat;
      try (unfold isCommaToken, isCloseParenToken, isEOFToken,
             isClauseCombinatorToken, isWhitespaceToken; rewrite Hclass; reflexivity).
    unfold isIdentToken, isDelimToken, isHashToken, isColonToken. rewrite Hclass, Ho.
    cbn [orb]. unfold consumeSquareBrackets. rewrite Hskip.
    rewrite appendSourcesUntil_app
      by (auto; rewrite Heof; apply orb_true_r).
    cbn [bind]. unfold testAt, unexpected. rewrite Hate.
    unfold isCloseSquareToken. now rewrite (isEOFToken_class _ Heof).
  - intros fuel raw fns before c f name between eof rest Hc Hf Hname Hbetween Heof.
    remember (before ++ c :: f :: between ++ eof :: rest) as tokens eqn:Htokens.
    set (pos := length before).
    assert (Hat : tokenAt tokens pos = Some c) by (subst tokens; apply tokenAt_app).
    assert (Hat' : tokenAt tokens (S pos) = Some f).
    { subst tokens. unfold pos. rewrite <- Nat.add_1_r.
      now rewrite tokenAt_app_plus. }
    assert (Hprefix : tokens = (before ++ [c; f]) ++ between ++ eof :: rest).
    { subst tokens. now rewrite <- app_assoc. }
    assert (Hlen : length (before ++ [c; f]) = S (S pos)).
    { rewrite length_app. simpl. unfold pos. lia. }
    assert (Hskip : skipn (S (S pos)) tokens = between ++ eof :: rest).
    { rewrite Hprefix, <- Hlen. apply skipn_app_length. }
    assert (Hate : tokenAt tokens (S (S pos) + length between) = Some eof).
    { rewrite Hprefix, app_assoc.
      replace (S (S pos) + length between)
        with (length ((before ++ [c; f]) ++ between))
        by (rewrite length_app, Hlen; reflexivity).
      apply tokenAt_app. }
    rewrite (consumeSimpleSelectorLoop_colon tokens fuel raw fns pos c Hat Hc).
    rewrite Hat'. destruct f as [cf sf]. simpl in Hf. subst cf. rewrite Hname.
    unfold consumeBuiltinFunctionArguments. rewrite Hskip.
    rewrite appendSourcesUntil_app
      by (auto; rewrite Heof; apply orb_true_r).
    cbn [bind].
    assert (Heof' : isEOF tokens (S (S pos) + length between) = true)
      by (unfold isEOF, testAt; now rewrite Hate).
    rewrite (skipWhitespace_at_EOF _ _ Heof').
    unfold isCloseParen, testAt, unexpected. rewrite Hate.
    unfold isCloseParenToken. now rewrite (isEOFToken_class _ Heof).
Qed.

Example unterminated_construct_fails_witness :
  consumeSimpleSelectorLoop
    ([ident "a"; ws] ++ openSquare :: [ident "b"; comma; closeParen]
       ++ newEOFToken :: []) 1 "" [] 2
  = Throw (UnexpectedToken newEOFToken).
Proof.
  apply (proj1 unterminated_construct_fails 0 "" [] [ident "a"; ws] openSquare
           [ident "b"; comma; closeParen] newEOFToken []); reflexivity.
Defined.

Lemma withEOF_idempotent (tokenized : list Token) :
  withEOF (withEOF tokenized) = withEOF tokenized.
Proof.
  pose proof (withEOF_endsWithEOF tokenized) as He.
  remember (withEOF tokenized) as tokens eqn:Ht. clear Ht tokenized.
  unfold endsWithEOF, isEOF, testAt, tokenAt in He.
  destruct tokens as [|x l _] using rev_ind; [discriminate|].
  rewrite nth_error_snoc in He. now apply withEOF_terminated.
Qed.

(** X8: the result of [parseCSS] is the same whether or not the tokenizer
    ends the token sequence with an end-of-input token: the token that
    [parseCSS] pushes when there is none changes nothing when pushed
    beforehand, and none is pushed twice. *)
Theorem parseCSS_end_of_input_pushed_once (tokenized : list Token) :
  withEOF (withEOF tokenized) = withEOF tokenized /\
  parseCSSTokens (withEOF tokenized) = parseCSSTokens tokenized /\
  (forall eof, isEOFToken eof = true ->
     withEOF (tokenized ++ [eof]) = tokenized ++ [eof]).
Proof.
  split; [apply withEOF_idempotent|]. split.
  - unfold parseCSSTokens. now rewrite withEOF_idempotent.
  - intros eof. apply withEOF_terminated.
Qed.

(** X9: a selector list that [parseCSS] returns is never empty: it has a
    first complex selector. *)
Theorem parseCSS_returns_selectors (tokenized : list Token)
    (selectors : CSSSelectorList) :
  parseCSSTokens tokenized = Returned selectors ->
  exists c rest, selectors = c :: rest.
Proof.
  intros H. destruct (parseCSSTokens_returned _ _ H) as (pos & Hargs & _).
  apply consumeFunctionArguments_not_empty in Hargs.
  destruct selectors as [|c rest]; [contradiction|]. now exists c, rest.
Qed.

Example parseCSS_returns_selectors_witness :
  exists c rest,
    [mkComplex [(mkSimple (Some "div") [], ">"); (mkSimple (Some "span") [], "")]]
    = c :: rest.
Proof. apply (parseCSS_returns_selectors tokensChild). reflexivity. Defined.

(** ** Sources of selectors *)

Lemma tokenAt_eq (T before : list Token) (t : Token) (rest : list Token) :
  T = before ++ t :: rest -> tokenAt T (length before) = Some t.
Proof. intros ->. apply tokenAt_app. Qed.

Lemma isSelectorClauseEnd_token (T : list Token) (pos : nat) (t : Token) :
  tokenAt T pos = Some t -> isSelectorClauseEnd T pos = isSelectorClauseEndToken t.
Proof.
  intros Ht.
  unfold isSelectorClauseEnd, isSelectorClauseEndToken, isComma, isCloseParen, isEOF,
    isClauseCombinator, testAt.
  now rewrite Ht.
Qed.

Lemma skipWhitespace_run (T before spaces : list Token) (t : Token)
    (rest : list Token) :
  T = before ++ spaces ++ t :: rest ->
  forallb isWhitespaceToken spaces = true -> isWhitespaceToken t = false ->
  skipWhitespace T (length before) = length (before ++ spaces).
Proof.
  intros -> Hs Ht. unfold skipWhitespace. rewrite skipn_app_length.
  rewrite advanceWhile_app by assumption. now rewrite length_app.
Qed.

Lemma consumeArgument_skip (T : list Token) (fuel pos : nat) :
  consumeArgument T fuel pos = consumeArgument T fuel (skipWhitespace T pos).
Proof.
  destruct fuel as [|fuel]; [reflexivity|]. cbn [consumeArgument].
  now rewrite skipWhitespace_idem.
Qed.

Lemma construct_first_not_clause_end (u : Construct) :
  constructOk u = true ->
  exists t rest, constructTokens u = t :: rest /\
    isSelectorClauseEndToken t = false /\ isNumberToken t = false /\
    isStringToken t = false.
Proof.
  destruct u as [t|dot identifier|c identifier|open between close|c f between close];
    cbn [constructOk constructTokens]; intros Hok;
    eexists; eexists; (split; [reflexivity|]).
  - destruct t as [[] src]; try discriminate; repeat split; try reflexivity.
    unfold isIdentToken, isDelimToken, isHashToken in Hok. simpl in Hok.
    rewrite !orb_false_r in Hok. apply String.eqb_eq in Hok. now subst.
  - apply andb_true_iff in Hok as [Hok _].
    destruct dot as [[] src]; try discriminate; repeat split; try reflexivity.
    unfold isDelimToken in Hok. simpl in Hok. apply String.eqb_eq in Hok. now subst.
  - apply andb_true_iff in Hok as [Hok _]. apply andb_true_iff in Hok as [Hok _].
    destruct c as [[] src]; try discriminate; repeat split; reflexivity.
  - apply andb_true_iff in Hok as [Hok _]. apply andb_true_iff in Hok as [Hok _].
    destruct open as [[] src]; try discriminate; repeat split; reflexivity.
  - do 4 (apply andb_true_iff in Hok as [Hok _]).
    destruct c as [[] src]; try discriminate; repeat split; reflexivity.
Qed.

Lemma not_clause_end_not_whitespace (t : Token) :
  isSelectorClauseEndToken t = false ->
  isWhitespaceToken t = false /\ isClauseCombinatorToken t = false.
Proof.
  unfold isSelectorClauseEndToken. intros H.
  apply orb_false_iff in H as [H Hws]. apply orb_false_iff in H as [_ Hcomb]. auto.
Qed.

Lemma terminator_clause_end (t : Token) :
  isTerminatorToken t = true ->
  isSelectorClauseEndToken t = true /\ isWhitespaceToken t = false /\
  isClauseCombinatorToken t = false /\ isNumberToken t = false /\
  isStringToken t = false.
Proof.
  unfold isTerminatorToken, isSelectorClauseEndToken.
  destruct t as [[] src]; try discriminate; intros _; repeat split; reflexivity.
Qed.

Lemma whitespace_clause_end (t : Token) :
  isWhitespaceToken t = true -> isSelectorClauseEndToken t = true.
Proof. unfold isSelectorClauseEndToken. intros ->. now rewrite !orb_true_r. Qed.

Lemma trailing_clause_end (trailing : list Token) (term : Token) (rest : list Token) :
  forallb isWhitespaceToken trailing = true -> isTerminatorToken term = true ->
  exists t r, trailing ++ term :: rest = t :: r /\ isSelectorClauseEndToken t = true.
Proof.
  intros Hws Hterm. destruct trailing as [|w trailing].
  - exists term, rest. split; [reflexivity|]. now apply terminator_clause_end.
  - cbn [forallb] in Hws. apply andb_true_iff in Hws as [Hw _].
    exists w, (trailing ++ term :: rest). split; [reflexivity|].
    now apply whitespace_clause_end.
Qed.

Lemma separator_clause_end (sep : Separator) (rest : list Token) :
  separatorOk sep = true ->
  exists t r, separatorTokens sep ++ rest = t :: r /\
              isSelectorClauseEndToken t = true.
Proof.
  destruct sep as [space spaces|before combinator after];
    cbn [separatorOk separatorTokens]; intros Hok.
  - apply andb_true_iff in Hok as [Hs _].
    exists space, (spaces ++ rest). split; [reflexivity|].
    now apply whitespace_clause_end.
  - apply andb_true_iff in Hok as [Hok _]. apply andb_true_iff in Hok as [Hb Hc].
    destruct before as [|w before].
    + exists combinator, (after ++ rest). split; [reflexivity|].
      unfold isSelectorClauseEndToken. rewrite Hc. now rewrite !orb_true_r.
    + cbn [forallb] in Hb. apply andb_true_iff in Hb as [Hw _].
      exists w, ((before ++ combinator :: after) ++ rest). split; [reflexivity|].
      now apply whitespace_clause_end.
Qed.

Lemma clauseCombinatorAt_token (T : list Token) (pos : nat) (t : Token) :
  tokenAt T pos = Some t ->
  clauseCombinatorAt T pos
  = if isClauseCombinatorToken t
    then Some match class t with DelimToken value => value | _ => "" end
    else None.
Proof.
  intros Ht. unfold clauseCombinatorAt, isClauseCombinatorToken. rewrite Ht.
  destruct (class t); try reflexivity.
Qed.

Lemma consumeComplexSelectorLoop_unfold (T : list Token) (fuel : nat)
    (result : list (CSSSimpleSelector * string)) (pos : nat) :
  consumeComplexSelectorLoop T (S fuel) result pos =
  match clauseCombinatorAt T (skipWhitespace T pos) with
  | Some value =>
      let* (selector, pos') :=
        consumeSimpleSelector T fuel
          (skipWhitespace T (S (skipWhitespace T pos))) in
      consumeComplexSelectorLoop T fuel
        (setLastCombinator result value ++ [(selector, "")]) pos'
  | None =>
      if isSelectorClauseEnd T (skipWhitespace T pos)
      then Ok (mkComplex result) (skipWhitespace T pos)
      else
        let* (selector, pos') :=
          consumeSimpleSelector T fuel (skipWhitespace T pos) in
        consumeComplexSelectorLoop T fuel (result ++ [(selector, "")]) pos'
  end.
Proof. reflexivity. Qed.

Lemma pieceTokens_call (c f : Token) (argument : Padded (ArgumentSource (list Piece)))
    (others : list (Token * Padded (ArgumentSource (list Piece)))) (close : Token) :
  pieceTokens (Call c f argument others close)
  = c :: f :: argumentsTokens simpleTokens argument others ++ [close].
Proof. reflexivity. Qed.

Lemma pieceFunctions_call (c f : Token)
    (argument : Padded (ArgumentSource (list Piece)))
    (others : list (Token * Padded (ArgumentSource (list Piece)))) (close : Token) :
  pieceFunctions (Call c f argument others close)
  = [mkFunction (nameOf f) (argumentsValue simpleValue argument others)].
Proof. reflexivity. Qed.

Lemma pieceOk_call (c f : Token) (argument : Padded (ArgumentSource (list Piece)))
    (others : list (Token * Padded (ArgumentSource (list Piece)))) (close : Token) :
  pieceOk (Call c f argument others close)
  = isColonToken c
    && match class f with FunctionToken _ => true | _ => false end
    && negb (has builtinCSSFunctions (nameOf f))
    && argumentsOk simpleOk argument others
    && isCloseParenToken close.
Proof. reflexivity. Qed.

Lemma simpleText_cons (p : Piece) (pieces : list Piece) :
  simpleText (p :: pieces) = (pieceText p ++ simpleText pieces)%string.
Proof. unfold simpleText. cbn [map]. apply concat_empty_cons. Qed.

Lemma piece_first_token (p : Piece) :
  pieceOk p = true ->
  exists t rest, pieceTokens p = t :: rest /\
    isSelectorClauseEndToken t = false /\ isNumberToken t = false /\
    isStringToken t = false.
Proof.
  destruct p as [u|c identifier|c f argument others close].
  - apply construct_first_not_clause_end.
  - cbn [pieceOk pieceTokens]. intros Hok.
    apply andb_true_iff in Hok as [Hok _]. apply andb_true_iff in Hok as [Hc _].
    exists c, [identifier]. split; [reflexivity|].
    destruct c as [[] src]; try discriminate; repeat split; reflexivity.
  - rewrite pieceOk_call, pieceTokens_call. intros Hok.
    do 4 (apply andb_true_iff in Hok as [Hok _]).
    eexists; eexists; split; [reflexivity|].
    destruct c as [[] src]; try discriminate; repeat split; reflexivity.
Qed.

Lemma simple_first_token (pieces : list Piece) :
  simpleOk pieces = true ->
  exists t rest, simpleTokens pieces = t :: rest /\
    isSelectorClauseEndToken t = false /\ isNumberToken t = false /\
    isStringToken t = false.
Proof.
  unfold simpleOk. intros H. apply andb_true_iff in H as [Hok Hne].
  destruct pieces as [|p pieces]; [discriminate|].
  cbn [forallb] in Hok. apply andb_true_iff in Hok as [Hp _].
  destruct (piece_first_token p Hp) as (t & rest & E & Ht).
  exists t, (rest ++ simpleTokens pieces). split; [|exact Ht].
  unfold simpleTokens. cbn [flat_map]. now rewrite E.
Qed.

Lemma consumeSimpleSelectorLoop_at_end (T : list Token) (fuel : nat) (raw : string)
    (fns : list CSSFunction) (pos : nat) :
  isSelectorClauseEnd T pos = true -> notEmpty raw fns = true ->
  consumeSimpleSelectorLoop T (S fuel) raw fns pos
  = Ok (simpleSelectorOf raw fns) pos.
Proof.
  intros Hend Hne. cbn [consumeSimpleSelectorLoop]. rewrite Hend.
  unfold notEmpty in Hne. apply negb_true_iff in Hne. now rewrite Hne.
Qed.

(** One piece of a simple selector is one iteration of the loop. *)
Lemma consumeSimpleSelectorLoop_piece (fuel : nat) :
  argumentsParsed fuel ->
  forall (T before : list Token) (p : Piece) (rest : list Token) (raw : string)
         (fns : list CSSFunction),
    T = before ++ pieceTokens p ++ rest ->
    pieceOk p = true ->
    5 * length (pieceTokens p) <= S fuel ->
    consumeSimpleSelectorLoop T (S fuel) raw fns (length before)
    = consumeSimpleSelectorLoop T fuel (raw ++ pieceText p) (fns ++ pieceFunctions p)
        (length (before ++ pieceTokens p)).
Proof.
  intros IHargs T before p rest raw fns HT Hok Hfuel.
  destruct p as [u|c identifier|c f argument others close].
  - cbn [pieceTokens pieceText pieceFunctions pieceOk] in *. subst T.
    rewrite (consumeSimpleSelectorLoop_construct u fuel raw fns before rest Hok).
    now rewrite app_nil_r, length_app.
  - cbn [pieceTokens pieceText pieceFunctions pieceOk] in *.
    apply andb_true_iff in Hok as [Hok Hname].
    apply andb_true_iff in Hok as [Hc Hi]. apply negb_true_iff in Hname.
    assert (Hat : tokenAt T (length before) = Some c)
      by (eapply tokenAt_eq; rewrite HT; reflexivity).
    assert (Hat' : tokenAt T (S (length before)) = Some identifier).
    { replace (S (length before)) with (length (before ++ [c]))
        by (rewrite length_app; simpl; lia).
      eapply tokenAt_eq. rewrite HT, <- app_assoc. reflexivity. }
    destruct c as [[] csrc]; try discriminate.
    destruct identifier as [[name| | | | | | | | | | | | | | | | | | | | | | | | |] isrc];
      try discriminate.
    cbn [nameOf class] in *.
    rewrite (consumeSimpleSelectorLoop_custom_ident T fuel raw fns (length before)
               _ name isrc Hat eq_refl Hat' Hname).
    rewrite append_empty_r, length_app. do 2 f_equal. simpl. lia.
  - rewrite pieceOk_call in Hok. rewrite pieceFunctions_call.
    rewrite pieceTokens_call in *. cbn [pieceText].
    apply andb_true_iff in Hok as [Hok Hclose].
    apply andb_true_iff in Hok as [Hok Hargs].
    apply andb_true_iff in Hok as [Hok Hname].
    apply andb_true_iff in Hok as [Hc Hf]. apply negb_true_iff in Hname.
    assert (Hclass : class c = ColonToken)
      by (destruct c as [[] csrc]; try discriminate; reflexivity).
    destruct f as [[] fsrc]; try discriminate.
    cbn [nameOf class] in *.
    set (f := mkToken (FunctionToken value) fsrc) in *.
    set (A := argumentsTokens simpleTokens argument others) in *.
    set (start := before ++ [c; f]).
    assert (HT' : T = start ++ A ++ close :: rest).
    { rewrite HT. unfold start. cbn [app]. rewrite <- !app_assoc. reflexivity. }
    assert (Hat : tokenAt T (length before) = Some c)
      by (eapply tokenAt_eq; rewrite HT; reflexivity).
    assert (Hat' : tokenAt T (S (length before)) = Some f).
    { replace (S (length before)) with (length (before ++ [c]))
        by (rewrite length_app; simpl; lia).
      eapply tokenAt_eq. rewrite HT, <- app_assoc. reflexivity. }
    assert (Hclosed : tokenAt T (length (start ++ A)) = Some close).
    { eapply tokenAt_eq. rewrite HT', <- app_assoc. reflexivity. }
    assert (Hcloser : isCloserToken close = true)
      by (unfold isCloserToken; now rewrite Hclose).
    assert (Hnws : isWhitespaceToken close = false).
    { unfold isCloseParenToken, isWhitespaceToken in *. now destruct (class close). }
    cbn [length] in Hfuel. rewrite length_app in Hfuel.
    rewrite (consumeSimpleSelectorLoop_colon T fuel raw fns (length before) c
               Hat Hclass).
    rewrite Hat'. unfold f at 1. rewrite Hname.
    replace (S (S (length before))) with (length start)
      by (unfold start; rewrite length_app; simpl; lia).
    rewrite (IHargs T start argument others close rest HT' Hargs Hcloser)
      by (fold A; lia).
    cbn [bind]. fold A.
    rewrite skipWhitespace_id by (unfold testAt; now rewrite Hclosed).
    unfold isCloseParen, testAt. rewrite Hclosed, Hclose. cbn [negb].
    rewrite append_empty_r. do 2 f_equal.
    unfold start. rewrite !length_app. cbn [length]. rewrite !length_app.
    cbn [length]. lia.
Qed.

Lemma simpleLoop_step (fuel : nat) :
  simpleLoopParsed fuel -> argumentsParsed fuel -> simpleLoopParsed (S fuel).
Proof.
  intros IHloop IHargs T before pieces t rest raw fns HT Hok Ht Hne Hfuel.
  destruct pieces as [|p pieces].
  - cbn [simpleTokens flat_map app] in *.
    assert (Hat : tokenAt T (length before) = Some t) by (now apply tokenAt_eq in HT).
    change (simpleText []) with "" in *.
    change (simpleFunctions []) with (@nil CSSFunction) in *.
    rewrite append_empty_r, !app_nil_r in *.
    apply consumeSimpleSelectorLoop_at_end; [|exact Hne].
    now rewrite (isSelectorClauseEnd_token T _ t Hat).
  - cbn [forallb] in Hok. apply andb_true_iff in Hok as [Hp Hok].
    assert (Etok : simpleTokens (p :: pieces) = pieceTokens p ++ simpleTokens pieces)
      by reflexivity.
    assert (Efns : simpleFunctions (p :: pieces)
                   = pieceFunctions p ++ simpleFunctions pieces) by reflexivity.
    rewrite Etok, Efns, simpleText_cons in *. clear Etok Efns.
    rewrite length_app in Hfuel.
    destruct (piece_first_token p Hp) as (t0 & r0 & E0 & _).
    assert (Hlen : 1 <= length (pieceTokens p)) by (rewrite E0; simpl; lia).
    rewrite (consumeSimpleSelectorLoop_piece fuel IHargs T before p
               (simpleTokens pieces ++ t :: rest) raw fns);
      [|rewrite HT; now rewrite <- app_assoc|exact Hp|lia].
    rewrite (IHloop T (before ++ pieceTokens p) pieces t rest
               (raw ++ pieceText p)%string (fns ++ pieceFunctions p));
      [|rewrite HT; now rewrite <- !app_assoc|exact Hok|exact Ht| |lia].
    + now rewrite append_assoc, <- !app_assoc.
    + now rewrite append_assoc, <- app_assoc.
Qed.

Lemma simple_step (fuel : nat) : simpleLoopParsed fuel -> simpleParsed (S fuel).
Proof.
  intros IHloop T before pieces t rest HT Hok Ht Hfuel.
  unfold simpleOk in Hok. apply andb_true_iff in Hok as [Hok Hne].
  cbn [consumeSimpleSelector].
  apply (IHloop T before pieces t rest "" []); auto. lia.
Qed.

Lemma tail_clause_end (tail : list (Separator * list Piece)) (trailing : list Token)
    (term : Token) (rest : list Token) :
  tailOk simpleOk tail = true ->
  forallb isWhitespaceToken trailing = true -> isTerminatorToken term = true ->
  exists t r, tailTokens simpleTokens tail ++ trailing ++ term :: rest = t :: r /\
              isSelectorClauseEndToken t = true.
Proof.
  intros Hf Hws Hterm. destruct tail as [|[sep pieces] tail].
  - now apply trailing_clause_end.
  - cbn [tailOk forallb fst snd] in Hf.
    apply andb_true_iff in Hf as [Hf _]. apply andb_true_iff in Hf as [Hsep _].
    unfold tailTokens. cbn [flat_map fst snd]. rewrite <- !app_assoc.
    now apply separator_clause_end.
Qed.

Lemma complexLoop_step (fuel : nat) :
  simpleParsed fuel -> complexLoopParsed fuel -> complexLoopParsed (S fuel).
Proof.
  intros IHsimple IHloop T before tail trailing term rest done current
    HT Hok Hws Hterm Hfuel.
  destruct tail as [|[sep pieces] tail].
  - cbn [tailTokens flat_map app] in *.
    destruct (terminator_clause_end term Hterm) as (Hend & Hnws & Hncomb & _).
    assert (Hskip : skipWhitespace T (length before) = length (before ++ trailing))
      by (apply (skipWhitespace_run T before trailing term rest); auto).
    assert (Hat : tokenAt T (length (before ++ trailing)) = Some term).
    { apply (tokenAt_eq T _ term rest). now rewrite <- app_assoc. }
    rewrite consumeComplexSelectorLoop_unfold, Hskip.
    rewrite (clauseCombinatorAt_token T _ term Hat), Hncomb.
    rewrite (isSelectorClauseEnd_token T _ term Hat), Hend. reflexivity.
  - cbn [tailOk forallb fst snd] in Hok.
    apply andb_true_iff in Hok as [Hok Htail].
    apply andb_true_iff in Hok as [Hsep Hpieces].
    fold (tailOk simpleOk tail) in Htail.
    assert (Hft : tailTokens simpleTokens ((sep, pieces) :: tail)
                  = separatorTokens sep ++ simpleTokens pieces
                      ++ tailTokens simpleTokens tail).
    { unfold tailTokens. cbn [flat_map fst snd]. now rewrite <- app_assoc. }
    rewrite Hft in *. clear Hft.
    rewrite !length_app in Hfuel.
    destruct (simple_first_token pieces Hpieces) as (t0 & r0 & Ecomp & Ht0 & _).
    destruct (not_clause_end_not_whitespace t0 Ht0) as [Ht0ws Ht0comb].
    destruct (tail_clause_end tail trailing term rest Htail Hws Hterm)
      as (t1 & r1 & Enext & Ht1).
    assert (Hsimple : forall start,
              T = start ++ simpleTokens pieces ++ t1 :: r1 ->
              consumeSimpleSelector T fuel (length start)
              = Ok (simpleValue pieces) (length (start ++ simpleTokens pieces))).
    { intros start Hstart.
      apply (IHsimple T start pieces t1 r1); auto. lia. }
    destruct sep as [space spaces|wsBefore combinator wsAfter];
      cbn [separatorOk separatorTokens separatorValue] in *.
    + apply andb_true_iff in Hsep as [Hspace Hspaces].
      set (start := before ++ space :: spaces).
      assert (HT' : T = start ++ simpleTokens pieces ++ t1 :: r1).
      { rewrite HT, <- Enext. unfold start. now rewrite <- !app_assoc. }
      assert (Hskip : skipWhitespace T (length before) = length start).
      { apply (skipWhitespace_run T before (space :: spaces) t0
                 (r0 ++ t1 :: r1)).
        - rewrite HT', Ecomp. unfold start. now rewrite <- !app_assoc.
        - cbn [forallb]. now rewrite Hspace.
        - exact Ht0ws. }
      assert (Hat : tokenAt T (length start) = Some t0).
      { apply (tokenAt_eq T _ t0 (r0 ++ t1 :: r1)). now rewrite HT', Ecomp. }
      rewrite consumeComplexSelectorLoop_unfold, Hskip.
      rewrite (clauseCombinatorAt_token T _ t0 Hat), Ht0comb.
      rewrite (isSelectorClauseEnd_token T _ t0 Hat), Ht0.
      rewrite (Hsimple start HT'). cbn [bind].
      rewrite (IHloop T (start ++ simpleTokens pieces) tail trailing term rest
                 (done ++ [(current, "")]) (simpleValue pieces)).
      * cbn [simplesOf separatorValue]. rewrite <- !app_assoc. f_equal.
        unfold start. now rewrite <- !app_assoc.
      * rewrite HT. unfold start. now rewrite <- !app_assoc.
      * exact Htail.
      * exact Hws.
      * exact Hterm.
      * simpl in Hfuel. lia.
    + apply andb_true_iff in Hsep as [Hsep HwsAfter].
      apply andb_true_iff in Hsep as [HwsBefore Hcomb].
      set (at_combinator := before ++ wsBefore).
      set (start := (at_combinator ++ [combinator]) ++ wsAfter).
      assert (HT' : T = start ++ simpleTokens pieces ++ t1 :: r1).
      { rewrite HT, <- Enext. unfold start, at_combinator.
        rewrite <- !app_assoc. reflexivity. }
      assert (Hcombws : isWhitespaceToken combinator = false).
      { unfold isClauseCombinatorToken, isWhitespaceToken in *.
        now destruct (class combinator). }
      assert (Hskip : skipWhitespace T (length before) = length at_combinator).
      { apply (skipWhitespace_run T before wsBefore combinator
                 (wsAfter ++ simpleTokens pieces ++ t1 :: r1)); auto.
        rewrite HT'. unfold start, at_combinator. now rewrite <- !app_assoc. }
      assert (Hat : tokenAt T (length at_combinator) = Some combinator).
      { apply (tokenAt_eq T _ combinator
                 (wsAfter ++ simpleTokens pieces ++ t1 :: r1)).
        rewrite HT'. unfold start. now rewrite <- !app_assoc. }
      assert (Hskip' : skipWhitespace T (S (length at_combinator)) = length start).
      { replace (S (length at_combinator))
          with (length (at_combinator ++ [combinator]))
          by (rewrite length_app; simpl; lia).
        apply (skipWhitespace_run T _ wsAfter t0 (r0 ++ t1 :: r1)); auto.
        rewrite HT', Ecomp. unfold start. now rewrite <- !app_assoc. }
      rewrite consumeComplexSelectorLoop_unfold, Hskip.
      rewrite (clauseCombinatorAt_token T _ combinator Hat), Hcomb.
      cbv zeta. rewrite Hskip', setLastCombinator_snoc.
      rewrite (Hsimple start HT'). cbn [bind].
      rewrite (IHloop T (start ++ simpleTokens pieces) tail trailing term rest
                 (done ++ [(current, match class combinator with
                                     | DelimToken value => value
                                     | _ => ""
                                     end)])
                 (simpleValue pieces)).
      * cbn [simplesOf separatorValue]. rewrite <- !app_assoc. f_equal.
        unfold start, at_combinator. rewrite <- !app_assoc. reflexivity.
      * rewrite HT. unfold start, at_combinator. rewrite <- !app_assoc. reflexivity.
      * exact Htail.
      * exact Hws.
      * exact Hterm.
      * rewrite length_app in Hfuel. simpl in Hfuel. lia.
Qed.

Lemma complex_step (fuel : nat) :
  simpleParsed fuel -> complexLoopParsed fuel -> complexParsed (S fuel).
Proof.
  intros IHsimple IHloop T before head tail trailing term rest
    HT Hhead Htail Hws Hterm Hfuel.
  rewrite length_app in Hfuel.
  destruct (simple_first_token head Hhead) as (t0 & r0 & Ecomp & Ht0 & _).
  destruct (not_clause_end_not_whitespace t0 Ht0) as [Ht0ws _].
  destruct (tail_clause_end tail trailing term rest Htail Hws Hterm)
    as (t1 & r1 & Enext & Ht1).
  assert (Hat : tokenAt T (length before) = Some t0).
  { eapply tokenAt_eq. rewrite HT, Ecomp. reflexivity. }
  cbn [consumeComplexSelector].
  rewrite skipWhitespace_id by (unfold testAt; now rewrite Hat).
  rewrite (IHsimple T before head t1 r1);
    [|rewrite HT, <- Enext; reflexivity|exact Hhead|exact Ht1|lia].
  cbn [bind].
  pose proof (IHloop T (before ++ simpleTokens head) tail trailing term rest []
                (simpleValue head)) as Hloop.
  cbn [app] in Hloop. rewrite Hloop; auto.
  - now rewrite <- !app_assoc.
  - rewrite HT. now rewrite <- !app_assoc.
  - lia.
Qed.

Lemma argument_step (fuel : nat) : complexParsed fuel -> argumentParsed (S fuel).
Proof.
  intros IHcomplex T before [leading a trailing] term rest HT Hok Hterm Hfuel.
  unfold paddedOk, paddedTokens in *. cbn [spaceBefore content spaceAfter] in *.
  apply andb_true_iff in Hok as [Hok Htrailing].
  apply andb_true_iff in Hok as [Hleading Ha].
  destruct (terminator_clause_end term Hterm) as (_ & Htermws & _).
  set (start := before ++ leading).
  assert (HT' : T = start ++ argumentTokens simpleTokens a ++ trailing
                      ++ term :: rest).
  { rewrite HT. unfold start. now rewrite <- !app_assoc. }
  assert (Hend : length (before ++ leading ++ argumentTokens simpleTokens a
                           ++ trailing)
                 = length ((start ++ argumentTokens simpleTokens a) ++ trailing)).
  { unfold start. now rewrite <- !app_assoc. }
  rewrite Hend.
  (* a number or a string: one token, then the whitespace *)
  assert (Hone : forall t value,
            argumentTokens simpleTokens a = [t] ->
            isWhitespaceToken t = false ->
            consumeArgument T (S fuel) (length before) = Ok value (S (length start)) ->
            exists pos,
              consumeArgument T (S fuel) (length before) = Ok value pos /\
              skipWhitespace T pos
              = length ((start ++ argumentTokens simpleTokens a) ++ trailing)).
  { intros t value Et Htws Harg. exists (S (length start)). split; [exact Harg|].
    rewrite Et. replace (S (length start)) with (length (start ++ [t]))
      by (rewrite length_app; simpl; lia).
    apply (skipWhitespace_run T (start ++ [t]) trailing term rest); auto.
    rewrite HT', Et. now rewrite <- !app_assoc. }
  assert (Hskip : forall t r,
            argumentTokens simpleTokens a ++ trailing ++ term :: rest = t :: r ->
            isWhitespaceToken t = false ->
            skipWhitespace T (length before) = length start /\
            tokenAt T (length start) = Some t).
  { intros t r Et Htws. split.
    - apply (skipWhitespace_run T before leading t r); auto.
      rewrite HT. now rewrite <- Et, <- !app_assoc.
    - eapply tokenAt_eq. rewrite HT', Et. reflexivity. }
  destruct a as [value source|value source|head tail].
  - apply (Hone (mkToken (NumberToken value) source)); [reflexivity|reflexivity|].
    destruct (Hskip (mkToken (NumberToken value) source) (trailing ++ term :: rest)
                eq_refl eq_refl) as [Hs Hat].
    rewrite consumeArgument_skip, Hs. cbn [consumeArgument].
    rewrite skipWhitespace_id by (unfold testAt; now rewrite Hat).
    rewrite Hat. reflexivity.
  - apply (Hone (mkToken (StringToken value) source)); [reflexivity|reflexivity|].
    destruct (Hskip (mkToken (StringToken value) source) (trailing ++ term :: rest)
                eq_refl eq_refl) as [Hs Hat].
    rewrite consumeArgument_skip, Hs. cbn [consumeArgument].
    rewrite skipWhitespace_id by (unfold testAt; now rewrite Hat).
    rewrite Hat. reflexivity.
  - cbn [argumentTokens argumentOk argumentValue] in *.
    apply andb_true_iff in Ha as [Hhead Htail].
    destruct (simple_first_token head Hhead) as (t0 & r0 & E0 & Ht0 & Hnum & Hstr).
    destruct (not_clause_end_not_whitespace t0 Ht0) as [Ht0ws _].
    destruct (Hskip t0 (r0 ++ tailTokens simpleTokens tail ++ trailing
                          ++ term :: rest)) as [Hs Hat];
      [rewrite E0; now rewrite <- !app_assoc|exact Ht0ws|].
    exists (length ((start ++ simpleTokens head ++ tailTokens simpleTokens tail)
                      ++ trailing)).
    split.
    + rewrite consumeArgument_skip, Hs. cbn [consumeArgument].
      rewrite skipWhitespace_id by (unfold testAt; now rewrite Hat).
      rewrite Hat.
      rewrite (IHcomplex T start head tail trailing term rest); auto.
      * rewrite <- !app_assoc.
        unfold isNumberToken, isStringToken in *.
        destruct t0 as [[] s0]; try discriminate; reflexivity.
      * rewrite HT'. now rewrite <- !app_assoc.
      * rewrite !length_app in *. lia.
    + apply skipWhitespace_id. unfold testAt.
      rewrite (tokenAt_eq T _ term rest); [exact Htermws|].
      rewrite HT'. now rewrite <- !app_assoc.
Qed.

Lemma others_terminator
    (others : list (Token * Padded (ArgumentSource (list Piece)))) (closer : Token)
    (rest : list Token) :
  othersOk simpleOk others = true -> isCloserToken closer = true ->
  exists t r, othersTokens simpleTokens others ++ closer :: rest = t :: r /\
              isTerminatorToken t = true /\ isWhitespaceToken t = false.
Proof.
  intros Hok Hcloser. destruct others as [|[cm a] others].
  - exists closer, rest. split; [reflexivity|].
    unfold isCloserToken, isTerminatorToken, isCloseParenToken, isEOFToken,
      isCommaToken, isWhitespaceToken in *.
    destruct (class closer); try discriminate; split; reflexivity.
  - cbn [othersOk forallb fst snd] in Hok.
    apply andb_true_iff in Hok as [Hok _]. apply andb_true_iff in Hok as [Hcm _].
    exists cm, ((paddedTokens simpleTokens a ++ othersTokens simpleTokens others)
                  ++ closer :: rest).
    split; [reflexivity|].
    unfold isTerminatorToken, isCommaToken, isWhitespaceToken in *.
    destruct (class cm); try discriminate; split; reflexivity.
Qed.

Lemma argumentsLoop_step (fuel : nat) :
  argumentParsed fuel -> argumentsLoopParsed fuel -> argumentsLoopParsed (S fuel).
Proof.
  intros IHarg IHloop T before others closer rest result pos
    HT Hok Hcloser Hpos Hfuel.
  rewrite consumeFunctionArgumentsLoop_unfold, Hpos.
  destruct others as [|[cm a] others].
  - cbn [othersTokens othersValue flat_map map app] in *. rewrite !app_nil_r.
    assert (Hat : tokenAt T (length before) = Some closer)
      by (now apply tokenAt_eq in HT).
    unfold isComma, testAt. rewrite Hat.
    unfold isCloserToken, isCloseParenToken, isEOFToken, isCommaToken in *.
    destruct (class closer); try discriminate; reflexivity.
  - cbn [othersOk forallb fst snd] in Hok.
    apply andb_true_iff in Hok as [Hok Hothers].
    apply andb_true_iff in Hok as [Hcm Ha].
    fold (othersOk simpleOk others) in Hothers.
    assert (Hot : othersTokens simpleTokens ((cm, a) :: others)
                  = [cm] ++ paddedTokens simpleTokens a
                      ++ othersTokens simpleTokens others) by reflexivity.
    rewrite Hot in *. clear Hot.
    rewrite !length_app in Hfuel. cbn [length] in Hfuel.
    destruct (others_terminator others closer rest Hothers Hcloser)
      as (t1 & r1 & Enext & Ht1 & _).
    assert (Hat : tokenAt T (length before) = Some cm)
      by (eapply tokenAt_eq; rewrite HT; reflexivity).
    unfold isComma, testAt. rewrite Hat, Hcm. cbn [negb].
    replace (S (length before)) with (length (before ++ [cm]))
      by (rewrite length_app; simpl; lia).
    destruct (IHarg T (before ++ [cm]) a t1 r1) as (pos' & Harg & Hpos'); auto.
    + rewrite HT, <- Enext. now rewrite <- !app_assoc.
    + lia.
    + rewrite Harg. cbn [bind].
      rewrite (IHloop T ((before ++ [cm]) ++ paddedTokens simpleTokens a) others
                 closer rest (result ++ [argumentValue simpleValue (content a)])
                 pos'); auto.
      * cbn [othersValue map snd]. rewrite <- !app_assoc. reflexivity.
      * rewrite HT. now rewrite <- !app_assoc.
      * lia.
Qed.

Lemma arguments_step (fuel : nat) :
  argumentParsed fuel -> argumentsLoopParsed fuel -> argumentsParsed (S fuel).
Proof.
  intros IHarg IHloop T before argument others closer rest HT Hok Hcloser Hfuel.
  unfold argumentsOk, argumentsTokens, argumentsValue in *.
  apply andb_true_iff in Hok as [Ha Hothers].
  rewrite length_app in Hfuel.
  destruct (others_terminator others closer rest Hothers Hcloser)
    as (t1 & r1 & Enext & Ht1 & _).
  cbn [consumeFunctionArguments].
  destruct (IHarg T before argument t1 r1) as (pos' & Harg & Hpos'); auto.
  - rewrite HT, <- Enext. now rewrite <- !app_assoc.
  - lia.
  - rewrite Harg. cbn [bind].
    rewrite (IHloop T (before ++ paddedTokens simpleTokens argument) others closer
               rest [argumentValue simpleValue (content argument)] pos'); auto.
    + now rewrite <- !app_assoc.
    + rewrite HT. now rewrite <- !app_assoc.
    + lia.
Qed.

Lemma rules_parse (fuel : nat) : rulesParse fuel.
Proof.
  induction fuel as [|fuel (IH1 & IH2 & IH3 & IH4 & IH5 & IH6 & IH7)].
  - unfold rulesParse. repeat split; intro; intros; lia.
  - unfold rulesParse. split; [|split; [|split; [|split; [|split; [|split]]]]].
    + now apply simpleLoop_step.
    + now apply simple_step.
    + now apply complexLoop_step.
    + now apply complex_step.
    + now apply argument_step.
    + now apply argumentsLoop_step.
    + now apply arguments_step.
Qed.

(** The sources end in a token that is not the end of input. *)
Lemma last_token_app (l1 l2 : list Token) :
  (exists l t, l2 = l ++ [t] /\ isEOFToken t = false) ->
  exists l t, l1 ++ l2 = l ++ [t] /\ isEOFToken t = false.
Proof.
  intros (l & t & -> & Ht). exists (l1 ++ l), t. split; [apply app_assoc|exact Ht].
Qed.

Lemma last_token_whitespace (l1 l2 : list Token) :
  (exists l t, l1 = l ++ [t] /\ isEOFToken t = false) ->
  forallb isWhitespaceToken l2 = true ->
  exists l t, l1 ++ l2 = l ++ [t] /\ isEOFToken t = false.
Proof.
  intros H Hws. destruct l2 as [|x l2 _] using rev_ind.
  - now rewrite app_nil_r.
  - apply last_token_app. exists l2, x. split; [reflexivity|].
    rewrite forallb_app in Hws. apply andb_true_iff in Hws as [_ Hx].
    cbn [forallb] in Hx. unfold isWhitespaceToken, isEOFToken in *.
    now destruct (class x).
Qed.

Lemma piece_last_token (p : Piece) :
  pieceOk p = true ->
  exists l t, pieceTokens p = l ++ [t] /\ isEOFToken t = false.
Proof.
  destruct p as [u|c identifier|c f argument others close].
  - apply construct_last_token.
  - cbn [pieceOk pieceTokens]. intros Hok.
    apply andb_true_iff in Hok as [Hok _]. apply andb_true_iff in Hok as [_ Hi].
    exists [c], identifier. split; [reflexivity|].
    unfold isIdentToken, isEOFToken in *. now destruct (class identifier).
  - rewrite pieceOk_call, pieceTokens_call. intros Hok.
    apply andb_true_iff in Hok as [_ Hclose].
    exists (c :: f :: argumentsTokens simpleTokens argument others), close.
    split; [reflexivity|].
    unfold isCloseParenToken, isEOFToken in *. now destruct (class close).
Qed.

Lemma simple_last_token (pieces : list Piece) :
  simpleOk pieces = true ->
  exists l t, simpleTokens pieces = l ++ [t] /\ isEOFToken t = false.
Proof.
  unfold simpleOk. intros H. apply andb_true_iff in H as [Hok Hne].
  destruct pieces as [|p pieces _] using rev_ind; [discriminate|].
  rewrite forallb_app in Hok. apply andb_true_iff in Hok as [_ Hp].
  cbn [forallb] in Hp. rewrite andb_true_r in Hp.
  unfold simpleTokens. rewrite flat_map_app. cbn [flat_map]. rewrite app_nil_r.
  apply last_token_app, piece_last_token, Hp.
Qed.

Lemma padded_last_token (a : Padded (ArgumentSource (list Piece))) :
  paddedOk simpleOk a = true ->
  exists l t, paddedTokens simpleTokens a = l ++ [t] /\ isEOFToken t = false.
Proof.
  destruct a as [leading a trailing]. unfold paddedOk, paddedTokens.
  cbn [spaceBefore content spaceAfter]. intros Hok.
  apply andb_true_iff in Hok as [Hok Htrailing].
  apply andb_true_iff in Hok as [_ Ha].
  apply last_token_app, last_token_whitespace; [|exact Htrailing].
  destruct a as [value source|value source|head tail];
    cbn [argumentTokens argumentOk] in *.
  - exists [], (mkToken (NumberToken value) source). now split.
  - exists [], (mkToken (StringToken value) source). now split.
  - apply andb_true_iff in Ha as [Hhead Htail].
    destruct tail as [|[sep pieces] tail _] using rev_ind.
    + cbn [tailTokens flat_map]. rewrite app_nil_r. now apply simple_last_token.
    + unfold tailOk in Htail. rewrite forallb_app in Htail.
      apply andb_true_iff in Htail as [_ Hlast]. cbn [forallb fst snd] in Hlast.
      rewrite andb_true_r in Hlast. apply andb_true_iff in Hlast as [_ Hpieces].
      unfold tailTokens. rewrite flat_map_app. cbn [flat_map fst snd].
      rewrite app_nil_r.
      do 3 apply last_token_app. now apply simple_last_token.
Qed.

Lemma arguments_last_token (argument : Padded (ArgumentSource (list Piece)))
    (others : list (Token * Padded (ArgumentSource (list Piece)))) :
  argumentsOk simpleOk argument others = true ->
  exists l t, argumentsTokens simpleTokens argument others = l ++ [t] /\
              isEOFToken t = false.
Proof.
  unfold argumentsOk, argumentsTokens. intros Hok.
  apply andb_true_iff in Hok as [Ha Hothers].
  destruct others as [|[cm a] others _] using rev_ind.
  - cbn [othersTokens flat_map]. rewrite app_nil_r. now apply padded_last_token.
  - unfold othersOk in Hothers. rewrite forallb_app in Hothers.
    apply andb_true_iff in Hothers as [_ Hlast]. cbn [forallb fst snd] in Hlast.
    rewrite andb_true_r in Hlast. apply andb_true_iff in Hlast as [_ Hlast].
    unfold othersTokens. rewrite flat_map_app. cbn [flat_map fst snd].
    rewrite app_nil_r.
    do 2 apply last_token_app.
    apply (last_token_app [cm]). now apply padded_last_token.
Qed.

(** X10: the grammar of selectors.  A selector list written as simple
    selectors of copied constructs, custom pseudo-classes and custom
    function calls, with whitespace or a combinator between simple
    selectors and commas between arguments, where an argument of a call is
    a number, a string or a complex selector of the same kind, nested to
    any depth, and with no token of a rejected class, is parsed into the
    tree of its structure: a simple selector has the copied text as [css]
    and one function for each custom pseudo-class and call, in order, with
    the values of its arguments.  When an argument at the top is a number
    or a string the parser throws the error without a token; otherwise it
    returns the complex selectors. *)
Theorem parseCSS_sources (argument : Padded (ArgumentSource (list Piece)))
    (others : list (Token * Padded (ArgumentSource (list Piece)))) :
  argumentsOk simpleOk argument others = true ->
  existsb isUnsupportedToken (argumentsTokens simpleTokens argument others) = false ->
  parseCSSTokens (argumentsTokens simpleTokens argument others)
  = if existsb notComplexSelector (argumentsValue simpleValue argument others)
    then Thrown ParsingError
    else Returned (asSelectorList (argumentsValue simpleValue argument others)).
Proof.
  intros Hok Hunsupported.
  set (A := argumentsTokens simpleTokens argument others) in *.
  unfold parseCSSTokens.
  assert (HT : withEOF A = A ++ [newEOFToken]).
  { destruct (arguments_last_token argument others Hok) as (l & t & E & Ht).
    fold A in E. rewrite E. now apply withEOF_snoc. }
  rewrite HT, (find_unsupported_none _ Hunsupported).
  destruct (rules_parse (fuelFor (A ++ [newEOFToken])))
    as (_ & _ & _ & _ & _ & _ & Hargs).
  pose proof (Hargs (A ++ [newEOFToken]) [] argument others newEOFToken []
                eq_refl Hok eq_refl) as Hparsed.
  cbn [app length] in Hparsed. fold A in Hparsed.
  rewrite Hparsed.
  - unfold isEOF, testAt. rewrite tokenAt_app. reflexivity.
  - unfold fuelFor. rewrite length_app. cbn [length]. lia.
Qed.

Example parseCSS_sources_witness :
  parseCSSTokens (argumentsTokens simpleTokens sourceArgument sourceOthers)
  = Returned
      [mkComplex
         [(mkSimple (Some "div")
             [mkFunction "has"
                [ArgSelector (mkComplex [(mkSimple (Some "span.x") [], "")]);
                 ArgString "text"; ArgNumber 3]], ">");
          (mkSimple None
             [mkFunction "not"
                [ArgSelector
                   (mkComplex [(mkSimple None [mkFunction "visible" []], "")])]],
           "")];
       mkComplex [(mkSimple (Some "a:hover") [], "")]].
Proof. apply (parseCSS_sources sourceArgument sourceOthers); reflexivity. Defined.

Lemma find_unsupported_withEOF (l : list Token) :
  existsb isUnsupportedToken l = false ->
  find isUnsupportedToken (withEOF l) = None.
Proof.
  intros H. destruct (withEOF_cases l) as [-> | ->].
  - induction l as [|x l IH]; [reflexivity|]. simpl in *.
    apply orb_false_iff in H as [-> H]. auto.
  - now apply find_unsupported_none.
Qed.

Lemma withEOF_prefix (l : list Token) : exists rest, withEOF l = l ++ rest.
Proof.
  destruct (withEOF_cases l) as [-> | ->].
  - exists []. now rewrite app_nil_r.
  - now exists [newEOFToken].
Qed.

(** X11: a closing parenthesis that no call opened, after a selector list
    of the grammar, makes [parseCSS] throw the error without a token,
    whatever follows the parenthesis. *)
Theorem parseCSS_unmatched_parenthesis
    (argument : Padded (ArgumentSource (list Piece)))
    (others : list (Token * Padded (ArgumentSource (list Piece))))
    (close : Token) (rest : list Token) :
  argumentsOk simpleOk argument others = true ->
  isCloseParenToken close = true ->
  existsb isUnsupportedToken
    (argumentsTokens simpleTokens argument others ++ close :: rest) = false ->
  parseCSSTokens (argumentsTokens simpleTokens argument others ++ close :: rest)
  = Thrown ParsingError.
Proof.
  intros Hok Hclose Hunsupported.
  set (A := argumentsTokens simpleTokens argument others) in *.
  unfold parseCSSTokens. rewrite (find_unsupported_withEOF _ Hunsupported).
  destruct (withEOF_prefix (A ++ close :: rest)) as (rest' & HT).
  rewrite <- app_assoc in HT. cbn [app] in HT.
  set (T := withEOF (A ++ close :: rest)) in *.
  destruct (rules_parse (fuelFor T)) as (_ & _ & _ & _ & _ & _ & Hargs).
  assert (Hcloser : isCloserToken close = true)
    by (unfold isCloserToken; now rewrite Hclose).
  pose proof (Hargs T [] argument others close (rest ++ rest') HT Hok Hcloser)
    as Hparsed.
  cbn [app length] in Hparsed. fold A in Hparsed.
  rewrite Hparsed.
  - unfold isEOF, testAt. rewrite (tokenAt_eq T A close (rest ++ rest') HT).
    unfold isCloseParenToken, isEOFToken in *. now destruct (class close).
  - unfold fuelFor. rewrite HT, length_app. cbn [length]. lia.
Qed.

Example parseCSS_unmatched_parenthesis_witness :
  parseCSSTokens
    (argumentsTokens simpleTokens sourceArgument sourceOthers
       ++ closeParen :: [ws; ident "b"])
  = Thrown ParsingError.
Proof.
  apply (parseCSS_unmatched_parenthesis sourceArgument sourceOthers closeParen
           [ws; ident "b"]); reflexivity.
Defined.

Lemma consumeArgument_at_clause_end (tokens : list Token) (fuel pos : nat) :
  isSelectorClauseEnd tokens (skipWhitespace tokens pos) = true ->
  consumeArgument tokens (4 + fuel) pos
  = Throw (unexpected tokens (skipWhitespace tokens pos)).
Proof.
  intros Hend. set (q := skipWhitespace tokens pos) in *.
  change (4 + fuel) with (S (S (S (S fuel)))).
  cbn [consumeArgument]. fold q.
  assert (Hcs : consumeComplexSelector tokens (S (S (S fuel))) q
                = Throw (unexpected tokens q)).
  { cbn [consumeComplexSelector]. unfold q at 1. rewrite skipWhitespace_idem. fold q.
    now rewrite consumeSimpleSelector_at_clause_end. }
  rewrite Hcs.
  unfold isSelectorClauseEnd, isComma, isCloseParen, isEOF, isClauseCombinator,
    testAt in Hend.
  destruct (tokenAt tokens q) as [[c src]|]; [|reflexivity].
  destruct c; try reflexivity; discriminate.
Qed.

Lemma length_others (others : list (Token * Padded (ArgumentSource (list Piece)))) :
  length others <= length (othersTokens simpleTokens others).
Proof.
  induction others as [|[cm a] others IH]; [reflexivity|].
  unfold othersTokens in *. cbn [flat_map fst snd length app].
  rewrite length_app. lia.
Qed.

Lemma others_next (others : list (Token * Padded (ArgumentSource (list Piece))))
    (cm : Token) (rest : list Token) :
  othersOk simpleOk others = true -> isCommaToken cm = true ->
  exists t r, othersTokens simpleTokens others ++ cm :: rest = t :: r /\
              isTerminatorToken t = true.
Proof.
  intros Hok Hcm. destruct others as [|[cm1 a1] others].
  - exists cm, rest. split; [reflexivity|].
    unfold isTerminatorToken. now rewrite Hcm.
  - cbn [othersOk forallb fst snd] in Hok.
    apply andb_true_iff in Hok as [H1 _]. apply andb_true_iff in H1 as [Hcm1 _].
    exists cm1, ((paddedTokens simpleTokens a1 ++ othersTokens simpleTokens others)
                   ++ cm :: rest).
    split; [reflexivity|]. unfold isTerminatorToken. now rewrite Hcm1.
Qed.

(** The loop of [consumeFunctionArguments] over arguments that a comma
    follows: the loop goes on behind them. *)
Lemma consumeFunctionArgumentsLoop_others
    (others : list (Token * Padded (ArgumentSource (list Piece)))) :
  forall (T before : list Token) (cm : Token) (rest : list Token)
         (result : list CSSFunctionArgument) (pos fuel : nat),
    T = before ++ othersTokens simpleTokens others ++ cm :: rest ->
    othersOk simpleOk others = true -> isCommaToken cm = true ->
    skipWhitespace T pos = length before ->
    5 * length (othersTokens simpleTokens others) + 6 <= fuel ->
    exists pos',
      consumeFunctionArgumentsLoop T fuel result pos
      = consumeFunctionArgumentsLoop T (fuel - length others)
          (result ++ othersValue simpleValue others) pos' /\
      skipWhitespace T pos' = length (before ++ othersTokens simpleTokens others).
Proof.
  induction others as [|[cm0 a] others IH];
    intros T before cm rest result pos fuel HT Hok Hcm Hpos Hfuel.
  - exists pos. cbn [othersTokens othersValue flat_map map length app].
    now rewrite Nat.sub_0_r, !app_nil_r.
  - destruct fuel as [|fuel]; [lia|].
    cbn [othersOk forallb fst snd] in Hok.
    apply andb_true_iff in Hok as [Hok Hothers].
    apply andb_true_iff in Hok as [Hcm0 Ha].
    fold (othersOk simpleOk others) in Hothers.
    assert (Hot : othersTokens simpleTokens ((cm0, a) :: others)
                  = [cm0] ++ paddedTokens simpleTokens a
                      ++ othersTokens simpleTokens others) by reflexivity.
    rewrite Hot in *. clear Hot.
    rewrite !length_app in Hfuel. cbn [length] in Hfuel.
    pose proof (others_next others cm rest Hothers Hcm) as Hnext.
    destruct Hnext as (t1 & r1 & Enext & Ht1).
    assert (Hat : tokenAt T (length before) = Some cm0)
      by (eapply tokenAt_eq; rewrite HT; reflexivity).
    destruct (rules_parse fuel) as (_ & _ & _ & _ & IHarg & _).
    destruct (IHarg T (before ++ [cm0]) a t1 r1) as (pos1 & Harg & Hpos1); auto.
    + rewrite HT, <- Enext. now rewrite <- !app_assoc.
    + lia.
    + destruct (IH T ((before ++ [cm0]) ++ paddedTokens simpleTokens a) cm rest
                  (result ++ [argumentValue simpleValue (content a)]) pos1 fuel)
        as (pos' & Hloop & Hpos'); auto.
      * rewrite HT. now rewrite <- !app_assoc.
      * lia.
      * exists pos'. split.
        -- rewrite consumeFunctionArgumentsLoop_unfold, Hpos.
           unfold isComma, testAt. rewrite Hat, Hcm0. cbn [negb].
           replace (S (length before)) with (length (before ++ [cm0]))
             by (rewrite length_app; simpl; lia).
           rewrite Harg. cbn [bind]. rewrite Hloop.
           cbn [othersValue map snd length Nat.sub]. now rewrite <- !app_assoc.
        -- rewrite Hpos'. now rewrite <- !app_assoc.
Qed.

(** X12: where a selector is required, at the start of the input and
    after the comma behind a selector list of the grammar, a token that
    ends a selector (a comma, a closing parenthesis, a combinator or the
    end of input), whether or not whitespace comes before it, makes
    [parseCSS] throw the unexpected-token error at that token. *)
Theorem parseCSS_missing_selector :
  (forall spaces bad rest,
     forallb isWhitespaceToken spaces = true ->
     isSelectorClauseEndToken bad = true -> isWhitespaceToken bad = false ->
     existsb isUnsupportedToken (spaces ++ bad :: rest) = false ->
     parseCSSTokens (spaces ++ bad :: rest) = Thrown (UnexpectedToken bad)) /\
  (forall argument others cm spaces bad rest,
     argumentsOk simpleOk argument others = true ->
     isCommaToken cm = true ->
     forallb isWhitespaceToken spaces = true ->
     isSelectorClauseEndToken bad = true -> isWhitespaceToken bad = false ->
     existsb isUnsupportedToken
       (argumentsTokens simpleTokens argument others ++ cm :: spaces ++ bad :: rest)
     = false ->
     parseCSSTokens
       (argumentsTokens simpleTokens argument others ++ cm :: spaces ++ bad :: rest)
     = Thrown (UnexpectedToken bad)).
Proof.
  split.
  - intros spaces bad rest Hws Hbad Hnws Hunsupported.
    unfold parseCSSTokens. rewrite (find_unsupported_withEOF _ Hunsupported).
    destruct (withEOF_prefix (spaces ++ bad :: rest)) as (rest' & HT).
    rewrite <- app_assoc in HT. cbn [app] in HT.
    set (T := withEOF (spaces ++ bad :: rest)) in *.
    assert (Hskip : skipWhitespace T 0 = length spaces).
    { pose proof (skipWhitespace_run T [] spaces bad (rest ++ rest') HT Hws Hnws)
        as H. exact H. }
    assert (Hat : tokenAt T (length spaces) = Some bad)
      by (apply (tokenAt_eq T spaces bad (rest ++ rest') HT)).
    assert (Hfuel : exists fuel, fuelFor T = 5 + fuel).
    { unfold fuelFor. exists (5 * length T). lia. }
    destruct Hfuel as (fuel & ->).
    rewrite consumeFunctionArguments_at_clause_end; rewrite Hskip.
    + unfold unexpected. now rewrite Hat.
    + now rewrite (isSelectorClauseEnd_token T _ bad Hat).
  - intros argument others cm spaces bad rest Hok Hcm Hws Hbad Hnws Hunsupported.
    set (A := argumentsTokens simpleTokens argument others) in *.
    unfold parseCSSTokens. rewrite (find_unsupported_withEOF _ Hunsupported).
    destruct (withEOF_prefix (A ++ cm :: spaces ++ bad :: rest)) as (rest' & HT).
    set (T := withEOF (A ++ cm :: spaces ++ bad :: rest)) in *.
    assert (HT' : T = (A ++ [cm]) ++ spaces ++ bad :: (rest ++ rest')).
    { rewrite HT. rewrite <- !app_assoc. cbn [app]. now rewrite <- !app_assoc. }
    unfold argumentsOk in Hok. apply andb_true_iff in Hok as [Ha Hothers].
    pose proof (length_others others) as Hlen.
    assert (HA : length A = length (paddedTokens simpleTokens argument)
                            + length (othersTokens simpleTokens others))
      by (unfold A, argumentsTokens; apply length_app).
    assert (HlenT : length A + 2 <= length T).
    { rewrite HT'. rewrite !length_app. cbn [length]. lia. }
    assert (Hfuel : exists fuel, fuelFor T = S fuel /\
                      5 * length A + 14 <= fuel).
    { unfold fuelFor. exists (5 * length T + 4). lia. }
    destruct Hfuel as (fuel & -> & Hfuel).
    pose proof (others_next others cm (spaces ++ bad :: rest ++ rest') Hothers Hcm)
      as Hnext.
    destruct Hnext as (t1 & r1 & Enext & Ht1).
    destruct (rules_parse fuel) as (_ & _ & _ & _ & IHarg & _).
    destruct (IHarg T [] argument t1 r1) as (pos1 & Harg & Hpos1); auto.
    { rewrite HT', <- Enext. unfold A, argumentsTokens.
      cbn [app]. rewrite <- !app_assoc. reflexivity. }
    { lia. }
    cbn [app length] in Harg, Hpos1.
    destruct (consumeFunctionArgumentsLoop_others others T
                (paddedTokens simpleTokens argument) cm
                (spaces ++ bad :: rest ++ rest')
                [argumentValue simpleValue (content argument)] pos1 fuel)
      as (pos' & Hloop & Hpos'); auto.
    { rewrite HT'. unfold A, argumentsTokens. rewrite <- !app_assoc. reflexivity. }
    { lia. }
    fold (argumentsTokens simpleTokens argument others) in Hpos'. fold A in Hpos'.
    cbn [consumeFunctionArguments]. rewrite Harg. cbn [bind]. rewrite Hloop.
    assert (Hleft : exists g, fuel - length others = S (4 + g)).
    { exists (fuel - length others - 5). lia. }
    destruct Hleft as (g & ->).
    assert (Hat : tokenAt T (length A) = Some cm).
    { eapply tokenAt_eq. rewrite HT', <- app_assoc. reflexivity. }
    assert (Hskip : skipWhitespace T (S (length A)) = length ((A ++ [cm]) ++ spaces)).
    { replace (S (length A)) with (length (A ++ [cm]))
        by (rewrite length_app; simpl; lia).
      apply (skipWhitespace_run T (A ++ [cm]) spaces bad (rest ++ rest')); auto. }
    assert (Hatbad : tokenAt T (length ((A ++ [cm]) ++ spaces)) = Some bad).
    { apply (tokenAt_eq T _ bad (rest ++ rest')). rewrite HT'.
      now rewrite <- !app_assoc. }
    rewrite consumeFunctionArgumentsLoop_unfold, Hpos'.
    unfold isComma, testAt. rewrite Hat, Hcm. cbn [negb].
    rewrite consumeArgument_at_clause_end; rewrite Hskip.
    + cbn [bind]. unfold unexpected. now rewrite Hatbad.
    + now rewrite (isSelectorClauseEnd_token T _ bad Hatbad).
Qed.

Example parseCSS_missing_selector_witness :
  parseCSSTokens
    (argumentsTokens simpleTokens sourceArgument sourceOthers
       ++ comma :: [ws] ++ comma :: [ident "b"])
  = Thrown (UnexpectedToken comma).
Proof.
  apply (proj2 parseCSS_missing_selector sourceArgument sourceOthers comma [ws]
           comma [ident "b"]); reflexivity.
Defined.

(** X13: a custom function call whose arguments, of the grammar, are
    followed by the end of input instead of a closing parenthesis makes
    [consumeSimpleSelector] throw the unexpected-token error at the
    end-of-input token, at any depth of nesting and whatever was read
    before. *)
Theorem unclosed_call_fails (T before : list Token) (c f : Token)
    (argument : Padded (ArgumentSource (list Piece)))
    (others : list (Token * Padded (ArgumentSource (list Piece))))
    (eof : Token) (rest : list Token) (raw : string) (fns : list CSSFunction)
    (fuel : nat) :
  T = before ++ c :: f :: argumentsTokens simpleTokens argument others
        ++ eof :: rest ->
  isColonToken c = true ->
  match class f with FunctionToken _ => true | _ => false end = true ->
  has builtinCSSFunctions (nameOf f) = false ->
  argumentsOk simpleOk argument others = true ->
  isEOFToken eof = true ->
  5 * length (argumentsTokens simpleTokens argument others) + 8 <= fuel ->
  consumeSimpleSelectorLoop T fuel raw fns (length before)
  = Throw (UnexpectedToken eof).
Proof.
  intros HT Hc Hf Hname Hok Heof Hfuel.
  destruct fuel as [|fuel]; [lia|].
  set (A := argumentsTokens simpleTokens argument others) in *.
  assert (Hclass : class c = ColonToken)
    by (destruct c as [[] csrc]; try discriminate; reflexivity).
  destruct f as [[] fsrc]; try discriminate.
  cbn [nameOf class] in *.
  set (f := mkToken (FunctionToken value) fsrc) in *.
  set (start := before ++ [c; f]).
  assert (HT' : T = start ++ A ++ eof :: rest).
  { rewrite HT. unfold start. cbn [app]. rewrite <- !app_assoc. reflexivity. }
  assert (Hat : tokenAt T (length before) = Some c)
    by (eapply tokenAt_eq; rewrite HT; reflexivity).
  assert (Hat' : tokenAt T (S (length before)) = Some f).
  { replace (S (length before)) with (length (before ++ [c]))
      by (rewrite length_app; simpl; lia).
    eapply tokenAt_eq. rewrite HT, <- app_assoc. reflexivity. }
  assert (Hclosed : tokenAt T (length (start ++ A)) = Some eof).
  { eapply tokenAt_eq. rewrite HT', <- app_assoc. reflexivity. }
  assert (Hcloser : isCloserToken eof = true)
    by (unfold isCloserToken; rewrite Heof; apply orb_true_r).
  destruct (rules_parse fuel) as (_ & _ & _ & _ & _ & _ & IHargs).
  rewrite (consumeSimpleSelectorLoop_colon T fuel raw fns (length before) c
             Hat Hclass).
  rewrite Hat'. unfold f at 1. rewrite Hname.
  replace (S (S (length before))) with (length start)
    by (unfold start; rewrite length_app; simpl; lia).
  rewrite (IHargs T start argument others eof rest HT' Hok Hcloser)
    by (fold A; lia).
  cbn [bind]. fold A.
  assert (Heof' : isEOF T (length (start ++ A)) = true)
    by (unfold isEOF, testAt; now rewrite Hclosed).
  rewrite (skipWhitespace_at_EOF _ _ Heof').
  unfold isCloseParen, testAt, unexpected. rewrite Hclosed.
  unfold isCloseParenToken. now rewrite (isEOFToken_class _ Heof).
Qed.

Example unclosed_call_fails_witness :
  consumeSimpleSelectorLoop
    ([ident "a"; ws] ++ colon :: func "has"
       :: argumentsTokens simpleTokens sourceArgument sourceOthers
       ++ newEOFToken :: [])
    (5 * length (argumentsTokens simpleTokens sourceArgument sourceOthers) + 8)
    "" [] 2
  = Throw (UnexpectedToken newEOFToken).
Proof.
  apply (unclosed_call_fails _ [ident "a"; ws] colon (func "has") sourceArgument
           sourceOthers newEOFToken [] "" []); reflexivity.
Defined.

(** ** The serialized text of arguments, read back *)

Lemma concat_empty_app (a b : list string) :
  String.concat "" (a ++ b) = (String.concat "" a ++ String.concat "" b)%string.
Proof.
  induction a as [|x a IH]; [reflexivity|].
  change ((x :: a) ++ b) with (x :: a ++ b).
  now rewrite !concat_empty_cons, IH, append_assoc.
Qed.

Lemma sourceText_app (a b : list Token) :
  sourceText (a ++ b) = (sourceText a ++ sourceText b)%string.
Proof. unfold sourceText. rewrite map_app. apply concat_empty_app. Qed.

Lemma sourceText_cons (t : Token) (l : list Token) :
  sourceText (t :: l) = (toSource t ++ sourceText l)%string.
Proof. unfold sourceText. cbn [map]. apply concat_empty_cons. Qed.

Lemma concat_cons_cons (sep x y : string) (l : list string) :
  String.concat sep (x :: y :: l) = (x ++ sep ++ String.concat sep (y :: l))%string.
Proof. reflexivity. Qed.

(** Reading a string between double quotes. *)
Lemma scanString_plain (s behind : string) :
  plainString s = true ->
  scanString (s ++ dquote ++ behind) = Some (s, behind).
Proof.
  induction s as [|c s IH]; [reflexivity|]. cbn [plainString append scanString].
  intros H. apply andb_true_iff in H as [H Hs]. apply andb_true_iff in H as [Hq Hb].
  apply negb_true_iff in Hq, Hb. rewrite Hq, Hb. now rewrite (IH Hs).
Qed.

Lemma scanString_whole (s : string) :
  forall value, scanString (s ++ dquote) = Some (value, "") ->
                value = s /\ plainString s = true.
Proof.
  induction s as [|c s IH]; intros value H.
  - cbn in H. injection H as <-. now split.
  - cbn [append scanString plainString] in *.
    destruct (Ascii.eqb c (ascii_of_nat 34)) eqn:Hq.
    + injection H as <- H. destruct s; discriminate.
    + destruct (Ascii.eqb c (ascii_of_nat 92)) eqn:Hb; [discriminate|].
      destruct (scanString (s ++ dquote)) as [[v behind]|] eqn:E; [|discriminate].
      injection H as <- ->. destruct (IH v eq_refl) as [-> ->]. now split.
Qed.

Lemma readsAs_quoted (s : string) :
  readsAs (quoted s) s <-> plainString s = true.
Proof.
  unfold readsAs, quoted, readString, dquote. cbn [append]. rewrite Ascii.eqb_refl.
  split.
  - intros H. apply (scanString_whole s s H).
  - intros H. pose proof (scanString_plain s "" H) as E. exact E.
Qed.

Lemma readValue_quoted (s : string) :
  plainString s = true -> readValue (quoted s) = s.
Proof.
  intros H. unfold readValue. apply readsAs_quoted in H. unfold readsAs in H.
  now rewrite H.
Qed.

(** The parts of the serialized text. *)
Lemma serializeArgument_selector (numberToString : float -> string)
    (simple : list (CSSSimpleSelector * string)) :
  serializeArgument numberToString (ArgSelector (mkComplex simple))
  = String.concat " " (map (serializeClause numberToString) simple).
Proof.
  cbn [serializeArgument]. f_equal. apply map_ext.
  intros [[css fns] combinator]. reflexivity.
Qed.

Lemma serializeSimple_of (numberToString : float -> string) (raw : string)
    (fns : list CSSFunction) :
  serializeSimple numberToString (simpleSelectorOf raw fns)
  = (raw ++ String.concat "" (map (serializeFunction numberToString) fns))%string.
Proof.
  unfold simpleSelectorOf, serializeSimple.
  destruct (String.eqb raw "") eqn:E; [|reflexivity].
  apply String.eqb_eq in E. now subst.
Qed.

(** The constructs as the serializer writes them. *)
Lemma canonConstruct_ok (u : Construct) :
  constructOk u = true -> constructOk (canonConstruct u) = true.
Proof.
  destruct u as [t|dot identifier|c identifier|open between close|c f between close];
    cbn [constructOk canonConstruct]; intros Hok; auto.
  - apply andb_true_iff in Hok as [_ ->]. reflexivity.
  - apply andb_true_iff in Hok as [Hok ->]. apply andb_true_iff in Hok as [_ ->].
    reflexivity.
  - apply andb_true_iff in Hok as [Hok _]. apply andb_true_iff in Hok as [_ ->].
    reflexivity.
  - apply andb_true_iff in Hok as [Hok _]. apply andb_true_iff in Hok as [Hok ->].
    apply andb_true_iff in Hok as [_ Hname]. cbn [nameOf class func].
    now rewrite Hname.
Qed.

Lemma canonConstruct_text (u : Construct) :
  constructText (canonConstruct u) = constructText u.
Proof. destruct u; reflexivity. Qed.

Lemma canonConstruct_source (u : Construct) :
  sourceText (constructTokens (canonConstruct u)) = constructText u.
Proof.
  destruct u as [t|dot identifier|c identifier|open between close|c f between close];
    cbn [constructTokens canonConstruct constructText].
  - rewrite sourceText_cons. apply append_empty_r.
  - rewrite !sourceText_cons. cbn. now rewrite append_empty_r.
  - rewrite !sourceText_cons. cbn. now rewrite append_empty_r.
  - rewrite sourceText_cons, sourceText_app, sourceText_cons. cbn.
    reflexivity.
  - rewrite !sourceText_cons, sourceText_app, sourceText_cons. cbn.
    now rewrite !append_assoc.
Qed.

Lemma canonConstruct_supported (u : Construct) :
  existsb isUnsupportedToken (constructTokens u) = false ->
  existsb isUnsupportedToken (constructTokens (canonConstruct u)) = false.
Proof.
  destruct u as [t|dot identifier|c identifier|open between close|c f between close];
    cbn [constructTokens canonConstruct]; auto.
  - cbn. intros H. apply orb_false_iff in H as [_ H]. exact H.
  - cbn. intros H. apply orb_false_iff in H as [_ H]. exact H.
  - cbn [existsb]. rewrite !existsb_app. cbn [existsb]. intros H.
    apply orb_false_iff in H as [_ H]. apply orb_false_iff in H as [-> _].
    reflexivity.
  - cbn [existsb]. rewrite !existsb_app. cbn [existsb]. intros H.
    apply orb_false_iff in H as [_ H]. apply orb_false_iff in H as [_ H].
    apply orb_false_iff in H as [-> _]. reflexivity.
Qed.

(** Induction on the pieces inside the arguments of a call. *)
Lemma Piece_nested_ind (P : Piece -> Prop) :
  (forall u, P (Copied u)) ->
  (forall c identifier, P (Bare c identifier)) ->
  (forall c f argument others close,
     argumentAll P (content argument) ->
     allOf (fun o => argumentAll P (content (snd o))) others ->
     P (Call c f argument others close)) ->
  forall p, P p.
Proof.
  intros HCopied HBare HCall.
  fix IH 1. intros [u|c identifier|c f argument others close].
  - apply HCopied.
  - apply HBare.
  - assert (Hsimple : forall pieces : list Piece, allOf P pieces).
    { induction pieces as [|p pieces IHp]; [exact I|]. split; [apply IH | exact IHp]. }
    assert (Hargument : forall a : ArgumentSource (list Piece), argumentAll P a).
    { intros [value source|value source|head tail]; cbn; auto.
      split; [apply Hsimple|].
      induction tail as [|[sep s] tail IHt]; [exact I|]. split; [apply Hsimple | exact IHt]. }
    apply HCall; [apply Hargument|].
    induction others as [|[cm a] others IHo]; [exact I|].
    split; [apply Hargument | exact IHo].
Qed.

Lemma allOf_all {A : Type} (P : A -> Prop) (l : list A) :
  (forall x, P x) -> allOf P l.
Proof. intros H. induction l as [|x l IH]; [exact I | split; auto]. Qed.

Lemma copied_functions (p : Piece) : isCopied p = true -> pieceFunctions p = [].
Proof. destruct p; [reflexivity | discriminate | discriminate]. Qed.

Lemma not_copied_text (p : Piece) : isCopied p = false -> pieceText p = "".
Proof. destruct p; [discriminate | reflexivity | reflexivity]. Qed.

Lemma simpleText_app (a b : list Piece) :
  simpleText (a ++ b) = (simpleText a ++ simpleText b)%string.
Proof. unfold simpleText. rewrite map_app. apply concat_empty_app. Qed.

Lemma simpleTokens_app (a b : list Piece) :
  simpleTokens (a ++ b) = simpleTokens a ++ simpleTokens b.
Proof. apply flat_map_app. Qed.

Lemma simpleFunctions_app (a b : list Piece) :
  simpleFunctions (a ++ b) = simpleFunctions a ++ simpleFunctions b.
Proof. apply flat_map_app. Qed.

Section ReadBackFacts.

Variable numberToString : float -> string.
Variable readNumber : string -> float.

Notation "'canonP'" := (canonPiece numberToString readNumber).
Notation "'canonS'" := (canonSimple numberToString readNumber).
Notation "'faithful'" := (pieceFaithful numberToString readNumber).
Notation "'readBack'" := (pieceReadBack numberToString readNumber).
Notation "'functionsText' fns" :=
  (String.concat "" (map (serializeFunction numberToString) fns)) (at level 10).

(** The copied pieces and the other pieces of a simple selector, each
    kind in its order. *)
Lemma filtered_faithful (pieces : list Piece) :
  allOf faithful pieces ->
  (forall keep, forallb pieceOk (filter keep (map canonP pieces)) = true) /\
  (forall keep, existsb isUnsupportedToken
                  (simpleTokens (filter keep (map canonP pieces))) = false) /\
  simpleText (filter isCopied (map canonP pieces)) = simpleText pieces /\
  simpleText (filter (fun p => negb (isCopied p)) (map canonP pieces)) = "" /\
  simpleFunctions (filter isCopied (map canonP pieces)) = [] /\
  simpleFunctions (filter (fun p => negb (isCopied p)) (map canonP pieces))
  = simpleFunctions pieces /\
  sourceText (simpleTokens (filter isCopied (map canonP pieces))) = simpleText pieces /\
  sourceText (simpleTokens (filter (fun p => negb (isCopied p)) (map canonP pieces)))
  = functionsText (simpleFunctions pieces).
Proof.
  induction pieces as [|p pieces IH]; intros Hall.
  - repeat split; reflexivity.
  - destruct Hall as [(Hok & Hcopied & Htext & Hfns & Hsup & Hsource) Hall].
    destruct (IH Hall) as (IHok & IHsup & IHt1 & IHt2 & IHf1 & IHf2 & IHs1 & IHs2).
    clear IH. cbn [map filter].
    assert (Efns : simpleFunctions (p :: pieces)
                   = pieceFunctions p ++ simpleFunctions pieces) by reflexivity.
    rewrite Efns, simpleText_cons. clear Efns.
    split; [|split].
    { intros keep. destruct (keep (canonP p)); [|apply IHok].
      cbn [forallb]. now rewrite Hok, IHok. }
    { intros keep. destruct (keep (canonP p)); [|apply IHsup].
      change (simpleTokens (canonP p :: filter keep (map canonP pieces)))
        with (pieceTokens (canonP p)
                ++ simpleTokens (filter keep (map canonP pieces))).
      now rewrite existsb_app, Hsup, IHsup. }
    rewrite Hcopied. destruct (isCopied p) eqn:Ep; cbn [negb].
    + rewrite (copied_functions p Ep) in *. cbn [map app] in *.
      change (String.concat "" []) with "" in Hsource.
      rewrite append_empty_r in Hsource.
      repeat split; auto.
      * now rewrite simpleText_cons, Htext, IHt1.
      * change (simpleFunctions (canonP p :: filter isCopied (map canonP pieces)))
          with (pieceFunctions (canonP p)
                  ++ simpleFunctions (filter isCopied (map canonP pieces))).
        now rewrite Hfns, IHf1.
      * change (simpleTokens (canonP p :: filter isCopied (map canonP pieces)))
          with (pieceTokens (canonP p)
                  ++ simpleTokens (filter isCopied (map canonP pieces))).
        now rewrite sourceText_app, Hsource, IHs1.
    + rewrite (not_copied_text p Ep) in *. cbn [append] in *.
      repeat split; auto.
      * now rewrite simpleText_cons, Htext, IHt2.
      * change (simpleFunctions
                  (canonP p :: filter (fun p0 => negb (isCopied p0)) (map canonP pieces)))
          with (pieceFunctions (canonP p)
                  ++ simpleFunctions
                       (filter (fun p0 => negb (isCopied p0)) (map canonP pieces))).
        now rewrite Hfns, IHf2.
      * change (simpleTokens
                  (canonP p :: filter (fun p0 => negb (isCopied p0)) (map canonP pieces)))
          with (pieceTokens (canonP p)
                  ++ simpleTokens
                       (filter (fun p0 => negb (isCopied p0)) (map canonP pieces))).
        rewrite sourceText_app, Hsource, IHs2, map_app. now rewrite concat_empty_app.
Qed.

Lemma simple_faithful (pieces : list Piece) :
  allOf faithful pieces -> simpleOk pieces = true ->
  simpleFaithful numberToString readNumber pieces.
Proof.
  intros Hall Hok.
  destruct (filtered_faithful pieces Hall)
    as (Fok & Fsup & Ft1 & Ft2 & Ff1 & Ff2 & Fs1 & Fs2).
  unfold simpleOk in Hok. apply andb_true_iff in Hok as [_ Hne].
  assert (Etext : simpleText (canonS pieces) = simpleText pieces).
  { unfold canonSimple, reorder. now rewrite simpleText_app, Ft1, Ft2, append_empty_r. }
  assert (Efns : simpleFunctions (canonS pieces) = simpleFunctions pieces).
  { unfold canonSimple, reorder. now rewrite simpleFunctions_app, Ff1, Ff2. }
  unfold simpleFaithful. split; [|split; [|split]].
  - unfold simpleOk. rewrite Etext, Efns, Hne, andb_true_r.
    unfold canonSimple, reorder. now rewrite forallb_app, !Fok.
  - unfold simpleValue. now rewrite Etext, Efns.
  - unfold canonSimple, reorder. now rewrite simpleTokens_app, existsb_app, !Fsup.
  - unfold simpleValue. rewrite serializeSimple_of.
    unfold canonSimple, reorder. now rewrite simpleTokens_app, sourceText_app, Fs1, Fs2.
Qed.

Lemma simple_given (pieces : list Piece) :
  allOf readBack pieces ->
  forallb pieceOk pieces = true ->
  existsb isUnsupportedToken (simpleTokens pieces) = false ->
  simpleReadable numberToString readNumber pieces ->
  allOf faithful pieces.
Proof.
  induction pieces as [|p pieces IH]; intros Hall Hok Hsup Hread; [exact I|].
  destruct Hall as [Hp Hall]. destruct Hread as [Rp Hread].
  cbn [forallb] in Hok. apply andb_true_iff in Hok as [Okp Hok].
  change (simpleTokens (p :: pieces)) with (pieceTokens p ++ simpleTokens pieces)
    in Hsup.
  rewrite existsb_app in Hsup. apply orb_false_iff in Hsup as [Sp Hsup].
  split; [apply Hp; repeat split; assumption | now apply IH].
Qed.

Lemma simple_read_back (pieces : list Piece) :
  allOf readBack pieces ->
  simpleOk pieces = true ->
  existsb isUnsupportedToken (simpleTokens pieces) = false ->
  simpleReadable numberToString readNumber pieces ->
  simpleFaithful numberToString readNumber pieces.
Proof.
  intros Hall Hok Hsup Hread. apply simple_faithful; [|exact Hok].
  apply simple_given; auto.
  unfold simpleOk in Hok. now apply andb_true_iff in Hok as [Hok _].
Qed.

End ReadBackFacts.

(** The separators as the serializer writes them. *)
Lemma canonSeparator_faithful (sep : Separator) :
  separatorOk sep = true ->
  separatorOk (canonSeparator sep) = true /\
  separatorValue (canonSeparator sep) = separatorValue sep /\
  existsb isUnsupportedToken (separatorTokens (canonSeparator sep)) = false /\
  sourceText (separatorTokens (canonSeparator sep))
  = (if String.eqb (separatorValue sep) "" then " "
     else " " ++ separatorValue sep ++ " ")%string.
Proof.
  destruct sep as [space spaces|before combinator after];
    cbn [separatorOk canonSeparator]; intros Hok.
  - repeat split; reflexivity.
  - apply andb_true_iff in Hok as [Hok _]. apply andb_true_iff in Hok as [_ Hc].
    unfold isClauseCombinatorToken in Hc. cbn [separatorValue].
    destruct (class combinator) as [| | | |value| | | | | | | | | | | | | | | | | | | | |];
      try discriminate.
    cbn [separatorOk separatorTokens separatorValue forallb app].
    unfold isClauseCombinatorToken. cbn [class delim]. rewrite Hc.
    repeat split; try reflexivity.
    apply has_In in Hc. cbn [In] in Hc.
    destruct Hc as [<- | [<- | [<- | []]]]; reflexivity.
Qed.

Lemma simplesOf_cons {Simple : Type} (valueOf : Simple -> CSSSimpleSelector)
    (current : CSSSimpleSelector) (tail : list (Separator * Simple)) :
  exists y l, simplesOf valueOf current tail = y :: l.
Proof. destruct tail as [|[sep s] tail]; cbn [simplesOf]; eauto. Qed.

Section ReadBackArguments.

Variable numberToString : float -> string.
Variable readNumber : string -> float.

Notation "'canonS'" := (canonSimple numberToString readNumber).
Notation "'readBack'" := (pieceReadBack numberToString readNumber).
Notation "'readableS'" := (simpleReadable numberToString readNumber).
Notation "'canonTail' tail" :=
  (map (fun p : Separator * list Piece => (canonSeparator (fst p), canonS (snd p))) tail)
  (at level 10).

Lemma tail_read_back (tail : list (Separator * list Piece)) :
  allOf (fun st => allOf readBack (snd st)) tail ->
  tailOk simpleOk tail = true ->
  existsb isUnsupportedToken (tailTokens simpleTokens tail) = false ->
  allOf (fun st => readableS (snd st)) tail ->
  tailOk simpleOk (canonTail tail) = true /\
  (forall current,
     simplesOf simpleValue current (canonTail tail)
     = simplesOf simpleValue current tail) /\
  existsb isUnsupportedToken (tailTokens simpleTokens (canonTail tail)) = false /\
  (forall current,
     String.concat " "
       (map (serializeClause numberToString) (simplesOf simpleValue current tail))
     = (serializeSimple numberToString current
        ++ sourceText (tailTokens simpleTokens (canonTail tail)))%string).
Proof.
  induction tail as [|[sep s] tail IH]; intros Hall Hok Hsup Hread.
  - repeat split; try reflexivity. intros current. cbn.
    now rewrite append_empty_r.
  - destruct Hall as [Hs Hall]. destruct Hread as [Rs Hread]. cbn [snd] in Hs, Rs.
    cbn [tailOk forallb fst snd] in Hok.
    apply andb_true_iff in Hok as [Hok Htail].
    apply andb_true_iff in Hok as [Hsep Hsok].
    fold (tailOk simpleOk tail) in Htail.
    assert (Et : forall (tokensOf : list Piece -> list Token) sep0 s0 tail0,
              tailTokens tokensOf ((sep0, s0) :: tail0)
              = separatorTokens sep0 ++ tokensOf s0 ++ tailTokens tokensOf tail0).
    { intros. unfold tailTokens. cbn [flat_map fst snd]. now rewrite <- app_assoc. }
    rewrite Et in Hsup. rewrite !existsb_app in Hsup.
    apply orb_false_iff in Hsup as [_ Hsup]. apply orb_false_iff in Hsup as [Ssup Tsup].
    destruct (IH Hall Htail Tsup Hread) as (IHok & IHvalue & IHsup & IHtext). clear IH.
    destruct (simple_read_back numberToString readNumber s Hs Hsok Ssup Rs)
      as (Cok & Cvalue & Csup & Csource).
    destruct (canonSeparator_faithful sep Hsep) as (Pok & Pvalue & Psup & Psource).
    cbn [map fst snd]. rewrite Et.
    split; [|split; [|split]].
    + cbn [tailOk forallb fst snd]. fold (tailOk simpleOk (canonTail tail)).
      now rewrite Pok, Cok, IHok.
    + intros current. cbn [simplesOf]. now rewrite Pvalue, Cvalue, IHvalue.
    + now rewrite !existsb_app, Psup, Csup, IHsup.
    + intros current. cbn [simplesOf map].
      destruct (simplesOf_cons simpleValue (simpleValue s) tail) as (y & l & E).
      pose proof (IHtext (simpleValue s)) as Hrest. rewrite E in Hrest.
      rewrite E. cbn [map]. rewrite concat_cons_cons.
      change (map (serializeClause numberToString) (y :: l))
        with (serializeClause numberToString y
                :: map (serializeClause numberToString) l) in Hrest.
      rewrite Hrest, !sourceText_app, Psource, Csource.
      unfold serializeClause. cbn [fst snd].
      destruct (String.eqb (separatorValue sep) ""); rewrite ?append_assoc; reflexivity.
Qed.

Lemma argument_read_back (a : ArgumentSource (list Piece)) :
  argumentAll readBack a ->
  argumentOk simpleOk a = true ->
  existsb isUnsupportedToken (argumentTokens simpleTokens a) = false ->
  argumentReadable numberToString readNumber readableS a ->
  argumentOk simpleOk (canonArgument numberToString readNumber canonS a) = true /\
  argumentValue simpleValue (canonArgument numberToString readNumber canonS a)
  = argumentValue simpleValue a /\
  existsb isUnsupportedToken
    (argumentTokens simpleTokens (canonArgument numberToString readNumber canonS a))
  = false /\
  sourceText
    (argumentTokens simpleTokens (canonArgument numberToString readNumber canonS a))
  = serializeArgument numberToString (argumentValue simpleValue a).
Proof.
  destruct a as [value source|value source|head tail];
    cbn [argumentAll argumentOk argumentTokens argumentReadable canonArgument
         argumentValue]; intros Hall Hok Hsup Hread.
  - rewrite Hread. repeat split.
  - rewrite (readValue_quoted value Hread). repeat split.
  - destruct Hall as [Hhead Htail]. destruct Hread as [Rhead Rtail].
    apply andb_true_iff in Hok as [Ohead Otail].
    rewrite existsb_app in Hsup. apply orb_false_iff in Hsup as [Shead Stail].
    destruct (simple_read_back numberToString readNumber head Hhead Ohead Shead Rhead)
      as (Cok & Cvalue & Csup & Csource).
    destruct (tail_read_back tail Htail Otail Stail Rtail)
      as (Tok & Tvalue & Tsup & Ttext).
    split; [|split; [|split]].
    + now rewrite Cok, Tok.
    + now rewrite Cvalue, Tvalue.
    + now rewrite existsb_app, Csup, Tsup.
    + rewrite serializeArgument_selector, Ttext, sourceText_app, Csource.
      reflexivity.
Qed.

Notation "'canonA' a" := (canonArgument numberToString readNumber canonS a)
  (at level 10).

Lemma others_read_back
    (others : list (Token * Padded (ArgumentSource (list Piece)))) :
  allOf (fun o => argumentAll readBack (content (snd o))) others ->
  othersOk simpleOk others = true ->
  existsb isUnsupportedToken (othersTokens simpleTokens others) = false ->
  allOf (fun o => argumentReadable numberToString readNumber readableS
                    (content (snd o))) others ->
  othersOk simpleOk (canonOthers numberToString readNumber canonS others) = true /\
  othersValue simpleValue (canonOthers numberToString readNumber canonS others)
  = othersValue simpleValue others /\
  existsb isUnsupportedToken
    (othersTokens simpleTokens (canonOthers numberToString readNumber canonS others))
  = false /\
  (forall arg,
     String.concat ", "
       (map (serializeArgument numberToString)
          (arg :: othersValue simpleValue others))
     = (serializeArgument numberToString arg
        ++ sourceText
             (othersTokens simpleTokens
                (canonOthers numberToString readNumber canonS others)))%string).
Proof.
  induction others as [|[cm [before a after]] others IH]; intros Hall Hok Hsup Hread.
  - repeat split; try reflexivity. intros arg. cbn. now rewrite append_empty_r.
  - destruct Hall as [Ha Hall]. destruct Hread as [Ra Hread].
    cbn [snd content] in Ha, Ra.
    assert (Eok : forall cm0 (p0 : Padded (ArgumentSource (list Piece))) others0,
              othersOk simpleOk ((cm0, p0) :: others0)
              = isCommaToken cm0 && paddedOk simpleOk p0 && othersOk simpleOk others0)
      by reflexivity.
    assert (Ev : forall cm0 (p0 : Padded (ArgumentSource (list Piece))) others0,
              othersValue simpleValue ((cm0, p0) :: others0)
              = argumentValue simpleValue (content p0)
                  :: othersValue simpleValue others0) by reflexivity.
    assert (Et : forall cm0 (p0 : Padded (ArgumentSource (list Piece))) others0,
              othersTokens simpleTokens ((cm0, p0) :: others0)
              = cm0 :: (spaceBefore p0 ++ argumentTokens simpleTokens (content p0)
                          ++ spaceAfter p0)
                  ++ othersTokens simpleTokens others0) by reflexivity.
    assert (Ec : canonOthers numberToString readNumber canonS
                   ((cm, mkPadded before a after) :: others)
                 = (comma, mkPadded [ws] (canonA a) [])
                     :: canonOthers numberToString readNumber canonS others)
      by reflexivity.
    rewrite Eok in Hok.
    apply andb_true_iff in Hok as [Hok Hothers].
    apply andb_true_iff in Hok as [_ Hpad].
    unfold paddedOk in Hpad. cbn [content spaceBefore spaceAfter] in Hpad.
    apply andb_true_iff in Hpad as [Hpad _]. apply andb_true_iff in Hpad as [_ Oa].
    rewrite Et in Hsup. cbn [spaceBefore content spaceAfter existsb] in Hsup.
    rewrite !existsb_app in Hsup.
    apply orb_false_iff in Hsup as [_ Hsup]. apply orb_false_iff in Hsup as [Hsup Osup].
    apply orb_false_iff in Hsup as [_ Hsup]. apply orb_false_iff in Hsup as [Asup _].
    destruct (IH Hall Hothers Osup Hread) as (IHok & IHvalue & IHsup & IHtext).
    clear IH.
    destruct (argument_read_back a Ha Oa Asup Ra) as (Cok & Cvalue & Csup & Csource).
    rewrite Ec, Eok, !Ev, Et. cbn [spaceBefore content spaceAfter].
    split; [|split; [|split]].
    + unfold paddedOk. cbn [spaceBefore content spaceAfter].
      rewrite Cok, IHok. reflexivity.
    + now rewrite Cvalue, IHvalue.
    + cbn [existsb app]. rewrite !existsb_app. cbn [existsb].
      now rewrite Csup, IHsup.
    + intros arg.
      change (map (serializeArgument numberToString)
                (arg :: argumentValue simpleValue a :: othersValue simpleValue others))
        with (serializeArgument numberToString arg
                :: map (serializeArgument numberToString)
                     (argumentValue simpleValue a :: othersValue simpleValue others)).
      change (map (serializeArgument numberToString)
                (argumentValue simpleValue a :: othersValue simpleValue others))
        with (serializeArgument numberToString (argumentValue simpleValue a)
                :: map (serializeArgument numberToString)
                     (othersValue simpleValue others)) at 1.
      rewrite concat_cons_cons.
      change (serializeArgument numberToString (argumentValue simpleValue a)
                :: map (serializeArgument numberToString)
                     (othersValue simpleValue others))
        with (map (serializeArgument numberToString)
                (argumentValue simpleValue a :: othersValue simpleValue others)).
      rewrite (IHtext (argumentValue simpleValue a)).
      rewrite sourceText_cons. cbn [app]. rewrite sourceText_cons, !sourceText_app.
      rewrite Csource. change (sourceText []) with "". rewrite append_empty_r.
      reflexivity.
Qed.

Lemma arguments_read_back (argument : Padded (ArgumentSource (list Piece)))
    (others : list (Token * Padded (ArgumentSource (list Piece)))) :
  argumentAll readBack (content argument) ->
  allOf (fun o => argumentAll readBack (content (snd o))) others ->
  argumentsOk simpleOk argument others = true ->
  existsb isUnsupportedToken (argumentsTokens simpleTokens argument others) = false ->
  argumentsReadable numberToString readNumber readableS argument others ->
  argumentsOk simpleOk (canonPadded numberToString readNumber canonS argument)
    (canonOthers numberToString readNumber canonS others) = true /\
  argumentsValue simpleValue (canonPadded numberToString readNumber canonS argument)
    (canonOthers numberToString readNumber canonS others)
  = argumentsValue simpleValue argument others /\
  existsb isUnsupportedToken
    (canonicalTokens numberToString readNumber argument others) = false /\
  sourceText (canonicalTokens numberToString readNumber argument others)
  = serializeSelector numberToString (argumentsValue simpleValue argument others).
Proof.
  destruct argument as [before a after]. intros Ha Hall Hok Hsup [Ra Hread].
  cbn [content] in Ha, Ra.
  unfold argumentsOk, paddedOk in Hok. cbn [spaceBefore content spaceAfter] in Hok.
  apply andb_true_iff in Hok as [Hpad Hothers].
  apply andb_true_iff in Hpad as [Hpad _]. apply andb_true_iff in Hpad as [_ Oa].
  unfold argumentsTokens, paddedTokens in Hsup.
  cbn [spaceBefore content spaceAfter] in Hsup. rewrite !existsb_app in Hsup.
  apply orb_false_iff in Hsup as [Hsup Osup].
  apply orb_false_iff in Hsup as [_ Hsup]. apply orb_false_iff in Hsup as [Asup _].
  destruct (argument_read_back a Ha Oa Asup Ra) as (Cok & Cvalue & Csup & Csource).
  destruct (others_read_back others Hall Hothers Osup Hread)
    as (Ook & Ovalue & Osup' & Otext).
  unfold canonicalTokens, argumentsOk, argumentsValue, argumentsTokens, paddedOk,
    paddedTokens, canonPadded.
  cbn [spaceBefore content spaceAfter forallb app].
  rewrite app_nil_r.
  split; [|split; [|split]].
  - now rewrite Cok, Ook.
  - now rewrite Cvalue, Ovalue.
  - now rewrite existsb_app, Csup, Osup'.
  - unfold serializeSelector. rewrite Otext, sourceText_app, Csource. reflexivity.
Qed.

End ReadBackArguments.

Lemma canonPiece_call (numberToString : float -> string) (readNumber : string -> float)
    (c f : Token) (argument : Padded (ArgumentSource (list Piece)))
    (others : list (Token * Padded (ArgumentSource (list Piece)))) (close : Token) :
  canonPiece numberToString readNumber (Call c f argument others close)
  = Call colon (func (nameOf f))
      (canonPadded numberToString readNumber (canonSimple numberToString readNumber)
         argument)
      (canonOthers numberToString readNumber (canonSimple numberToString readNumber)
         others)
      closeParen.
Proof. reflexivity. Qed.

(** Every piece that is read back is faithfully written: by induction on
    the pieces inside the arguments of calls. *)
Lemma piece_read_back (numberToString : float -> string)
    (readNumber : string -> float) (p : Piece) :
  pieceReadBack numberToString readNumber p.
Proof.
  induction p as [u|c identifier|c f argument others close Hargument Hothers]
    using Piece_nested_ind; intros (Hok & Hsup & Hread).
  - cbn [pieceOk pieceTokens] in Hok, Hsup. unfold pieceFaithful.
    cbn [canonPiece pieceOk isCopied pieceText pieceFunctions pieceTokens map].
    rewrite canonConstruct_text, canonConstruct_source.
    change (String.concat "" []) with "". rewrite append_empty_r.
    repeat split; [now apply canonConstruct_ok | now apply canonConstruct_supported].
  - destruct Hread.
  - rewrite pieceOk_call in Hok. rewrite pieceTokens_call in Hsup.
    apply andb_true_iff in Hok as [Hok _].
    apply andb_true_iff in Hok as [Hok Hargs].
    apply andb_true_iff in Hok as [_ Hname].
    cbn [existsb] in Hsup. rewrite existsb_app in Hsup.
    apply orb_false_iff in Hsup as [_ Hsup]. apply orb_false_iff in Hsup as [_ Hsup].
    apply orb_false_iff in Hsup as [Hsup _].
    change (argumentsReadable numberToString readNumber
              (simpleReadable numberToString readNumber) argument others) in Hread.
    destruct (arguments_read_back numberToString readNumber argument others
                Hargument Hothers Hargs Hsup Hread) as (Cok & Cvalue & Csup & Csource).
    unfold canonicalTokens in Csup, Csource.
    unfold pieceFaithful. rewrite canonPiece_call.
    rewrite pieceOk_call, !pieceFunctions_call, pieceTokens_call.
    cbn [isCopied pieceText nameOf class func isColonToken colon isCloseParenToken
         closeParen].
    rewrite Hname, Cok, Cvalue.
    split; [reflexivity|]. split; [reflexivity|]. split; [reflexivity|].
    split; [reflexivity|]. split.
    + cbn [existsb]. rewrite existsb_app, Csup. reflexivity.
    + rewrite !sourceText_cons, sourceText_app, Csource.
      cbn [toSource colon func closeParen map serializeFunction].
      rewrite concat_empty_cons. change (String.concat "" []) with "".
      change (sourceText [closeParen]) with ")".
      cbn [append]. now rewrite !append_assoc, append_empty_r.
Qed.

(** The tokens of a well-formed argument list parse to its value. *)
Lemma parseArgumentTokens_sources (argument : Padded (ArgumentSource (list Piece)))
    (others : list (Token * Padded (ArgumentSource (list Piece)))) :
  argumentsOk simpleOk argument others = true ->
  existsb isUnsupportedToken (argumentsTokens simpleTokens argument others) = false ->
  parseArgumentTokens (argumentsTokens simpleTokens argument others)
  = Returned (argumentsValue simpleValue argument others).
Proof.
  intros Hok Hunsupported.
  set (A := argumentsTokens simpleTokens argument others) in *.
  unfold parseArgumentTokens.
  assert (HT : withEOF A = A ++ [newEOFToken]).
  { destruct (arguments_last_token argument others Hok) as (l & t & E & Ht).
    fold A in E. rewrite E. now apply withEOF_snoc. }
  rewrite HT, (find_unsupported_none _ Hunsupported).
  destruct (rules_parse (fuelFor (A ++ [newEOFToken])))
    as (_ & _ & _ & _ & _ & _ & Hargs).
  pose proof (Hargs (A ++ [newEOFToken]) [] argument others newEOFToken []
                eq_refl Hok eq_refl) as Hparsed.
  cbn [app length] in Hparsed. fold A in Hparsed.
  rewrite Hparsed.
  - unfold isEOF, testAt. rewrite tokenAt_app. reflexivity.
  - unfold fuelFor. rewrite length_app. cbn [length]. lia.
Qed.

(** ** What the rules return comes from a source *)

Lemma tokensBetween_nil (T : list Token) (pos : nat) : tokensBetween T pos pos [].
Proof. split; [reflexivity | cbn; lia]. Qed.

Lemma tokensBetween_one (T : list Token) (pos : nat) (t : Token) :
  tokenAt T pos = Some t -> tokensBetween T pos (S pos) [t].
Proof.
  unfold tokenAt. intros H. split; [|cbn; lia].
  rewrite (skipn_cons_nth_error T pos), H. reflexivity.
Qed.

Lemma tokensBetween_app (T : list Token) (a b c : nat) (x y : list Token) :
  tokensBetween T a b x -> tokensBetween T b c y -> tokensBetween T a c (x ++ y).
Proof.
  intros [Hx ->] [Hy ->]. split.
  - now rewrite Hx, Hy, app_assoc.
  - rewrite length_app. lia.
Qed.

Lemma tokensBetween_cons (T : list Token) (a c : nat) (t : Token) (y : list Token) :
  tokenAt T a = Some t -> tokensBetween T (S a) c y -> tokensBetween T a c (t :: y).
Proof.
  intros Ht Hy. apply (tokensBetween_app T a (S a) c [t] y); [|exact Hy].
  now apply tokensBetween_one.
Qed.

Lemma tokensBetween_In (T : list Token) (a b : nat) (ts : list Token) (t : Token) :
  tokensBetween T a b ts -> In t ts -> In t T.
Proof.
  intros [H _] Hin. rewrite <- (firstn_skipn a T). apply in_or_app. right.
  rewrite H. apply in_or_app. now left.
Qed.

Lemma tokensBetween_eq (T : list Token) (a b : nat) (x y : list Token) :
  tokensBetween T a b x -> x = y -> tokensBetween T a b y.
Proof. now intros H <-. Qed.

Lemma tokensBetween_whitespace (T : list Token) (pos : nat) :
  exists spaces,
    tokensBetween T pos (skipWhitespace T pos) spaces /\
    forallb isWhitespaceToken spaces = true.
Proof.
  apply (skipWhitespace_ind T (fun p r => exists spaces,
           tokensBetween T p r spaces /\ forallb isWhitespaceToken spaces = true)).
  - intros p _. exists []. split; [apply tokensBetween_nil | reflexivity].
  - intros p r Hp (spaces & Hspaces & Hws). unfold testAt in Hp.
    destruct (tokenAt T p) as [t|] eqn:Ht; [|discriminate].
    exists (t :: spaces). split; [now apply tokensBetween_cons|].
    cbn [forallb]. now rewrite Hp, Hws.
Qed.

(** What a copying loop that returns went over. *)
Lemma appendSourcesUntil_ok (stop : Token -> bool) (rest : list Token) :
  forall s pos s' pos',
    appendSourcesUntil stop rest s pos = Ok s' pos' ->
    exists between t rest',
      rest = between ++ t :: rest' /\
      forallb (fun x => negb (stop x)) between = true /\
      stop t = true /\
      s' = (s ++ sourceText between)%string /\
      pos' = pos + length between.
Proof.
  induction rest as [|x rest IH]; intros s pos s' pos' H; [discriminate|].
  cbn [appendSourcesUntil] in H. destruct (stop x) eqn:Hx.
  - injection H as <- <-. exists [], x, rest.
    split; [reflexivity|]. split; [reflexivity|]. split; [exact Hx|].
    split; [now rewrite append_empty_r | cbn; lia].
  - destruct (IH _ _ _ _ H) as (between & t & rest' & -> & Hb & Ht & -> & ->).
    exists (x :: between), t, rest'.
    split; [reflexivity|]. split; [cbn [forallb]; now rewrite Hx, Hb|].
    split; [exact Ht|].
    split; [now rewrite sourceText_cons, append_assoc | cbn [length]; lia].
Qed.

Lemma copy_between (T : list Token) (stop : Token -> bool) (s : string) (pos : nat)
    (s' : string) (pos' : nat) :
  appendSourcesUntil stop (skipn pos T) s pos = Ok s' pos' ->
  exists between t,
    tokensBetween T pos pos' between /\
    tokenAt T pos' = Some t /\
    stop t = true /\
    forallb (fun x => negb (stop x)) between = true /\
    s' = (s ++ sourceText between)%string.
Proof.
  intros H. destruct (appendSourcesUntil_ok _ _ _ _ _ _ H)
    as (between & t & rest' & Hrest & Hb & Ht & -> & ->).
  assert (Hskip : skipn (pos + length between) T = t :: rest').
  { rewrite Nat.add_comm, <- skipn_skipn, Hrest. apply skipn_app_length. }
  exists between, t.
  split; [split; [now rewrite Hskip | reflexivity]|].
  split; [|auto].
  unfold tokenAt. rewrite skipn_cons_nth_error in Hskip.
    destruct (nth_error T (pos + length between)); [now injection Hskip as -> | discriminate].
Qed.

(** The cursor stays on a token that is no whitespace. *)
Lemma closer_not_whitespace (T : list Token) (pos : nat) (t : Token) :
  tokenAt T pos = Some t ->
  isWhitespaceToken t = false ->
  skipWhitespace T pos = pos.
Proof.
  intros Ht Hws. apply skipWhitespace_id. unfold testAt. now rewrite Ht.
Qed.

(** One turn of the loop of [consumeSimpleSelector] that returns in the
    end: the loop is at the end of the simple selector, or it went over
    one piece. *)
Lemma consumeSimpleSelectorLoop_ok (T : list Token) (fuel : nat) (raw : string)
    (fns : list CSSFunction) (pos : nat) (selector : CSSSimpleSelector) (pos' : nat) :
  argumentsSound T fuel ->
  consumeSimpleSelectorLoop T (S fuel) raw fns pos = Ok selector pos' ->
  (isSelectorClauseEnd T pos = true /\ pos' = pos /\
   selector = simpleSelectorOf raw fns /\ notEmpty raw fns = true) \/
  (exists p pos1,
     pieceOk p = true /\
     tokensBetween T pos pos1 (pieceTokens p) /\
     consumeSimpleSelectorLoop T fuel (raw ++ pieceText p) (fns ++ pieceFunctions p) pos1
     = Ok selector pos').
Proof.
  intros Hargs H. cbn [consumeSimpleSelectorLoop] in H.
  destruct (isSelectorClauseEnd T pos) eqn:Hend.
  { left. unfold notEmpty.
    destruct (String.eqb raw "" && Nat.eqb (length fns) 0); [discriminate|].
    injection H as <- <-. auto. }
  right. destruct (tokenAt T pos) as [t|] eqn:Ht; [|discriminate].
  destruct (isIdentToken t || isDelimToken "*" t) eqn:Hplain.
  { exists (Copied (Plain t)), (S pos).
    split; [cbn [pieceOk constructOk]; now rewrite Hplain|].
    split; [now apply tokensBetween_one|].
    cbn [pieceText pieceFunctions constructText]. now rewrite app_nil_r. }
  destruct (isHashToken t) eqn:Hhash.
  { exists (Copied (Plain t)), (S pos).
    split; [cbn [pieceOk constructOk]; now rewrite Hplain, Hhash|].
    split; [now apply tokensBetween_one|].
    cbn [pieceText pieceFunctions constructText]. now rewrite app_nil_r. }
  destruct (isDelimToken "." t) eqn:Hdot.
  { destruct (tokenAt T (S pos)) as [t'|] eqn:Ht'; [|discriminate].
    destruct (isIdentToken t') eqn:Hid; [|discriminate].
    exists (Copied (Class t t')), (S (S pos)).
    split; [cbn [pieceOk constructOk]; now rewrite Hdot, Hid|].
    split.
    { cbn [pieceTokens constructTokens]. apply tokensBetween_cons; [exact Ht|].
      now apply tokensBetween_one. }
    cbn [pieceText pieceFunctions constructText]. now rewrite app_nil_r. }
  destruct (isColonToken t) eqn:Hcolon.
  - destruct (tokenAt T (S pos)) as [[cl source]|] eqn:Ht'; [|discriminate].
    destruct cl as [value|value| | | | | | | | | | | | | | | | | | | | | | | |];
      try discriminate.
    + (* a colon and an identifier *)
      destruct (has builtinCSSFilters value) eqn:Hb.
      * exists (Copied (PseudoClass t (mkToken (IdentToken value) source))), (S (S pos)).
        split; [cbn [pieceOk constructOk nameOf class]; now rewrite Hcolon, Hb|].
        split.
        { cbn [pieceTokens constructTokens]. apply tokensBetween_cons; [exact Ht|].
          now apply tokensBetween_one. }
        cbn [pieceText pieceFunctions constructText toSource]. now rewrite app_nil_r.
      * exists (Bare t (mkToken (IdentToken value) source)), (S (S pos)).
        split; [cbn [pieceOk nameOf class]; now rewrite Hcolon, Hb|].
        split.
        { cbn [pieceTokens]. apply tokensBetween_cons; [exact Ht|].
          now apply tokensBetween_one. }
        cbn [pieceText pieceFunctions nameOf class]. now rewrite append_empty_r.
    + (* a colon and a function token *)
      destruct (has builtinCSSFunctions value) eqn:Hb.
      * destruct (consumeBuiltinFunctionArguments T (S (S pos))) as [s p2| |] eqn:Hcopy;
          cbn [bind] in H; try discriminate.
        unfold consumeBuiltinFunctionArguments in Hcopy.
        apply copy_between in Hcopy
          as (between & close & Hbetween & Hclose & Hstop & Hnone & ->).
        cbn beta in Hstop, Hnone.
        rewrite (closer_not_whitespace T p2 close Hclose) in H.
        2:{ unfold isCloseParenToken, isEOFToken, isWhitespaceToken in *.
            now destruct (class close). }
        destruct (isCloseParen T p2) eqn:Hparen; [|discriminate]. cbn [negb] in H.
        unfold isCloseParen, testAt in Hparen. rewrite Hclose in Hparen.
        exists (Copied (PseudoFunction t (mkToken (FunctionToken value) source)
                          between close)), (S p2).
        split.
        { cbn [pieceOk constructOk nameOf class].
          now rewrite Hcolon, Hb, Hnone, Hparen. }
        split.
        { cbn [pieceTokens constructTokens]. apply tokensBetween_cons; [exact Ht|].
          apply tokensBetween_cons; [exact Ht'|].
          apply (tokensBetween_app T _ p2); [exact Hbetween|].
          now apply tokensBetween_one. }
        cbn [pieceText pieceFunctions constructText nameOf class].
        rewrite app_nil_r. exact H.
      * destruct (consumeFunctionArguments T fuel (S (S pos))) as [args p2| |] eqn:Hfa;
          cbn [bind] in H; try discriminate.
        destruct (Hargs _ _ _ Hfa) as (argument & others & Hbetween & Hok & -> & Hskip).
        rewrite Hskip in H.
        destruct (isCloseParen T p2) eqn:Hparen; [|discriminate]. cbn [negb] in H.
        unfold isCloseParen, testAt in Hparen.
        destruct (tokenAt T p2) as [close|] eqn:Hclose; [|discriminate].
        exists (Call t (mkToken (FunctionToken value) source) argument others close),
          (S p2).
        split.
        { rewrite pieceOk_call. cbn [nameOf class].
          now rewrite Hcolon, Hb, Hok, Hparen. }
        split.
        { rewrite pieceTokens_call. apply tokensBetween_cons; [exact Ht|].
          apply tokensBetween_cons; [exact Ht'|].
          apply (tokensBetween_app T _ p2); [exact Hbetween|].
          now apply tokensBetween_one. }
        rewrite pieceFunctions_call. cbn [pieceText nameOf class].
        rewrite append_empty_r. exact H.
  - destruct (isOpenSquareToken t) eqn:Hopen; [|discriminate].
    destruct (consumeSquareBrackets T (raw ++ "[") (S pos)) as [raw' p2| |] eqn:Hcopy;
      cbn [bind] in H; try discriminate.
    unfold consumeSquareBrackets in Hcopy.
    apply copy_between in Hcopy
      as (between & close & Hbetween & Hclose & Hstop & Hnone & ->).
    cbn beta in Hstop, Hnone.
    destruct (testAt T isCloseSquareToken p2) eqn:Hsquare; [|discriminate].
    cbn [negb] in H. unfold testAt in Hsquare. rewrite Hclose in Hsquare.
    exists (Copied (Attribute t between close)), (S p2).
    split; [cbn [pieceOk constructOk]; now rewrite Hopen, Hnone, Hsquare|].
    split.
    { cbn [pieceTokens constructTokens]. apply tokensBetween_cons; [exact Ht|].
      apply (tokensBetween_app T _ p2); [exact Hbetween|].
      now apply tokensBetween_one. }
    cbn [pieceText pieceFunctions constructText]. rewrite app_nil_r.
    rewrite !append_assoc in H. exact H.
Qed.

Lemma simpleLoop_sound_step (T : list Token) (fuel : nat) :
  argumentsSound T fuel -> simpleLoopSound T fuel -> simpleLoopSound T (S fuel).
Proof.
  intros Hargs IH raw fns pos selector pos' H.
  destruct (consumeSimpleSelectorLoop_ok T fuel raw fns pos selector pos' Hargs H)
    as [(Hend & -> & -> & Hne) | (p & pos1 & Hok & Hp & Hrest)].
  - exists []. cbn [simpleTokens flat_map forallb].
    change (simpleText []) with "". change (simpleFunctions []) with (@nil CSSFunction).
    rewrite append_empty_r, app_nil_r.
    split; [apply tokensBetween_nil|]. auto.
  - destruct (IH _ _ _ _ _ Hrest) as (pieces & Hpieces & Hoks & Hne & -> & Hend).
    exists (p :: pieces).
    assert (Efns : simpleFunctions (p :: pieces)
                   = pieceFunctions p ++ simpleFunctions pieces) by reflexivity.
    rewrite simpleText_cons, Efns, <- append_assoc, app_assoc.
    split.
    { change (simpleTokens (p :: pieces)) with (pieceTokens p ++ simpleTokens pieces).
      now apply (tokensBetween_app T _ pos1). }
    split; [cbn [forallb]; now rewrite Hok, Hoks|]. auto.
Qed.

Lemma simple_sound_step (T : list Token) (fuel : nat) :
  simpleLoopSound T fuel -> simpleSound T (S fuel).
Proof.
  intros IH pos selector pos' H. cbn [consumeSimpleSelector] in H.
  destruct (IH _ _ _ _ _ H) as (pieces & Hpieces & Hoks & Hne & -> & Hend).
  cbn [append app] in *.
  exists pieces. split; [exact Hpieces|]. split; [|auto].
  unfold simpleOk. now rewrite Hoks, Hne.
Qed.

(** The same tokens, grouped in another way. *)
Ltac same_tokens :=
  repeat (rewrite <- app_assoc || rewrite <- app_comm_cons || rewrite app_nil_r);
  reflexivity.

Lemma tailTokens_cons (sep : Separator) (pieces : list Piece)
    (tail : list (Separator * list Piece)) :
  tailTokens simpleTokens ((sep, pieces) :: tail)
  = separatorTokens sep ++ simpleTokens pieces ++ tailTokens simpleTokens tail.
Proof. unfold tailTokens. cbn [flat_map fst snd]. now rewrite <- app_assoc. Qed.

Lemma tailOk_cons (sep : Separator) (pieces : list Piece)
    (tail : list (Separator * list Piece)) :
  tailOk simpleOk ((sep, pieces) :: tail)
  = separatorOk sep && simpleOk pieces && tailOk simpleOk tail.
Proof. reflexivity. Qed.

Lemma complexLoop_sound_step (T : list Token) (fuel : nat) :
  simpleSound T fuel -> complexLoopSound T fuel -> complexLoopSound T (S fuel).
Proof.
  intros Hsimple IH done current pos c pos' Hend H.
  rewrite consumeComplexSelectorLoop_unfold in H.
  destruct (tokensBetween_whitespace T pos) as (spaces & Hspaces & Hws).
  destruct (clauseCombinatorAt T (skipWhitespace T pos)) as [value|] eqn:Hcomb.
  - rewrite setLastCombinator_snoc in H.
    destruct (tokensBetween_whitespace T (S (skipWhitespace T pos)))
      as (after & Hafter & Hwsa).
    destruct (consumeSimpleSelector T fuel
                (skipWhitespace T (S (skipWhitespace T pos))))
      as [selector p3| |] eqn:Hss; cbn [bind] in H; try discriminate.
    destruct (Hsimple _ _ _ Hss) as (pieces & Hpieces & Hok & -> & Hend3).
    destruct (IH (done ++ [(current, value)]) _ _ _ _ Hend3 H)
      as (tail & trailing & Htail & Htok & Htr & ->).
    apply clauseCombinatorAt_Some in Hcomb as (src & Hat & Hin).
    exists ((Combined spaces (mkToken (DelimToken value) src) after, pieces) :: tail),
      trailing.
    split; [|split; [|split]].
    + rewrite tailTokens_cons. cbn [separatorTokens].
      pose proof (tokensBetween_app _ _ _ _ _ _ Hpieces Htail) as Hrun.
      pose proof (tokensBetween_app _ _ _ _ _ _ Hafter Hrun) as Hrun1.
      pose proof (tokensBetween_cons _ _ _ _ _ Hat Hrun1) as Hrun2.
      pose proof (tokensBetween_app _ _ _ _ _ _ Hspaces Hrun2) as Hrun3.
      apply (tokensBetween_eq _ _ _ _ _ Hrun3). same_tokens.
    + rewrite tailOk_cons. cbn [separatorOk]. unfold isClauseCombinatorToken.
      cbn [class]. apply has_In in Hin. now rewrite Hws, Hwsa, Hin, Hok, Htok.
    + exact Htr.
    + cbn [simplesOf separatorValue class]. now rewrite <- app_assoc.
  - destruct (isSelectorClauseEnd T (skipWhitespace T pos)) eqn:Hend1.
    + injection H as <- <-. exists [], spaces.
      split; [exact Hspaces|]. split; [reflexivity|]. split; [exact Hws|].
      reflexivity.
    + destruct spaces as [|space spaces].
      { destruct Hspaces as [_ E]. cbn [length] in E. rewrite Nat.add_0_r in E.
        rewrite E in Hend1. congruence. }
      destruct (consumeSimpleSelector T fuel (skipWhitespace T pos))
        as [selector p3| |] eqn:Hss; cbn [bind] in H; try discriminate.
      destruct (Hsimple _ _ _ Hss) as (pieces & Hpieces & Hok & -> & Hend3).
      destruct (IH (done ++ [(current, "")]) _ _ _ _ Hend3 H)
        as (tail & trailing & Htail & Htok & Htr & ->).
      exists ((Descendant space spaces, pieces) :: tail), trailing.
      split; [|split; [|split]].
      * rewrite tailTokens_cons. cbn [separatorTokens].
        pose proof (tokensBetween_app _ _ _ _ _ _ Hpieces Htail) as Hrun.
        pose proof (tokensBetween_app _ _ _ _ _ _ Hspaces Hrun) as Hrun1.
        apply (tokensBetween_eq _ _ _ _ _ Hrun1). same_tokens.
      * rewrite tailOk_cons. cbn [separatorOk]. cbn [forallb] in Hws.
        now rewrite Hws, Hok, Htok.
      * exact Htr.
      * cbn [simplesOf separatorValue]. now rewrite <- app_assoc.
Qed.

Lemma complex_sound_step (T : list Token) (fuel : nat) :
  simpleSound T fuel -> complexLoopSound T fuel -> complexSound T (S fuel).
Proof.
  intros Hsimple Hloop pos c pos' H. cbn [consumeComplexSelector] in H.
  destruct (tokensBetween_whitespace T pos) as (leading & Hleading & Hws).
  destruct (consumeSimpleSelector T fuel (skipWhitespace T pos))
    as [selector p2| |] eqn:Hss; cbn [bind] in H; try discriminate.
  destruct (Hsimple _ _ _ Hss) as (head & Hhead & Hok & -> & Hend).
  destruct (Hloop [] _ _ _ _ Hend H) as (tail & trailing & Htail & Htok & Htr & ->).
  exists leading, head, tail, trailing.
  split; [|auto].
  pose proof (tokensBetween_app _ _ _ _ _ _ Hhead Htail) as Hrun.
  exact (tokensBetween_app _ _ _ _ _ _ Hleading Hrun).
Qed.

Lemma argument_sound_step (T : list Token) (fuel : nat) :
  complexSound T fuel -> argumentSound T (S fuel).
Proof.
  intros Hcomplex pos arg pos' H. cbn [consumeArgument] in H.
  destruct (tokensBetween_whitespace T pos) as (before & Hbefore & Hws).
  assert (Hselector :
            bind (consumeComplexSelector T fuel (skipWhitespace T pos))
              (fun c pos0 => Ok (ArgSelector c) pos0) = Ok arg pos' ->
            exists a,
              tokensBetween T pos pos' (paddedTokens simpleTokens a) /\
              paddedOk simpleOk a = true /\
              arg = argumentValue simpleValue (content a)).
  { intros Hc.
    destruct (consumeComplexSelector T fuel (skipWhitespace T pos))
      as [c p2| |] eqn:Hcs; cbn [bind] in Hc; try discriminate.
    injection Hc as <- <-.
    destruct (Hcomplex _ _ _ Hcs)
      as (leading & head & tail & trailing & Htokens & Hwl & Hok & Htok & Htr & ->).
    exists (mkPadded (before ++ leading) (SelectorSource head tail) trailing).
    split; [|split].
    - unfold paddedTokens.
      cbn [spaceBefore content spaceAfter argumentTokens].
      pose proof (tokensBetween_app _ _ _ _ _ _ Hbefore Htokens) as Hrun.
      apply (tokensBetween_eq _ _ _ _ _ Hrun). same_tokens.
    - unfold paddedOk. cbn [spaceBefore content spaceAfter argumentOk].
      now rewrite forallb_app, Hws, Hwl, Hok, Htok, Htr.
    - reflexivity. }
  destruct (tokenAt T (skipWhitespace T pos)) as [[cl source]|] eqn:Hat;
    cbn [option_map class] in H; [|now apply Hselector].
  destruct cl; try (now apply Hselector).
  - injection H as <- <-.
    exists (mkPadded before (StringSource value source) []).
    split; [|split; [|reflexivity]].
    + unfold paddedTokens. cbn [spaceBefore content spaceAfter argumentTokens].
      exact (tokensBetween_app _ _ _ _ _ _ Hbefore (tokensBetween_one _ _ _ Hat)).
    + unfold paddedOk. cbn [spaceBefore content spaceAfter argumentOk forallb].
      now rewrite Hws.
  - injection H as <- <-.
    exists (mkPadded before (NumberSource value source) []).
    split; [|split; [|reflexivity]].
    + unfold paddedTokens. cbn [spaceBefore content spaceAfter argumentTokens].
      exact (tokensBetween_app _ _ _ _ _ _ Hbefore (tokensBetween_one _ _ _ Hat)).
    + unfold paddedOk. cbn [spaceBefore content spaceAfter argumentOk forallb].
      now rewrite Hws.
Qed.

Lemma withSpaceAfter_tokens (a : Padded (ArgumentSource (list Piece)))
    (spaces : list Token) :
  paddedTokens simpleTokens (withSpaceAfter a spaces)
  = paddedTokens simpleTokens a ++ spaces.
Proof.
  unfold paddedTokens, withSpaceAfter. cbn [spaceBefore content spaceAfter].
  now rewrite <- !app_assoc.
Qed.

Lemma withSpaceAfter_ok (a : Padded (ArgumentSource (list Piece)))
    (spaces : list Token) :
  paddedOk simpleOk a = true -> forallb isWhitespaceToken spaces = true ->
  paddedOk simpleOk (withSpaceAfter a spaces) = true.
Proof.
  unfold paddedOk, withSpaceAfter. cbn [spaceBefore content spaceAfter].
  intros Hok Hws. apply andb_true_iff in Hok as [Hok Hafter].
  now rewrite Hok, forallb_app, Hafter, Hws.
Qed.

Lemma argumentsLoop_sound_step (T : list Token) (fuel : nat) :
  argumentSound T fuel -> argumentsLoopSound T fuel -> argumentsLoopSound T (S fuel).
Proof.
  intros Harg IH result pos args pos' H.
  rewrite consumeFunctionArgumentsLoop_unfold in H.
  destruct (tokensBetween_whitespace T pos) as (spaces & Hspaces & Hws).
  destruct (isComma T (skipWhitespace T pos)) eqn:Hcomma; cbn [negb] in H.
  - unfold isComma, testAt in Hcomma.
    destruct (tokenAt T (skipWhitespace T pos)) as [cm|] eqn:Hat; [|discriminate].
    destruct (consumeArgument T fuel (S (skipWhitespace T pos)))
      as [arg p2| |] eqn:Ha; cbn [bind] in H; try discriminate.
    destruct (Harg _ _ _ Ha) as (a & Hbetween & Hok & ->).
    destruct (IH _ _ _ _ H) as (spaces' & others & Hothers & Hws' & Hoks & -> & Hskip).
    exists spaces, ((cm, withSpaceAfter a spaces') :: others).
    split; [|split; [|split; [|split]]].
    + unfold othersTokens. cbn [flat_map fst snd].
      fold (othersTokens simpleTokens others). rewrite withSpaceAfter_tokens.
      pose proof (tokensBetween_app _ _ _ _ _ _ Hbetween Hothers) as Hrun.
      pose proof (tokensBetween_cons _ _ _ _ _ Hat Hrun) as Hrun1.
      pose proof (tokensBetween_app _ _ _ _ _ _ Hspaces Hrun1) as Hrun2.
      apply (tokensBetween_eq _ _ _ _ _ Hrun2). same_tokens.
    + exact Hws.
    + unfold othersOk. cbn [forallb fst snd]. fold (othersOk simpleOk others).
      now rewrite Hcomma, (withSpaceAfter_ok a spaces' Hok Hws'), Hoks.
    + unfold othersValue. cbn [map snd withSpaceAfter content].
      now rewrite <- app_assoc.
    + exact Hskip.
  - injection H as <- <-. exists spaces, [].
    split; [|split; [|split; [|split]]].
    + cbn [othersTokens flat_map]. now rewrite app_nil_r.
    + exact Hws.
    + reflexivity.
    + cbn [othersValue map]. now rewrite app_nil_r.
    + apply skipWhitespace_idem.
Qed.

Lemma arguments_sound_step (T : list Token) (fuel : nat) :
  argumentSound T fuel -> argumentsLoopSound T fuel -> argumentsSound T (S fuel).
Proof.
  intros Harg Hloop pos args pos' H. cbn [consumeFunctionArguments] in H.
  destruct (consumeArgument T fuel pos) as [arg p1| |] eqn:Ha;
    cbn [bind] in H; try discriminate.
  destruct (Harg _ _ _ Ha) as (a & Hbetween & Hok & ->).
  destruct (Hloop _ _ _ _ H) as (spaces & others & Hothers & Hws & Hoks & -> & Hskip).
  exists (withSpaceAfter a spaces), others.
  split; [|split; [|split]].
  - unfold argumentsTokens. rewrite withSpaceAfter_tokens.
    pose proof (tokensBetween_app _ _ _ _ _ _ Hbetween Hothers) as Hrun.
    apply (tokensBetween_eq _ _ _ _ _ Hrun). same_tokens.
  - unfold argumentsOk. now rewrite (withSpaceAfter_ok a spaces Hok Hws), Hoks.
  - reflexivity.
  - exact Hskip.
Qed.

(** Whatever a rule returns, with whatever fuel, it is the value of a
    source over the tokens it went over. *)
Lemma rules_sound (T : list Token) (fuel : nat) : rulesSound T fuel.
Proof.
  induction fuel as [|fuel (Hsl & Hs & Hcl & Hc & Ha & Hal & Has)].
  - unfold rulesSound.
    repeat split; intro; intros; discriminate.
  - split; [now apply simpleLoop_sound_step|].
    split; [now apply simple_sound_step|].
    split; [now apply complexLoop_sound_step|].
    split; [now apply complex_sound_step|].
    split; [now apply argument_sound_step|].
    split; [now apply argumentsLoop_sound_step|].
    now apply arguments_sound_step.
Qed.

(** ** What is told on the tree holds of the source *)

Lemma allOf_app {A : Type} (P : A -> Prop) (a b : list A) :
  allOf P (a ++ b) <-> allOf P a /\ allOf P b.
Proof.
  induction a as [|x a IH]; cbn [app allOf fold_right]; [tauto|].
  fold (allOf P (a ++ b)). fold (allOf P a). tauto.
Qed.

Lemma allOf_ext {A : Type} (P Q : A -> Prop) (l : list A) :
  (forall x, P x <-> Q x) -> allOf P l <-> allOf Q l.
Proof.
  intros H. induction l as [|x l IH]; [tauto|].
  change (P x /\ allOf P l <-> Q x /\ allOf Q l). rewrite (H x). tauto.
Qed.

Lemma allOf_In {A : Type} (P : A -> Prop) (l : list A) :
  allOf P l -> forall x, In x l -> P x.
Proof.
  induction l as [|y l IH]; intros Hall x Hin; [destruct Hin|].
  destruct Hall as [Hy Hall]. destruct Hin as [<- | Hin]; auto.
Qed.

Lemma functions_simpleValue (pieces : list Piece) :
  functions (simpleValue pieces) = simpleFunctions pieces.
Proof. reflexivity. Qed.

Section ReadableFacts.

Variable numberToString : float -> string.
Variable readNumber : string -> float.

Notation "'readableA'" := (readableArgument numberToString readNumber).
Notation "'readableF'" := (readableFunction numberToString readNumber).
Notation "'readableS'" := (simpleReadable numberToString readNumber).
Notation "'pieceFromTree'" := (pieceFromTree numberToString readNumber).

Lemma readableArgument_selector (simple : list (CSSSimpleSelector * string)) :
  readableA (ArgSelector (mkComplex simple))
  <-> allOf (fun p => allOf readableF (functions (fst p))) simple.
Proof.
  cbn [readableArgument]. apply allOf_ext. intros [[css fns] combinator].
  cbn [fst functions]. apply allOf_ext. intros [name args]. reflexivity.
Qed.

Lemma simple_from_tree (pieces : list Piece) :
  allOf pieceFromTree pieces ->
  allOf readableF (simpleFunctions pieces) -> readableS pieces.
Proof.
  induction pieces as [|p pieces IH]; intros Hall Hfns; [exact I|].
  destruct Hall as [Hp Hall].
  change (simpleFunctions (p :: pieces))
    with (pieceFunctions p ++ simpleFunctions pieces) in Hfns.
  apply allOf_app in Hfns as [Hfp Hfns].
  split; [now apply Hp | now apply IH].
Qed.

Lemma tail_from_tree (tail : list (Separator * list Piece)) :
  allOf (fun st => allOf pieceFromTree (snd st)) tail ->
  forall current,
    allOf (fun p => allOf readableF (functions (fst p)))
      (simplesOf simpleValue current tail) ->
    allOf readableF (functions current) /\
    allOf (fun st => readableS (snd st)) tail.
Proof.
  induction tail as [|[sep s] tail IH]; intros Hall current Hread.
  - cbn in Hread. split; [tauto | exact I].
  - destruct Hall as [Hs Hall]. cbn [simplesOf] in Hread.
    destruct Hread as [Hcurrent Hread]. cbn [fst snd] in *.
    destruct (IH Hall _ Hread) as [Hfns Htail].
    split; [exact Hcurrent|]. split; [|exact Htail].
    now apply simple_from_tree.
Qed.

Lemma argument_from_tree (a : ArgumentSource (list Piece)) :
  argumentAll pieceFromTree a ->
  readableA (argumentValue simpleValue a) ->
  argumentReadable numberToString readNumber readableS a.
Proof.
  destruct a as [value source|value source|head tail];
    cbn [argumentAll argumentValue argumentReadable]; auto.
  intros [Hhead Htail] Hread. apply readableArgument_selector in Hread.
  destruct (tail_from_tree tail Htail _ Hread) as [Hfns Hrest].
  split; [|exact Hrest]. now apply simple_from_tree.
Qed.

Lemma arguments_from_tree (argument : Padded (ArgumentSource (list Piece)))
    (others : list (Token * Padded (ArgumentSource (list Piece)))) :
  argumentAll pieceFromTree (content argument) ->
  allOf (fun o => argumentAll pieceFromTree (content (snd o))) others ->
  allOf readableA (argumentsValue simpleValue argument others) ->
  argumentsReadable numberToString readNumber readableS argument others.
Proof.
  intros Ha Hall [Hread Hothers]. split; [now apply argument_from_tree|].
  induction others as [|[cm a] others IH]; [exact I|].
  destruct Hall as [Ha' Hall]. destruct Hothers as [Hread' Hothers].
  split; [now apply argument_from_tree | now apply IH].
Qed.

Lemma piece_from_tree (p : Piece) : pieceFromTree p.
Proof.
  induction p as [u|c identifier|c f argument others close Hargument Hothers]
    using Piece_nested_ind; intros Hfns.
  - exact I.
  - destruct Hfns as [[Hne _] _]. now destruct Hne.
  - rewrite pieceFunctions_call in Hfns. destruct Hfns as [[_ Hargs] _].
    cbn [args] in Hargs.
    change (argumentsReadable numberToString readNumber readableS argument others).
    now apply arguments_from_tree.
Qed.

Lemma readable_source (func : CSSFunction)
    (argument : Padded (ArgumentSource (list Piece)))
    (others : list (Token * Padded (ArgumentSource (list Piece)))) :
  readableF func ->
  argumentsValue simpleValue argument others = args func ->
  argumentsReadable numberToString readNumber readableS argument others.
Proof.
  intros [_ Hread] E. rewrite <- E in Hread.
  assert (Hargument : forall a : ArgumentSource (list Piece),
            argumentAll pieceFromTree a).
  { intros [value source|value source|head tail]; cbn [argumentAll]; auto.
    split; [apply allOf_all, piece_from_tree|].
    apply allOf_all. intros st. apply allOf_all, piece_from_tree. }
  apply arguments_from_tree; auto.
  apply allOf_all. intros o. apply Hargument.
Qed.

End ReadableFacts.

(** ** The source of every function of a parsed selector *)

Lemma functionsOfArgument_selector (simple : list (CSSSimpleSelector * string)) :
  functionsOfArgument (ArgSelector (mkComplex simple))
  = flat_map (fun p => flat_map functionsWithin (functions (fst p))) simple.
Proof.
  cbn [functionsOfArgument]. apply flat_map_ext. intros [[css fns] combinator].
  cbn [fst functions]. apply flat_map_ext. intros [name args]. reflexivity.
Qed.

Lemma othersTokens_cons (cm : Token) (a : Padded (ArgumentSource (list Piece)))
    (others : list (Token * Padded (ArgumentSource (list Piece)))) :
  othersTokens simpleTokens ((cm, a) :: others)
  = cm :: paddedTokens simpleTokens a ++ othersTokens simpleTokens others.
Proof. reflexivity. Qed.

Lemma othersOk_cons (cm : Token) (a : Padded (ArgumentSource (list Piece)))
    (others : list (Token * Padded (ArgumentSource (list Piece)))) :
  othersOk simpleOk ((cm, a) :: others)
  = isCommaToken cm && paddedOk simpleOk a && othersOk simpleOk others.
Proof. reflexivity. Qed.

Lemma othersValue_cons (cm : Token) (a : Padded (ArgumentSource (list Piece)))
    (others : list (Token * Padded (ArgumentSource (list Piece)))) :
  othersValue simpleValue ((cm, a) :: others)
  = argumentValue simpleValue (content a) :: othersValue simpleValue others.
Proof. reflexivity. Qed.

Lemma simple_located (pieces : list Piece) :
  allOf pieceLocated pieces ->
  forallb pieceOk pieces = true ->
  existsb isUnsupportedToken (simpleTokens pieces) = false ->
  forall func,
    In func (flat_map functionsWithin (simpleFunctions pieces)) ->
    args func <> [] ->
    exists argument others, parsedFrom (args func) argument others.
Proof.
  induction pieces as [|p pieces IH]; intros Hall Hok Hsup func Hin Hne;
    [destruct Hin|].
  destruct Hall as [Hp Hall]. cbn [forallb] in Hok.
  apply andb_true_iff in Hok as [Okp Hok].
  change (simpleTokens (p :: pieces)) with (pieceTokens p ++ simpleTokens pieces)
    in Hsup.
  rewrite existsb_app in Hsup. apply orb_false_iff in Hsup as [Sp Hsup].
  change (simpleFunctions (p :: pieces))
    with (pieceFunctions p ++ simpleFunctions pieces) in Hin.
  rewrite flat_map_app in Hin. apply in_app_or in Hin as [Hin | Hin].
  - now apply (Hp Okp Sp func).
  - now apply (IH Hall Hok Hsup func).
Qed.

Lemma tail_located (tail : list (Separator * list Piece)) :
  allOf (fun st => allOf pieceLocated (snd st)) tail ->
  tailOk simpleOk tail = true ->
  existsb isUnsupportedToken (tailTokens simpleTokens tail) = false ->
  forall current func,
    In func (flat_map (fun p => flat_map functionsWithin (functions (fst p)))
               (simplesOf simpleValue current tail)) ->
    args func <> [] ->
    In func (flat_map functionsWithin (functions current)) \/
    exists argument others, parsedFrom (args func) argument others.
Proof.
  induction tail as [|[sep s] tail IH]; intros Hall Hok Hsup current func Hin Hne.
  - cbn [simplesOf flat_map fst] in Hin. rewrite app_nil_r in Hin. now left.
  - destruct Hall as [Hs Hall]. cbn [snd] in Hs.
    rewrite tailOk_cons in Hok. apply andb_true_iff in Hok as [Hok Htail].
    apply andb_true_iff in Hok as [_ Hsok].
    rewrite tailTokens_cons, !existsb_app in Hsup.
    apply orb_false_iff in Hsup as [_ Hsup]. apply orb_false_iff in Hsup as [Ssup Tsup].
    cbn [simplesOf flat_map fst] in Hin. apply in_app_or in Hin as [Hin | Hin];
      [now left|]. right.
    destruct (IH Hall Htail Tsup _ func Hin Hne) as [Hhere | Hthere]; [|exact Hthere].
    rewrite functions_simpleValue in Hhere.
    unfold simpleOk in Hsok. apply andb_true_iff in Hsok as [Hsok _].
    now apply (simple_located s Hs Hsok Ssup func).
Qed.

Lemma argument_located (a : ArgumentSource (list Piece)) :
  argumentAll pieceLocated a ->
  argumentOk simpleOk a = true ->
  existsb isUnsupportedToken (argumentTokens simpleTokens a) = false ->
  forall func,
    In func (functionsOfArgument (argumentValue simpleValue a)) ->
    args func <> [] ->
    exists argument others, parsedFrom (args func) argument others.
Proof.
  destruct a as [value source|value source|head tail];
    cbn [argumentAll argumentOk argumentTokens argumentValue];
    intros Hall Hok Hsup func Hin Hne; try (now destruct Hin).
  destruct Hall as [Hhead Htail]. apply andb_true_iff in Hok as [Ohead Otail].
  rewrite existsb_app in Hsup. apply orb_false_iff in Hsup as [Shead Stail].
  rewrite functionsOfArgument_selector in Hin.
  destruct (tail_located tail Htail Otail Stail _ func Hin Hne) as [Hhere | Hthere];
    [|exact Hthere].
  rewrite functions_simpleValue in Hhere.
  unfold simpleOk in Ohead. apply andb_true_iff in Ohead as [Ohead _].
  now apply (simple_located head Hhead Ohead Shead func).
Qed.

Lemma arguments_located (argument : Padded (ArgumentSource (list Piece)))
    (others : list (Token * Padded (ArgumentSource (list Piece)))) :
  argumentAll pieceLocated (content argument) ->
  allOf (fun o => argumentAll pieceLocated (content (snd o))) others ->
  argumentsOk simpleOk argument others = true ->
  existsb isUnsupportedToken (argumentsTokens simpleTokens argument others) = false ->
  forall func,
    In func (flat_map functionsOfArgument (argumentsValue simpleValue argument others)) ->
    args func <> [] ->
    exists argument' others', parsedFrom (args func) argument' others'.
Proof.
  intros Ha Hall Hok Hsup func Hin Hne.
  unfold argumentsOk in Hok. apply andb_true_iff in Hok as [Hpad Hothers].
  unfold paddedOk in Hpad. apply andb_true_iff in Hpad as [Hpad _].
  apply andb_true_iff in Hpad as [_ Oa].
  unfold argumentsTokens, paddedTokens in Hsup. rewrite !existsb_app in Hsup.
  apply orb_false_iff in Hsup as [Hsup Osup].
  apply orb_false_iff in Hsup as [_ Hsup]. apply orb_false_iff in Hsup as [Asup _].
  unfold argumentsValue in Hin. cbn [flat_map] in Hin.
  apply in_app_or in Hin as [Hin | Hin];
    [now apply (argument_located (content argument) Ha Oa Asup func)|].
  clear Ha Oa Asup. induction others as [|[cm a] others IH]; [destruct Hin|].
  destruct Hall as [Ha Hall].
  rewrite othersOk_cons in Hothers.
  apply andb_true_iff in Hothers as [Hpad Hothers].
  apply andb_true_iff in Hpad as [_ Hpad].
  unfold paddedOk in Hpad. apply andb_true_iff in Hpad as [Hpad _].
  apply andb_true_iff in Hpad as [_ Oa].
  rewrite othersTokens_cons in Osup. unfold paddedTokens in Osup.
  cbn [existsb] in Osup. rewrite !existsb_app in Osup.
  apply orb_false_iff in Osup as [_ Osup]. apply orb_false_iff in Osup as [Osup Rsup].
  apply orb_false_iff in Osup as [_ Osup]. apply orb_false_iff in Osup as [Asup _].
  rewrite othersValue_cons in Hin. cbn [flat_map] in Hin.
  apply in_app_or in Hin as [Hin | Hin].
  - now apply (argument_located (content a) Ha Oa Asup func).
  - now apply IH.
Qed.

Lemma piece_located (p : Piece) : pieceLocated p.
Proof.
  induction p as [u|c identifier|c f argument others close Hargument Hothers]
    using Piece_nested_ind; intros Hok Hsup func Hin Hne.
  - destruct Hin.
  - cbn in Hin. destruct Hin as [<- | []]. now destruct Hne.
  - rewrite pieceOk_call in Hok. rewrite pieceTokens_call in Hsup.
    apply andb_true_iff in Hok as [Hok _].
    apply andb_true_iff in Hok as [_ Hargs].
    cbn [existsb] in Hsup. rewrite existsb_app in Hsup.
    apply orb_false_iff in Hsup as [_ Hsup]. apply orb_false_iff in Hsup as [_ Hsup].
    apply orb_false_iff in Hsup as [Hsup _].
    rewrite pieceFunctions_call in Hin. cbn [flat_map] in Hin.
    rewrite app_nil_r in Hin. unfold functionsWithin in Hin. cbn [args] in Hin.
    destruct Hin as [<- | Hin].
    + exists argument, others. cbn [args]. now split.
    + now apply (arguments_located argument others Hargument Hothers Hargs Hsup func).
Qed.

Lemma supported_between (T : list Token) (pos pos' : nat) (ts : list Token) :
  find isUnsupportedToken T = None ->
  tokensBetween T pos pos' ts ->
  existsb isUnsupportedToken ts = false.
Proof.
  intros Hfind Hts. destruct (existsb isUnsupportedToken ts) eqn:E; [|reflexivity].
  apply existsb_exists in E as (t & Hin & Ht).
  rewrite (find_none _ _ Hfind t (tokensBetween_In _ _ _ _ _ Hts Hin)) in Ht.
  discriminate.
Qed.

(** Every function with arguments of a selector list that [parseCSS]
    returns has its arguments from a source. *)
Lemma parseCSS_located (tokenize : string -> string + list Token) (selector : string)
    (selectors : CSSSelectorList) (func : CSSFunction) :
  parseCSS tokenize selector = Returned selectors ->
  In func (functionsOfList selectors) ->
  args func <> [] ->
  exists argument others, parsedFrom (args func) argument others.
Proof.
  intros Hparse Hin Hne. unfold parseCSS in Hparse.
  destruct (tokenize selector) as [msg|tokenized]; [discriminate|].
  destruct (parseCSSTokens_returned tokenized selectors Hparse) as (pos & Hfa & _).
  assert (Hfind : find isUnsupportedToken (withEOF tokenized) = None).
  { unfold parseCSSTokens in Hparse.
    now destruct (find isUnsupportedToken (withEOF tokenized)). }
  destruct (rules_sound (withEOF tokenized) (fuelFor (withEOF tokenized)))
    as (_ & _ & _ & _ & _ & _ & Hsound).
  destruct (Hsound _ _ _ Hfa) as (argument & others & Hts & Hok & Hvalue & _).
  pose proof (supported_between _ _ _ _ Hfind Hts) as Hsup.
  assert (Hargument : forall a : ArgumentSource (list Piece),
            argumentAll pieceLocated a).
  { intros [value source|value source|head tail]; cbn [argumentAll]; auto.
    split; [apply allOf_all, piece_located|].
    apply allOf_all. intros st. apply allOf_all, piece_located. }
  apply (arguments_located argument others (Hargument _)
           (allOf_all _ _ (fun o => Hargument _)) Hok Hsup func); [|exact Hne].
  rewrite <- Hvalue. unfold functionsOfList in Hin. now rewrite flat_map_concat_map, map_map, <- flat_map_concat_map.
Qed.

(** The tokens of a readable source as the serializer writes it: their
    source slices are the serialized text, and they parse back to the
    value of the source. *)
Lemma canonicalTokens_parsed (numberToString : float -> string)
    (readNumber : string -> float)
    (argument : Padded (ArgumentSource (list Piece)))
    (others : list (Token * Padded (ArgumentSource (list Piece)))) :
  argumentsOk simpleOk argument others = true ->
  existsb isUnsupportedToken (argumentsTokens simpleTokens argument others) = false ->
  argumentsReadable numberToString readNumber
    (simpleReadable numberToString readNumber) argument others ->
  serializeSelector numberToString (argumentsValue simpleValue argument others)
  = sourceText (canonicalTokens numberToString readNumber argument others) /\
  parseArgumentTokens (canonicalTokens numberToString readNumber argument others)
  = Returned (argumentsValue simpleValue argument others).
Proof.
  intros Hok Hsup Hread.
  pose proof (piece_read_back numberToString readNumber) as Hall.
  assert (Hargument : forall a : ArgumentSource (list Piece),
            argumentAll (pieceReadBack numberToString readNumber) a).
  { intros [value source|value source|head tail]; cbn [argumentAll]; auto.
    split; [now apply allOf_all|]. apply allOf_all. intros st. now apply allOf_all. }
  destruct (arguments_read_back numberToString readNumber argument others
              (Hargument _) (allOf_all _ _ (fun o => Hargument _)) Hok Hsup Hread)
    as (Cok & Cvalue & Csup & Csource).
  split; [now rewrite Csource|].
  unfold canonicalTokens in *. rewrite <- Cvalue.
  now apply parseArgumentTokens_sources.
Qed.



(** A string with a double quote inside is read from its serialized text
    up to that quote only: whatever the source of the argument list with
    that one string, the tokens of its serialized text do not parse back
    to it. *)
Example embedded_quote_ends_the_string :
  plainString quoteInside = false /\
  readString (quoted quoteInside) = Some ("a", (", " ++ quoted "b")%string) /\
  (forall numberToString readNumber argument others,
     argumentsValue simpleValue argument others = [ArgString quoteInside] ->
     parseArgumentTokens (canonicalTokens numberToString readNumber argument others)
     = Returned [ArgString "a"]).
Proof.
  split; [reflexivity|]. split; [reflexivity|].
  intros numberToString readNumber [before a after] others Hvalue.
  unfold argumentsValue in Hvalue. cbn [content] in Hvalue.
  injection Hvalue as Ha Hothers.
  destruct others as [|o others]; [|discriminate].
  destruct a as [value source|value source|head tail]; try discriminate.
  cbn [argumentValue] in Ha. injection Ha as ->. reflexivity.
Qed.
